(** * SHEM lattice simulator: the simulation engine of [useSimulation.ts]

    A shallow embedding of the oscillator-lattice engine (node model,
    physics tick, metrics, pattern injection) and the properties stated
    for it.

    Numbers.  A JavaScript [number] is modelled as a real ([R]); the
    elementary functions [Math.sin], [Math.cos], [Math.sqrt], [Math.log]
    are the real ones, so rounding, signed zeros, [NaN] and infinities
    are outside the model.  Loop counters and array indices are integers
    ([Z]).  The two built-ins that have no counterpart in the reals are
    taken as parameters of the development: [fround], the rounding done
    by a store into a [Float32Array], and [hash36], the text produced by
    [Math.random().toString(36).substr(2, 6).toUpperCase()].

    Rounding.  Where a statement gives a bound that a sum or a product
    of the code reaches or crosses by a rounding error, the bound is
    stated closed or with a margin, and the comment of the statement
    says so.  The coherence of a sample is embedded a second time over
    binary64 numbers (module [F64]), to show what the rounding of its
    two sums does.

    Randomness.  [Math.random()] reads the next element of an arbitrary
    stream of draws; every function that calls it threads the stream.

    Around the engine.  The development also covers the colour and the
    rectangle [SimulationCanvas.tsx] draws for a node, and three parts of
    [geminiService.ts]: the sample conversions and the playback schedule
    of the live audio session, the retry loop, and the unity command of
    the interpreter. *)

From Stdlib Require Import String Ascii.
From Stdlib Require Import Reals Lra Lia ZArith List Bool Psatz FinFun.
From Stdlib Require PrimFloat.
Import ListNotations.
Open Scope R_scope.

(* ------------------------------------------------------------------ *)
(** ** JavaScript built-ins used by the engine *)

Module JS.

(** [Math.floor] on a real, as an integer. *)
Definition floor (x : R) : Z := Int_part x.

(** Truncation towards zero, the rounding used by the [%] operator. *)
Definition trunc (x : R) : Z :=
  if Rle_dec 0 x then floor x else (- floor (- x))%Z.

(** [a % b] on numbers: the remainder has the sign of the dividend. *)
Definition rem (a b : R) : R := a - b * IZR (trunc (a / b)).

(** [Math.atan2(y, x)], with values in (-PI, PI]. *)
Definition atan2 (y x : R) : R :=
  if Rlt_dec 0 x then atan (y / x)
  else if Rlt_dec x 0 then
    (if Rle_dec 0 y then atan (y / x) + PI else atan (y / x) - PI)
  else
    (if Rlt_dec 0 y then PI / 2
     else if Rlt_dec y 0 then - (PI / 2) else 0).

(** [a < b] as a JavaScript boolean. *)
Definition ltb (a b : R) : bool := if Rlt_dec a b then true else false.

(** [a <= b] as a JavaScript boolean. *)
Definition leb (a b : R) : bool := if Rle_dec a b then true else false.

(** Array read [a[i]]; [d] stands for what an out-of-range read gives. *)
Definition get {A : Type} (a : list A) (i : Z) (d : A) : A :=
  if (i <? 0)%Z then d else nth (Z.to_nat i) a d.

(** Array write [a[i] = v] at an index inside the array (the engine
    never writes outside: see [cellIdx_range] and [spiralIdx_range]). *)
Fixpoint set_nat {A : Type} (a : list A) (i : nat) (v : A) : list A :=
  match a, i with
  | [], _ => []
  | _ :: t, O => v :: t
  | h :: t, S i' => h :: set_nat t i' v
  end.

Definition set {A : Type} (a : list A) (i : Z) (v : A) : list A :=
  if (i <? 0)%Z then a else set_nat a (Z.to_nat i) v.

(** [a.slice(-n)]: the last [n] elements. *)
Definition slice_last {A : Type} (n : nat) (a : list A) : list A :=
  skipn (length a - n) a.

(** The integers [0, 1, ..., n-1] of a counting [for] loop. *)
Definition range (n : Z) : list Z := map Z.of_nat (seq 0 (Z.to_nat n)).

End JS.

(* ------------------------------------------------------------------ *)
(** ** The stream of random draws *)

Definition Rng : Type := nat -> R.

(** Every draw of [Math.random()] lies in [0, 1). *)
Definition rng_ok (s : Rng) : Prop := forall n, 0 <= s n < 1.

Definition Rand (A : Type) : Type := Rng -> A * Rng.

Definition ret {A : Type} (a : A) : Rand A := fun s => (a, s).

Definition bind {A B : Type} (m : Rand A) (f : A -> Rand B) : Rand B :=
  fun s => let (a, s') := m s in f a s'.

Notation "x <- m ;; k" := (bind m (fun x => k))
  (at level 61, m at next level, right associativity).

(** [Math.random()] *)
Definition Math_random : Rand R := fun s => (s O, fun n => s (S n)).

Fixpoint mapM {A B : Type} (f : A -> Rand B) (l : list A) : Rand (list B) :=
  match l with
  | [] => ret []
  | a :: t => b <- f a ;; bs <- mapM f t ;; ret (b :: bs)
  end.

Fixpoint foldM {A B : Type} (f : B -> A -> Rand B) (l : list A) (b : B)
  : Rand B :=
  match l with
  | [] => ret b
  | a :: t => b' <- f b a ;; foldM f t b'
  end.

(* ------------------------------------------------------------------ *)
(** ** Constants *)

Definition GRID_SIZE : Z := 72.
Definition TOTAL_NODES : Z := GRID_SIZE * GRID_SIZE.
Definition DEFAULT_COUPLING : R := 1.2.
Definition DEFAULT_NOISE : R := 0.1.
Definition DT : R := 0.05.
Definition LAMBDA_PLAST : R := 0.012.
Definition GAMMA_PLAST : R := 0.008.
Definition TARGET_AMP : R := 0.7071.

(* ------------------------------------------------------------------ *)
(** ** Data model *)

Record GridNode : Type := mkNode {
  theta : R;
  omega : R;
  r : R;
  alpha : R;
  isTitan : bool;
  isSpark : bool;
  identity : option string;
  dataSignature : option string
}.

Record SimulationConfig : Type := mkConfig {
  coupling : R;
  noise : R;
  dt : R;
  gridSize : Z
}.

Record SimulationMetrics : Type := mkMetrics {
  coherence : R;
  entropy : R;
  step : Z
}.

Inductive Pattern : Type :=
  pulse | spiral | chaos | stabilize | unity | elysium.

Record InjectionParams : Type := mkParams {
  targetX : R;
  targetY : R;
  radius : R;
  intensity : R;
  pattern : Pattern;
  message : string
}.

(** The mutable cells of the hook: [gridRef], [metricsRef], [stepRef]. *)
Record SimState : Type := mkState {
  gridRef : list GridNode;
  metricsRef : list SimulationMetrics;
  stepRef : Z
}.

(** What a read outside the grid array is taken to give.  A grid always
    has [TOTAL_NODES] entries and every index the engine computes is in
    range, so this value is never observed. *)
Definition noNode : GridNode :=
  mkNode 0 0 0 0 false false None None.

Definition set_theta (n : GridNode) (v : R) : GridNode :=
  mkNode v (omega n) (r n) (alpha n) (isTitan n) (isSpark n)
         (identity n) (dataSignature n).
Definition set_omega (n : GridNode) (v : R) : GridNode :=
  mkNode (theta n) v (r n) (alpha n) (isTitan n) (isSpark n)
         (identity n) (dataSignature n).
Definition set_r (n : GridNode) (v : R) : GridNode :=
  mkNode (theta n) (omega n) v (alpha n) (isTitan n) (isSpark n)
         (identity n) (dataSignature n).
Definition set_alpha (n : GridNode) (v : R) : GridNode :=
  mkNode (theta n) (omega n) (r n) v (isTitan n) (isSpark n)
         (identity n) (dataSignature n).

Definition pattern_eqb (p q : Pattern) : bool :=
  match p, q with
  | pulse, pulse | spiral, spiral | chaos, chaos
  | stabilize, stabilize | unity, unity | elysium, elysium => true
  | _, _ => false
  end.

(* ------------------------------------------------------------------ *)
(** ** The coherence of a sample in binary64

    The sums [sinSum] and [cosSum] of [updatePhysics] and the coherence
    [R] computed from them, over Rocq's primitive floats, which are the
    binary64 numbers with rounding to nearest even of a JavaScript
    [number].  The grid is given by its phases; [Math.sin] and
    [Math.cos], which the language leaves to the engine, are
    parameters; [Math.pow(x, 2)] is the product [x * x]. *)

Module F64.

Import PrimFloat.

(** [TOTAL_NODES = GRID_SIZE * GRID_SIZE], as a number. *)
Definition TOTAL_NODES64 : float := (72 * 72)%float.

(** [sum += f(currentGrid[i].theta)] for every node, from [sum = 0]. *)
Definition accumulate (f : float -> float) (thetas : list float) : float :=
  fold_left (fun sum th => (sum + f th)%float) thetas 0%float.

(** [Math.sqrt(Math.pow(sinSum / TOTAL_NODES, 2)
              + Math.pow(cosSum / TOTAL_NODES, 2))] *)
Definition coherence64 (Math_sin Math_cos : float -> float)
    (thetas : list float) : float :=
  let sinSum := accumulate Math_sin thetas in
  let cosSum := accumulate Math_cos thetas in
  sqrt ((sinSum / TOTAL_NODES64) * (sinSum / TOTAL_NODES64)
        + (cosSum / TOTAL_NODES64) * (cosSum / TOTAL_NODES64))%float.

Definition one : float := 1%float.

(** The binary64 numbers nearest to sin 1 and cos 1:
    0.8414709848078965 and 0.5403023058681398, the values of
    [Math.sin(1)] and [Math.cos(1)]. *)
Definition sin1 : float := 0x1.aed548f090ceep-1%float.

Definition cos1 : float := 0x1.14a280fb5068cp-1%float.

(** 1.0000000000000135 *)
Definition aboveOne : float := 0x1.000000000003dp+0%float.

End F64.

(* ------------------------------------------------------------------ *)
(** ** The engine *)

Section Engine.

(** Rounding of a value stored into a [Float32Array]. *)
Variable fround : R -> R.

(** [u.toString(36).substr(2, 6).toUpperCase()] for a draw [u]. *)
Variable hash36 : R -> string.

(** *** Initialisation *)

(** One iteration of the loop of [initGrid]. *)
Definition initNode : Rand GridNode :=
  u_theta <- Math_random ;;
  let theta := u_theta * 2 * PI in
  u_titan <- Math_random ;;
  let isTitan := JS.ltb u_titan 0.01 in
  isSpark <- (if negb isTitan
              then (u <- Math_random ;; ret (JS.ltb u 0.05))
              else ret false) ;;
  u_omega <- Math_random ;;
  let omega := 1.0 + (u_omega - 0.5) * 0.5 in
  omega <- (if isSpark
            then (u <- Math_random ;; ret (3.0 + (u - 0.5) * 2.0))
            else ret omega) ;;
  let omega := if isTitan then 0.0 else omega in
  u_r <- Math_random ;;
  let r := TARGET_AMP + (u_r - 0.5) * 0.1 in
  u_alpha <- Math_random ;;
  let alpha := 0.1 + (u_alpha * 0.1) in
  ret (mkNode theta omega r alpha isTitan isSpark None None).

Definition initGrid : Rand (list GridNode) :=
  mapM (fun _ : Z => initNode) (JS.range TOTAL_NODES).

(** The hook's cells when it is first rendered. *)
Definition initState : Rand SimState :=
  g <- initGrid ;; ret (mkState g [] 0).

(** *** Neighbour topology *)

Definition getNeighbors (idx : Z) : list Z :=
  let x := Z.rem idx GRID_SIZE in
  let y := (idx / GRID_SIZE)%Z in
  let left := (y * GRID_SIZE + Z.rem (x - 1 + GRID_SIZE) GRID_SIZE)%Z in
  let right := (y * GRID_SIZE + Z.rem (x + 1) GRID_SIZE)%Z in
  let up := (Z.rem (y - 1 + GRID_SIZE) GRID_SIZE * GRID_SIZE + x)%Z in
  let down := (Z.rem (y + 1) GRID_SIZE * GRID_SIZE + x)%Z in
  [left; right; up; down].

(** *** The physics tick *)

(** What the first loop of [updatePhysics] leaves behind: the Cartesian
    projections and the two phase sums. *)
Record Projection : Type := mkProjection {
  projX : list R;
  projY : list R;
  sinSum : R;
  cosSum : R
}.

(** The body of the first loop of [updatePhysics]. *)
Definition projStep (currentGrid : list GridNode) (acc : Projection) (i : Z)
  : Projection :=
  let n := JS.get currentGrid i noNode in
  mkProjection
    (JS.set (projX acc) i (fround (r n * cos (theta n))))
    (JS.set (projY acc) i (fround (r n * sin (theta n))))
    (sinSum acc + sin (theta n))
    (cosSum acc + cos (theta n)).

Definition projectionPass (currentGrid : list GridNode) : Projection :=
  fold_left (projStep currentGrid) (JS.range TOTAL_NODES)
    (mkProjection (repeat 0 (Z.to_nat TOTAL_NODES))
                  (repeat 0 (Z.to_nat TOTAL_NODES)) 0 0).

(** The three sums taken over the neighbours of a node. *)
Definition neighborSums (currentGrid : list GridNode) (X Y : list R)
    (node : GridNode) (x_i y_i : R) (neighbors : list Z) : R * R * R :=
  fold_left
    (fun '(diffX, diffY, phasePull) nIdx =>
       (diffX + (JS.get X nIdx 0 - x_i),
        diffY + (JS.get Y nIdx 0 - y_i),
        phasePull + sin (theta (JS.get currentGrid nIdx noNode) - theta node)))
    neighbors (0, 0, 0).

(** The body of the second loop of [updatePhysics]: the value stored in
    [nextGrid[i]]. *)
Definition updateNode (config : SimulationConfig)
    (currentGrid : list GridNode) (X Y : list R) (i : Z) : Rand GridNode :=
  let node := JS.get currentGrid i noNode in
  let x_i := JS.get X i 0 in
  let y_i := JS.get Y i 0 in
  if isTitan node then
    ret (set_theta node (theta node + (omega node * dt config * 0.1)))
  else
    let neighbors := getNeighbors i in
    let '(diffX, diffY, phasePull) :=
      neighborSums currentGrid X Y node x_i y_i neighbors in
    let r2 := r node * r node in
    u1 <- Math_random ;;
    let noiseX := (u1 - 0.5) * 2 * noise config in
    u2 <- Math_random ;;
    let noiseY := (u2 - 0.5) * 2 * noise config in
    let dX := (alpha node - r2) * x_i - omega node * y_i
              + coupling config * diffX + noiseX in
    let dY := (alpha node - r2) * y_i + omega node * x_i
              + coupling config * diffY + noiseY in
    let nextX := x_i + dX * dt config in
    let nextY := y_i + dY * dt config in
    let nextR := sqrt (nextX * nextX + nextY * nextY) in
    let nextTheta := JS.atan2 nextY nextX in
    let nextTheta :=
      if Rlt_dec nextTheta 0 then nextTheta + 2 * PI else nextTheta in
    let dOmega := LAMBDA_PLAST * coupling config * phasePull in
    let nextOmega := omega node + dOmega * dt config in
    let dAlpha := GAMMA_PLAST * (TARGET_AMP - r node) * r node in
    let nextAlpha := alpha node + dAlpha * dt config in
    let nextR := Rmin (Rmax nextR 0.1) 2.0 in
    let nextAlpha := Rmin (Rmax nextAlpha (-1.0)) 2.0 in
    ret (mkNode nextTheta nextOmega nextR nextAlpha
                (isTitan node) (isSpark node)
                (identity node) (dataSignature node)).

(** The bin a phase is counted in: [Math.min(binIdx, 35)]. *)
Definition binIndex (th : R) : Z :=
  let binIdx := JS.floor ((th / (2 * PI)) * 36) in
  Z.min binIdx 35.

(** [bins[k]++] on the 36-element array.  A negative [k] creates a
    property beside the array elements and leaves the 36 counters as
    they are; [k] is never above 35. *)
Definition binsIncr (bins : list Z) (k : Z) : list Z :=
  if ((0 <=? k) && (k <? Z.of_nat (length bins)))%Z%bool
  then JS.set bins k (JS.get bins k 0 + 1)%Z
  else bins.

(** The histogram loop, over the grid held by [gridRef.current]. *)
Definition histogram (grid : list GridNode) : list Z :=
  fold_left
    (fun bins i => binsIncr bins (binIndex (theta (JS.get grid i noNode))))
    (JS.range TOTAL_NODES)
    (repeat 0%Z 36).

(** The entropy loop over the bins. *)
Definition entropyOf (bins : list Z) : R :=
  fold_left
    (fun entropy count =>
       let p := IZR count / IZR TOTAL_NODES in
       if Rlt_dec 0 p then entropy - p * ln p else entropy)
    bins 0.

Definition updatePhysics (config : SimulationConfig) (st : SimState)
  : Rand SimState :=
  let currentGrid := gridRef st in
  let proj := projectionPass currentGrid in
  nextGrid <- mapM (updateNode config currentGrid (projX proj) (projY proj))
                   (JS.range TOTAL_NODES) ;;
  (* gridRef.current = nextGrid; stepRef.current += 1 *)
  let gridRef' := nextGrid in
  let stepRef' := (stepRef st + 1)%Z in
  let R_ := sqrt ((sinSum proj / IZR TOTAL_NODES) ^ 2
                  + (cosSum proj / IZR TOTAL_NODES) ^ 2) in
  let bins := histogram gridRef' in
  let entropy := entropyOf bins in
  let maxEntropy := ln 36 in
  let normEntropy := entropy / maxEntropy in
  let newMetric := mkMetrics R_ normEntropy stepRef' in
  ret (mkState gridRef'
               (JS.slice_last 100 (metricsRef st) ++ [newMetric])
               stepRef').

(** *** Pattern injection *)

Definition GOLDEN_ANGLE : R := 137.508 * (PI / 180).
Definition SPREAD : R := 3.5.

(** The bounds test [x >= 0 && x < GRID_SIZE && y >= 0 && y < GRID_SIZE]. *)
Definition inGrid (x y : Z) : bool :=
  ((0 <=? x) && (x <? GRID_SIZE) && (0 <=? y) && (y <? GRID_SIZE))%Z%bool.

(** The cell of the [i]-th point of the spiral around the centre. *)
Definition spiralCell (centerX centerY : R) (i : Z) : Z * Z :=
  let r_pos := SPREAD * sqrt (IZR i + 1) in
  let theta_pos := IZR i * GOLDEN_ANGLE in
  let dx := r_pos * cos theta_pos in
  let dy := r_pos * sin theta_pos in
  let x := JS.floor (centerX + dx) in
  let y := JS.floor (centerY + dy) in
  (x, y).

(** The object literal written over a cell of the spiral by
    [injectPattern]: the spread keeps the two optional tags. *)
Definition titanOver (old : GridNode) (i : Z) : GridNode :=
  let theta_pos := IZR i * GOLDEN_ANGLE in
  mkNode (JS.rem theta_pos (2 * PI)) 0.0 1.0 1.0 true false
         (identity old) (dataSignature old).

(** One iteration of the elysium loop of [injectPattern]. *)
Definition elysiumStep (centerX centerY : R) (currentGrid : list GridNode)
    (i : Z) : list GridNode :=
  let '(x, y) := spiralCell centerX centerY i in
  if inGrid x y then
    let idx := (y * GRID_SIZE + x)%Z in
    JS.set currentGrid idx (titanOver (JS.get currentGrid idx noNode) i)
  else currentGrid.

(** The body of the two nested loops of [injectPattern], for the cell
    [(x, y)].  The assignments go through [currentGrid[idx]], the same
    object as [node]. *)
Definition injectCell (params : InjectionParams) (centerX centerY : R)
    (currentGrid : list GridNode) (y x : Z) : Rand (list GridNode) :=
  let dx := IZR x - centerX in
  let dy := IZR y - centerY in
  let dist := sqrt (dx * dx + dy * dy) in
  if Rle_dec dist (radius params) then
    let idx := (y * GRID_SIZE + x)%Z in
    let node := JS.get currentGrid idx noNode in
    if pattern_eqb (pattern params) unity then
      let node := set_theta node (30 * (PI / 180)) in
      let node := set_r node 1.0 in
      let node := set_alpha node 1.0 in
      let node :=
        if (isSpark node || negb (isTitan node))%bool
        then set_omega node 1.0 else node in
      ret (JS.set currentGrid idx node)
    else
      let phaseShift := 0 in
      if pattern_eqb (pattern params) pulse then
        let phaseShift := sin dist * intensity params in
        ret (JS.set currentGrid idx
               (set_theta node (JS.rem (theta node + phaseShift) (2 * PI))))
      else if pattern_eqb (pattern params) spiral then
        let phaseShift := JS.atan2 dy dx * intensity params in
        ret (JS.set currentGrid idx
               (set_theta node (JS.rem (theta node + phaseShift) (2 * PI))))
      else if pattern_eqb (pattern params) chaos then
        u <- Math_random ;;
        let phaseShift := u * 2 * PI * intensity params in
        ret (JS.set currentGrid idx
               (set_theta node (JS.rem (theta node + phaseShift) (2 * PI))))
      else if pattern_eqb (pattern params) stabilize then
        let node := set_theta node 0 in
        let node := set_r node TARGET_AMP in
        ret (JS.set currentGrid idx node)
      else
        ret (JS.set currentGrid idx
               (set_theta node (JS.rem (theta node + phaseShift) (2 * PI))))
  else ret currentGrid.

(** The clamp of a target coordinate: [Math.min(Math.max(t, 0), GRID_SIZE - 1)]. *)
Definition clampTarget (t : R) : R := Rmin (Rmax t 0) (IZR (GRID_SIZE - 1)).

Definition injectPattern (params : InjectionParams) (st : SimState)
  : Rand SimState :=
  let currentGrid := gridRef st in
  let centerX := clampTarget (targetX params) in
  let centerY := clampTarget (targetY params) in
  if pattern_eqb (pattern params) elysium then
    let currentGrid :=
      fold_left (elysiumStep centerX centerY) (JS.range 50) currentGrid in
    ret (mkState currentGrid (metricsRef st) (stepRef st))
  else
    currentGrid <-
      foldM (fun g y =>
               foldM (fun g x => injectCell params centerX centerY g y x)
                     (JS.range GRID_SIZE) g)
            (JS.range GRID_SIZE) currentGrid ;;
    ret (mkState currentGrid (metricsRef st) (stepRef st)).

(** The cells visited by the two nested loops, row by row, each as
    [(y, x)], and the index of a cell. *)
Definition cells : list (Z * Z) :=
  list_prod (JS.range GRID_SIZE) (JS.range GRID_SIZE).

Definition cellIdx (c : Z * Z) : Z := (fst c * GRID_SIZE + snd c)%Z.

(** What the loop body of [injectPattern] makes of the node of the cell
    [(x, y)]: the node itself when the cell is farther than the radius. *)
Definition injectNode (params : InjectionParams) (centerX centerY : R)
    (node : GridNode) (c : Z * Z) : Rand GridNode :=
  let '(y, x) := c in
  let dx := IZR x - centerX in
  let dy := IZR y - centerY in
  let dist := sqrt (dx * dx + dy * dy) in
  if Rle_dec dist (radius params) then
    match pattern params with
    | unity =>
        let node := set_alpha (set_r (set_theta node (30 * (PI / 180))) 1.0) 1.0 in
        ret (if (isSpark node || negb (isTitan node))%bool
             then set_omega node 1.0 else node)
    | pulse =>
        ret (set_theta node
               (JS.rem (theta node + sin dist * intensity params) (2 * PI)))
    | spiral =>
        ret (set_theta node
               (JS.rem (theta node + JS.atan2 dy dx * intensity params)
                       (2 * PI)))
    | chaos =>
        u <- Math_random ;;
        ret (set_theta node
               (JS.rem (theta node + u * 2 * PI * intensity params) (2 * PI)))
    | stabilize => ret (set_r (set_theta node 0) TARGET_AMP)
    | elysium => ret (set_theta node (JS.rem (theta node + 0) (2 * PI)))
    end
  else ret node.

(** *** The gateway *)

Definition digit (d : Z) : string :=
  String (ascii_of_nat (48 + Z.to_nat d)) EmptyString.

(** [i.toString().padStart(2, '0')] for the loop counter [0 <= i < 50]. *)
Definition pad2 (i : Z) : string :=
  (digit (i / 10) ++ digit (Z.rem i 10))%string.

Definition newline : string := String (ascii_of_nat 10) EmptyString.

(** One iteration of the loop of [activateElysiumGateway]. *)
Definition gatewayStep (centerX centerY : Z)
    (acc : string * list GridNode) (i : Z) : Rand (string * list GridNode) :=
  let '(manifest, currentGrid) := acc in
  let mindId := ("ELYSIUM_MIND_" ++ pad2 i)%string in
  let corpusChar :=
    String (ascii_of_nat (65 + Z.to_nat (Z.rem i 26))) EmptyString in
  u <- Math_random ;;
  let randomHash := hash36 u in
  let dataHash := ("CORPUS_" ++ corpusChar ++ "_" ++ randomHash)%string in
  let manifest :=
    (manifest ++ ">> LINKING NODE: " ++ mindId ++ " [" ++ dataHash
              ++ "] STATUS: ACTIVE" ++ newline)%string in
  let '(x, y) := spiralCell (IZR centerX) (IZR centerY) i in
  if inGrid x y then
    let idx := (y * GRID_SIZE + x)%Z in
    let old := JS.get currentGrid idx noNode in
    let theta_pos := IZR i * GOLDEN_ANGLE in
    ret (manifest,
         JS.set currentGrid idx
           (mkNode (JS.rem theta_pos (2 * PI)) 0.0 1.0 1.0 true false
                   (Some mindId) (Some dataHash)))
  else ret (manifest, currentGrid).

Definition activateElysiumGateway (st : SimState) : Rand (string * SimState) :=
  let currentGrid := gridRef st in
  let centerX := (GRID_SIZE / 2)%Z in
  let centerY := (GRID_SIZE / 2)%Z in
  let manifest := ("ELYSIUM_MANIFEST_INIT::" ++ newline)%string in
  res <- foldM (gatewayStep centerX centerY) (JS.range 50)
               (manifest, currentGrid) ;;
  let '(manifest, currentGrid) := res in
  let manifest :=
    (manifest ++ ">> GATEWAY TOPOLOGY: PHYLLOTAXIS_STABLE" ++ newline
              ++ ">> AWAITING KERNEL ACKNOWLEDGMENT...")%string in
  ret (manifest, mkState currentGrid (metricsRef st) (stepRef st)).

(** *** Reachable states *)

(** The states the hook can be in: the first render, then any sequence
    of ticks (under any configuration), injections and gateway
    activations, each with its own random draws. *)
Inductive reachable : SimState -> Prop :=
| reach_init : forall s,
    rng_ok s -> reachable (fst (initState s))
| reach_tick : forall config st s,
    reachable st -> rng_ok s -> reachable (fst (updatePhysics config st s))
| reach_inject : forall params st s,
    reachable st -> rng_ok s -> reachable (fst (injectPattern params st s))
| reach_gateway : forall st s,
    reachable st -> rng_ok s ->
    reachable (snd (fst (activateElysiumGateway st s))).

(** The states reached when only the injection commands accepted by
    [ok] are issued. *)
Inductive reachableVia (ok : InjectionParams -> Prop) : SimState -> Prop :=
| via_init : forall s,
    rng_ok s -> reachableVia ok (fst (initState s))
| via_tick : forall config st s,
    reachableVia ok st -> rng_ok s ->
    reachableVia ok (fst (updatePhysics config st s))
| via_inject : forall params st s,
    reachableVia ok st -> rng_ok s -> ok params ->
    reachableVia ok (fst (injectPattern params st s))
| via_gateway : forall st s,
    reachableVia ok st -> rng_ok s ->
    reachableVia ok (snd (fst (activateElysiumGateway st s))).

(** [n] ticks in a row under one configuration. *)
Fixpoint runTicks (n : nat) (config : SimulationConfig) (st : SimState)
  : Rand SimState :=
  match n with
  | O => ret st
  | S n' => st' <- updatePhysics config st ;; runTicks n' config st'
  end.

(* ------------------------------------------------------------------ *)
(** ** Predicates on nodes and grids *)

(** A valid lattice index. *)
Definition inRange (i : Z) : Prop := (0 <= i < TOTAL_NODES)%Z.

(** The clamp bounds of the amplitude and of the gain. *)
Definition clampOk (n : GridNode) : Prop :=
  0.1 <= r n <= 2.0 /\ -1.0 <= alpha n <= 2.0.

(** The wrap bound of the phase. *)
Definition thetaOk (n : GridNode) : Prop := 0 <= theta n < 2 * PI.

(** The wrap bound with its upper end included: the sum
    [nextTheta + 2 PI] of the tick, taken for a negative [nextTheta],
    reaches [2 PI] when it is rounded. *)
Definition thetaWrapped (n : GridNode) : Prop := 0 <= theta n <= 2 * PI.

(** An anchor is frozen and is not a perturbator. *)
Definition titanOk (n : GridNode) : Prop :=
  isTitan n = true -> omega n = 0 /\ isSpark n = false.

(** A metrics sample within its ranges. *)
Definition sampleOk (m : SimulationMetrics) : Prop :=
  0 <= coherence m <= 1 /\ 0 <= entropy m <= 1.

(** The ranges [initGrid] draws a node from.  The intervals of omega
    and alpha are closed, the sums that produce them reaching their upper
    ends when rounded; those of r carry a margin of 1e-4, the sum
    [TARGET_AMP + (u - 0.5) * 0.1] falling short of 0.6571 by a rounding
    error at [u = 0]. *)
Definition initOk (n : GridNode) : Prop :=
  0 <= theta n < 2 * PI /\
  0.657 <= r n <= 0.7572 /\ 0.1 <= alpha n <= 0.2 /\
  ((isTitan n = true /\ isSpark n = false /\ omega n = 0) \/
   (isTitan n = false /\ isSpark n = true /\ 2 <= omega n <= 4) \/
   (isTitan n = false /\ isSpark n = false /\ 0.75 <= omega n <= 1.25)) /\
  identity n = None /\ dataSignature n = None.

(** The commands whose phase shift cannot be negative: the three
    patterns that set the phase, and chaos with a non-negative
    intensity. *)
Definition wrapSafe (params : InjectionParams) : Prop :=
  pattern params = stabilize \/ pattern params = unity \/
  pattern params = elysium \/
  (pattern params = chaos /\ 0 <= intensity params).


(** The patterns that add a shift to the phase. *)
Definition shiftPattern (p : Pattern) : Prop :=
  p = pulse \/ p = spiral \/ p = chaos.

(** The distance the injection loop computes between a cell and the
    clamped target of a command. *)
Definition cellDist (params : InjectionParams) (c : Z * Z) : R :=
  let dx := IZR (snd c) - clampTarget (targetX params) in
  let dy := IZR (fst c) - clampTarget (targetY params) in
  sqrt (dx * dx + dy * dy).

(** Two nodes with the same phase, frequency, amplitude, gain and
    flags (the tags may differ). *)
Definition sameCore (n m : GridNode) : Prop :=
  theta n = theta m /\ omega n = omega m /\ r n = r m /\
  alpha n = alpha m /\ isTitan n = isTitan m /\ isSpark n = isSpark m.

(** An index of the 36-element bin array. *)
Definition binInBounds (k : Z) : Prop := (0 <= k < 36)%Z.

(** The grid invariant of the hook: [TOTAL_NODES] cells, every anchor
    frozen. *)
Definition gridInv (g : list GridNode) : Prop :=
  length g = Z.to_nat TOTAL_NODES /\ Forall titanOk g.

(* ------------------------------------------------------------------ *)
(** ** The metrics as the specification words them *)

Definition rsum (l : list R) : R := fold_right Rplus 0 l.

(** The phase snapshot of a grid. *)
Definition phases (g : list GridNode) : list R := map theta g.

(** The phases the loops of a tick read from a grid, index by index. *)
Definition phasesRead (g : list GridNode) : list R :=
  map (fun i => theta (JS.get g i noNode)) (JS.range TOTAL_NODES).

(** Coherence of a snapshot of [N] phases:
    sqrt ((sum sin / N)^2 + (sum cos / N)^2). *)
Definition coherenceSpec (ths : list R) : R :=
  let N := INR (length ths) in
  sqrt ((rsum (map sin ths) / N) ^ 2 + (rsum (map cos ths) / N) ^ 2).

(** Number of phases of the snapshot quantized into bin [k]. *)
Definition binCount (ths : list R) (k : Z) : Z :=
  Z.of_nat (length (filter (fun th => (binIndex th =? k)%Z) ths)).

(** The term of a bin in the Shannon sum; an empty bin contributes
    nothing. *)
Definition shannonTerm (N : R) (count : Z) : R :=
  if (count =? 0)%Z then 0 else (IZR count / N) * ln (IZR count / N).

(** Shannon entropy over the nonzero bins of the 36-bin histogram of a
    snapshot, divided by log 36. *)
Definition normalizedEntropySpec (ths : list R) : R :=
  let N := INR (length ths) in
  - rsum (map (fun k => shannonTerm N (binCount ths k)) (JS.range 36))
  / ln 36.

(* ------------------------------------------------------------------ *)
(** ** Sample data *)

(** Instances of the two parameters: no rounding, and a constant text. *)
Definition froundId : R -> R := fun x => x.

Definition hashX : R -> string := fun _ => "X"%string.

(** A configuration without coupling and noise, with a time step of 1. *)
Definition unitConfig : SimulationConfig := mkConfig 0 0 1 72.

(** The command [interpretThoughtInjection] returns for its unity key
    phrases: the centre cell, radius [GRID_SIZE], intensity 5. *)
Definition unityShortcut : InjectionParams :=
  mkParams (IZR (JS.floor (IZR GRID_SIZE / 2)))
           (IZR (JS.floor (IZR GRID_SIZE / 2)))
           (IZR GRID_SIZE) 5.0 unity
           "PHASE 10: TYPE 1 UNITY ACHIEVED. ENTROPY NULLIFIED.".

(** A pulse command of intensity 0, and an elysium command aimed at the
    corner cell (0, 0). *)
Definition stillPulse : InjectionParams :=
  mkParams 36 36 10 0 pulse EmptyString.

Definition cornerElysium : InjectionParams :=
  mkParams 0 0 72 3 elysium EmptyString.

(** The node of scenario A. *)
Definition uniformNode : GridNode :=
  mkNode 0 1.0 0.7071 0.1 false false None None.

(** A grid whose cells all hold the same node. *)
Definition uniformGrid (n : GridNode) : list GridNode :=
  repeat n (Z.to_nat TOTAL_NODES).

(** A node with phase 1 and amplitude 1, neither Titan nor Spark. *)
Definition litNode : GridNode :=
  mkNode 1 1 1 0.1 false false None None.

(** A state of the hook holding a given grid, before any tick. *)
Definition stateOf (g : list GridNode) : SimState := mkState g [] 0.

(** The stream whose draws are all [0]. *)
Definition rng0 : Rng := fun _ => 0.

(** A stabilize command of radius [GRID_SIZE] aimed at the corner cell
    (0, 0), and one aimed at the centre cell (36, 36). *)
Definition cornerStabilize : InjectionParams :=
  mkParams 0 0 72 1 stabilize EmptyString.

Definition centreStabilize : InjectionParams :=
  mkParams 36 36 72 1 stabilize EmptyString.

(** The disc of the command covers the grid: every cell is within the
    radius of the clamped target, in the distance the loop computes. *)
Definition covers (centerX centerY radius : R) : Prop :=
  forall y x, In (y, x) cells ->
    sqrt ((IZR x - centerX) * (IZR x - centerX)
          + (IZR y - centerY) * (IZR y - centerY)) <= radius.

(** The stream whose draws are all [0.5], and the one whose second
    draw alone is [0]. *)
Definition rngHalf : Rng := fun _ => 0.5.

Definition rng1 : Rng := fun n => if Nat.eqb n 1 then 0 else 0.5.

(** The nodes [initGrid] builds from these streams: a Titan at phase 0
    (draws 0), a Titan at phase PI (draws 0.5, 0, 0.5, ...), a free node
    at phase PI (draws 0.5). *)
Definition anchor0 : GridNode :=
  mkNode (0 * 2 * PI) 0.0 (TARGET_AMP + (0 - 0.5) * 0.1) (0.1 + 0 * 0.1)
         true false None None.

Definition anchorPi : GridNode :=
  mkNode (0.5 * 2 * PI) 0.0 (TARGET_AMP + (0.5 - 0.5) * 0.1) (0.1 + 0.5 * 0.1)
         true false None None.

Definition freePi : GridNode :=
  mkNode (0.5 * 2 * PI) (1.0 + (0.5 - 0.5) * 0.5)
         (TARGET_AMP + (0.5 - 0.5) * 0.1) (0.1 + 0.5 * 0.1)
         false false None None.

(** A spiral command of radius 1 and intensity 1 aimed at the centre
    cell, and the state it leaves when injected right after an
    initialisation whose draws are all [0]. *)
Definition centreSpiral : InjectionParams :=
  mkParams 36 36 1 1 spiral EmptyString.

Definition spiralState : SimState :=
  fst (injectPattern centreSpiral (fst (initState rng0)) rng0).

(** A configuration without coupling and noise, with a time step of 3,
    and the initial state built from the stream [rng1]. *)
Definition looseConfig : SimulationConfig := mkConfig 0 0 3 72.

Definition mixedState : SimState := fst (initState rng1).

(** The index written for the [i]-th point of the spiral, and whether
    the point passes the bounds test. *)
Definition spiralIdx (centerX centerY : R) (i : Z) : Z :=
  let '(x, y) := spiralCell centerX centerY i in (y * GRID_SIZE + x)%Z.

Definition spiralInGrid (centerX centerY : R) (i : Z) : bool :=
  let '(x, y) := spiralCell centerX centerY i in inGrid x y.

(** The in-bounds placements among the 50 points, and the indices they
    write. *)
Definition inBoundsPoints (centerX centerY : R) : list Z :=
  filter (spiralInGrid centerX centerY) (JS.range 50).

Definition placedIndices (centerX centerY : R) : list Z :=
  map (spiralIdx centerX centerY) (inBoundsPoints centerX centerY).

(** What an elysium placement leaves in a cell. *)
Definition placedTitan (n : GridNode) : Prop :=
  isTitan n = true /\ isSpark n = false /\
  omega n = 0 /\ r n = 1 /\ alpha n = 1.

(** The elysium command aimed at the centre cell. *)
Definition centreElysium : InjectionParams :=
  mkParams 36 36 72 3 elysium EmptyString.

(* ------------------------------------------------------------------ *)
(** ** Names for the parts of the topology *)

(** The four entries of [getNeighbors], by position. *)
Definition nbLeft (idx : Z) : Z := nth 0 (getNeighbors idx) 0%Z.
Definition nbRight (idx : Z) : Z := nth 1 (getNeighbors idx) 0%Z.
Definition nbUp (idx : Z) : Z := nth 2 (getNeighbors idx) 0%Z.
Definition nbDown (idx : Z) : Z := nth 3 (getNeighbors idx) 0%Z.

(** The column and the row of an index, as [getNeighbors] and the canvas
    compute them: [idx % GRID_SIZE] and [Math.floor(idx / GRID_SIZE)]. *)
Definition colOf (idx : Z) : Z := Z.rem idx GRID_SIZE.
Definition rowOf (idx : Z) : Z := (idx / GRID_SIZE)%Z.

(* ------------------------------------------------------------------ *)
(** ** The canvas of [SimulationCanvas.tsx] *)

(** [Math.min(Math.max(node.r / 0.7071, 0), 2)] *)
Definition normalizedAmp (node : GridNode) : R :=
  Rmin (Rmax (r node / 0.7071) 0) 2.

(** The lightness, in percent, of the colour a node is drawn in. *)
Definition lightnessValue (node : GridNode) : R :=
  let lightness :=
    if isTitan node then 80
    else if isSpark node then 60 * normalizedAmp node
    else 40 * normalizedAmp node in
  Rmin (Rmax lightness 5) 95.

(** The hue, in degrees. *)
Definition degrees (node : GridNode) : R := (theta node * 180) / PI.

(** The rectangle [fillRect(x, y, cellSize - 1, cellSize - 1)] of the
    node of index [i] on a canvas of the given width. *)
Definition cellSize (width : R) : R := width / IZR GRID_SIZE.

Definition cellX (width : R) (i : Z) : R := IZR (colOf i) * cellSize width.

Definition cellY (width : R) (i : Z) : R := IZR (rowOf i) * cellSize width.

(** A point of the rectangle drawn for the node of index [i]. *)
Definition inCell (width : R) (i : Z) (px py : R) : Prop :=
  cellX width i <= px <= cellX width i + (cellSize width - 1) /\
  cellY width i <= py <= cellY width i + (cellSize width - 1).

(* ------------------------------------------------------------------ *)
(** ** The audio path of [GeminiLiveSession]

    Samples are numbers; the 16-bit integers of an [Int16Array] are
    integers with the wrap-around of the store written out.  The store
    of [int16 / 32768.0] into a [Float32Array] is exact, a quotient of
    a 16-bit integer by a power of two being a binary32 number. *)

(** The store of a number into an [Int16Array]: truncation, then
    reduction modulo 2^16 into [-32768, 32767]. *)
Definition toInt16 (x : R) : Z :=
  ((JS.trunc x + 32768) mod 65536 - 32768)%Z.

(** The loop body of [floatTo16BitPCM]. *)
Definition pcmSample (x : R) : Z :=
  let s := Rmax (-1) (Rmin 1 x) in
  toInt16 (if Rlt_dec s 0 then s * 32768 else s * 32767).

Definition floatTo16BitPCM (input : list R) : list Z := map pcmSample input.

(** The 16-bit integer held by two bytes, low byte first. *)
Definition int16OfBytes (lo hi : Z) : Z :=
  let u := (lo + 256 * hi)%Z in
  if (u <? 32768)%Z then u else (u - 65536)%Z.

(** [new Int16Array(bytes.buffer)]: a view of the bytes two by two; the
    constructor throws a [RangeError] on an odd number of bytes. *)
Fixpoint int16Array (bytes : list Z) : option (list Z) :=
  match bytes with
  | [] => Some []
  | [_] => None
  | lo :: hi :: rest =>
      match int16Array rest with
      | Some l => Some (int16OfBytes lo hi :: l)
      | None => None
      end
  end.

(** [createBuffer(1, length, 24000)]: the Web Audio interface throws a
    [NotSupportedError] for a buffer of length 0; the channel data of
    the buffer it returns is then set to the samples. *)
Definition createBuffer (float32 : list R) : option (list R) :=
  match float32 with
  | [] => None
  | _ :: _ => Some float32
  end.

(** [decodeAudio], from the bytes [atob] yields to the samples of the
    buffer; [None] when it throws. *)
Definition decodeAudio (bytes : list Z) : option (list R) :=
  match int16Array bytes with
  | Some int16 => createBuffer (map (fun v => IZR v / 32768.0) int16)
  | None => None
  end.

(** [playAudio] at the time [currentTime] of the output context, for a
    buffer of the given duration: the time handed to [source.start] and
    the new [nextStartTime]. *)
Definition playAudio (nextStartTime currentTime duration : R) : R * R :=
  let startTime := Rmax currentTime nextStartTime in
  (startTime, startTime + duration).

(** The buffers of a session played in turn, each call with its clock
    reading and its duration: the interval of time each one is
    scheduled on. *)
Fixpoint playAll (nextStartTime : R) (calls : list (R * R))
  : list (R * R) :=
  match calls with
  | [] => []
  | (currentTime, duration) :: rest =>
      let '(startTime, next) := playAudio nextStartTime currentTime duration in
      (startTime, next) :: playAll next rest
  end.

(* ------------------------------------------------------------------ *)
(** ** The retry loop of [geminiService.ts]

    An awaited call either resolves to a value or rejects with an
    error.  The callback is given by the outcome of each of its calls,
    numbered from the first; [isQuotaError] is a parameter, and
    [retries] is a natural number, as at every call site. *)

Inductive Outcome (T E : Type) : Type :=
| Resolved (v : T)
| Rejected (e : E).

#[global] Arguments Resolved {T E} v.
#[global] Arguments Rejected {T E} e.

(** What a run of the loop did: its outcome, the number of calls of the
    callback made so far, and the delays slept, in order. *)
Record RetryRun (T E : Type) : Type := mkRun {
  outcome : Outcome T E;
  calls : nat;
  delays : list R
}.

#[global] Arguments mkRun {T E} outcome calls delays.
#[global] Arguments outcome {T E} _.
#[global] Arguments calls {T E} _.
#[global] Arguments delays {T E} _.

(** [retryWithBackoff(operation, retries, baseDelay)], started when the
    callback has been called [k] times. *)
Fixpoint retryWithBackoff {T E : Type} (isQuotaError : E -> bool)
    (operation : nat -> Outcome T E) (retries : nat) (baseDelay : R)
    (k : nat) : Rand (RetryRun T E) :=
  match operation k with
  | Resolved v => ret (mkRun (Resolved v) (S k) [])
  | Rejected e =>
      match retries with
      | S retries' =>
          if isQuotaError e then
            x <- Math_random ;;
            let delay := baseDelay * powerRZ 2 (2 - Z.of_nat retries)
                         * (0.8 + x * 0.4) in
            run <- retryWithBackoff isQuotaError operation retries'
                     (baseDelay * 1.5) (S k) ;;
            ret (mkRun (outcome run) (calls run) (delay :: delays run))
          else ret (mkRun (Rejected e) (S k) [])
      | O => ret (mkRun (Rejected e) (S k) [])
      end
  end.

(** An outcome the loop does not retry. *)
Definition final {T E : Type} (isQuotaError : E -> bool) (o : Outcome T E)
  : bool :=
  match o with
  | Resolved _ => true
  | Rejected e => negb (isQuotaError e)
  end.

(** The nominal delay before the [i]-th retry, jitter apart. *)
Definition nominalDelay (retries : nat) (baseDelay : R) (i : nat) : R :=
  baseDelay * powerRZ 2 (2 - Z.of_nat retries) * 3 ^ i.

(* ------------------------------------------------------------------ *)
(** ** Basic facts about the built-ins *)

Lemma floor_spec (x : R) : IZR (JS.floor x) <= x < IZR (JS.floor x) + 1.
Proof.
  unfold JS.floor. destruct (base_Int_part x) as [H1 H2]. split; lra.
Qed.

Lemma floor_unique (x : R) (z : Z) : IZR z <= x < IZR z + 1 -> JS.floor x = z.
Proof.
  intros [H1 H2]. unfold JS.floor. symmetry. apply Int_part_spec. split; lra.
Qed.

Lemma floor_nonneg (x : R) : 0 <= x -> (0 <= JS.floor x)%Z.
Proof.
  intros Hx. destruct (floor_spec x) as [_ H].
  assert (Hlt : (-1 < JS.floor x)%Z).
  { apply lt_IZR. apply Rplus_lt_reg_r with 1. replace (IZR (-1) + 1) with 0 by (simpl; lra). lra. }
  lia.
Qed.

Lemma floor_neg (x : R) : x < 0 -> (JS.floor x < 0)%Z.
Proof.
  intros Hx. destruct (floor_spec x) as [H _].
  apply lt_IZR. lra.
Qed.

Lemma floor_lt (x : R) (z : Z) : x < IZR z -> (JS.floor x < z)%Z.
Proof.
  intros Hx. destruct (floor_spec x) as [H _]. apply lt_IZR. lra.
Qed.

Lemma floor_ge (x : R) (z : Z) : IZR z <= x -> (z <= JS.floor x)%Z.
Proof.
  intros Hx. destruct (floor_spec x) as [_ H].
  assert (Hlt : (z < JS.floor x + 1)%Z).
  { apply lt_IZR. rewrite plus_IZR. lra. }
  lia.
Qed.

Lemma GRID_SIZE_val : GRID_SIZE = 72%Z.
Proof. reflexivity. Qed.

Lemma TOTAL_NODES_val : TOTAL_NODES = 5184%Z.
Proof. reflexivity. Qed.

Lemma TOTAL_NODES_grid : TOTAL_NODES = (GRID_SIZE * GRID_SIZE)%Z.
Proof. reflexivity. Qed.

#[global] Opaque GRID_SIZE TOTAL_NODES.

Lemma two_PI_pos : 0 < 2 * PI.
Proof. pose proof PI_RGT_0. lra. Qed.

(** *** Arrays *)

Lemma range_length (n : Z) : length (JS.range n) = Z.to_nat n.
Proof. unfold JS.range. now rewrite length_map, length_seq. Qed.

Lemma range_nth (n : Z) (k : nat) (d : Z) :
  (k < Z.to_nat n)%nat -> nth k (JS.range n) d = Z.of_nat k.
Proof.
  intros Hk. unfold JS.range.
  rewrite nth_indep with (d' := Z.of_nat 0) by (now rewrite length_map, length_seq).
  rewrite map_nth, seq_nth by assumption. reflexivity.
Qed.

Lemma range_In (n i : Z) : In i (JS.range n) <-> (0 <= i < n)%Z.
Proof.
  unfold JS.range. rewrite in_map_iff. split.
  - intros [k [Hk Hin]]. apply in_seq in Hin. lia.
  - intros Hi. exists (Z.to_nat i). split; [lia|]. apply in_seq. lia.
Qed.

Lemma range_NoDup (n : Z) : NoDup (JS.range n).
Proof.
  unfold JS.range. apply Injective_map_NoDup.
  - intros a b Hab. lia.
  - apply seq_NoDup.
Qed.

Lemma get_nth {A : Type} (a : list A) (i : Z) (d : A) :
  (0 <= i)%Z -> JS.get a i d = nth (Z.to_nat i) a d.
Proof.
  intros Hi. unfold JS.get. destruct (Z.ltb_spec i 0); [lia | reflexivity].
Qed.

Lemma set_nat_length {A : Type} (a : list A) (i : nat) (v : A) :
  length (JS.set_nat a i v) = length a.
Proof.
  revert i. induction a as [|h t IH]; intros [|i]; simpl; auto.
Qed.

Lemma set_length {A : Type} (a : list A) (i : Z) (v : A) :
  length (JS.set a i v) = length a.
Proof.
  unfold JS.set. destruct (i <? 0)%Z; [reflexivity | apply set_nat_length].
Qed.

Lemma nth_set_nat_same {A : Type} (a : list A) (i : nat) (v d : A) :
  (i < length a)%nat -> nth i (JS.set_nat a i v) d = v.
Proof.
  revert i. induction a as [|h t IH]; intros [|i] Hi; simpl in *; try lia; auto.
  apply IH. lia.
Qed.

Lemma nth_set_nat_other {A : Type} (a : list A) (i j : nat) (v d : A) :
  i <> j -> nth j (JS.set_nat a i v) d = nth j a d.
Proof.
  revert i j. induction a as [|h t IH]; intros [|i] [|j] Hij; simpl; auto; try lia.
Qed.

Lemma get_set_same {A : Type} (a : list A) (i : Z) (v d : A) :
  (0 <= i < Z.of_nat (length a))%Z -> JS.get (JS.set a i v) i d = v.
Proof.
  intros Hi. rewrite get_nth by lia. unfold JS.set.
  destruct (Z.ltb_spec i 0); [lia|]. apply nth_set_nat_same. lia.
Qed.

Lemma get_set_other {A : Type} (a : list A) (i j : Z) (v d : A) :
  i <> j -> (0 <= j)%Z -> JS.get (JS.set a i v) j d = JS.get a j d.
Proof.
  intros Hij Hj. rewrite !get_nth by lia. unfold JS.set.
  destruct (Z.ltb_spec i 0); [reflexivity|]. apply nth_set_nat_other. lia.
Qed.

(** *** Loops that draw random numbers *)

Lemma mapM_length {A B : Type} (f : A -> Rand B) (l : list A) (s : Rng) :
  length (fst (mapM f l s)) = length l.
Proof.
  revert s. induction l as [|a t IH]; intros s; simpl; [reflexivity|].
  unfold bind. destruct (f a s) as [b s1]. specialize (IH s1).
  destruct (mapM f t s1) as [bs s2]. simpl in *. now rewrite IH.
Qed.

(** Each element of the result comes from one call of the body, on the
    stream as the earlier calls left it. *)
Lemma mapM_nth {A B : Type} (P : Rng -> Prop) (f : A -> Rand B)
    (l : list A) (dA : A) (dB : B) :
  (forall a s, P s -> P (snd (f a s))) ->
  forall (s : Rng) (k : nat), P s -> (k < length l)%nat ->
  exists s', P s' /\ nth k (fst (mapM f l s)) dB = fst (f (nth k l dA) s').
Proof.
  intros Hf. induction l as [|a t IH]; intros s k Hs Hk; simpl in Hk; [lia|].
  simpl. unfold bind. pose proof (Hf a s Hs) as Hs1.
  destruct (f a s) as [b s1] eqn:E. simpl in Hs1.
  destruct k as [|k].
  - exists s. split; [assumption|]. destruct (mapM f t s1); simpl. now rewrite E.
  - destruct (IH s1 k Hs1 ltac:(lia)) as [s' [Hs' Hn]]. exists s'. split; [assumption|].
    destruct (mapM f t s1); simpl in *. exact Hn.
Qed.

Lemma mapM_snd_inv {A B : Type} (P : Rng -> Prop) (f : A -> Rand B)
    (l : list A) :
  (forall a s, P s -> P (snd (f a s))) ->
  forall s, P s -> P (snd (mapM f l s)).
Proof.
  intros Hf. induction l as [|a t IH]; intros s Hs; simpl; [assumption|].
  unfold bind. pose proof (Hf a s Hs) as Hs1. destruct (f a s) as [b s1].
  specialize (IH s1 Hs1). destruct (mapM f t s1); simpl in *. assumption.
Qed.

(** A body whose value ignores the draws gives a result that ignores them. *)
Lemma mapM_pure {A B : Type} (f : A -> Rand B) (g : A -> B) (l : list A) :
  (forall a s, In a l -> fst (f a s) = g a) ->
  forall s, fst (mapM f l s) = map g l.
Proof.
  induction l as [|a t IH]; intros Hf s; simpl; [reflexivity|].
  unfold bind. pose proof (Hf a s (or_introl eq_refl)) as Ha.
  destruct (f a s) as [b s1]. simpl in Ha. subst b.
  rewrite <- (IH (fun a' s' Hin => Hf a' s' (or_intror Hin)) s1).
  destruct (mapM f t s1); reflexivity.
Qed.

Lemma rng_ok_tail (s : Rng) : rng_ok s -> rng_ok (fun n => s (S n)).
Proof. intros H n. apply H. Qed.

Lemma Math_random_ok (s : Rng) :
  rng_ok s -> 0 <= fst (Math_random s) < 1 /\ rng_ok (snd (Math_random s)).
Proof. intros H. split; [apply H | now apply rng_ok_tail]. Qed.

(** *** [Math.atan2] *)

Lemma atan_nonpos (x : R) : x <= 0 -> atan x <= 0.
Proof.
  intros [Hx | Hx].
  - left. rewrite <- atan_0. now apply atan_increasing.
  - subst x. rewrite atan_0. lra.
Qed.

Lemma atan_pos (x : R) : 0 < x -> 0 < atan x.
Proof. intros Hx. rewrite <- atan_0. now apply atan_increasing. Qed.

Lemma atan2_range (y x : R) : - PI < JS.atan2 y x <= PI.
Proof.
  pose proof PI_RGT_0 as Hpi. unfold JS.atan2.
  destruct (Rlt_dec 0 x) as [Hx | Hx].
  - pose proof (atan_bound (y / x)). lra.
  - destruct (Rlt_dec x 0) as [Hx' | Hx'].
    + destruct (Rle_dec 0 y) as [Hy | Hy].
      * pose proof (atan_bound (y / x)).
        assert (atan (y / x) <= 0).
        { apply atan_nonpos. unfold Rdiv.
          assert (/ x < 0) by now apply Rinv_lt_0_compat. nra. }
        lra.
      * pose proof (atan_bound (y / x)).
        assert (0 < atan (y / x)).
        { apply atan_pos. unfold Rdiv.
          assert (/ x < 0) by now apply Rinv_lt_0_compat. nra. }
        lra.
    + destruct (Rlt_dec 0 y); [lra|]. destruct (Rlt_dec y 0); lra.
Qed.

(** *** The tick, node by node *)

Lemma updateNode_rng_ok config g X Y i s :
  rng_ok s -> rng_ok (snd (updateNode config g X Y i s)).
Proof.
  intros Hs. unfold updateNode.
  destruct (isTitan (JS.get g i noNode)); [exact Hs|].
  destruct (neighborSums _ _ _ _ _ _ _) as [[dX dY] pp].
  unfold bind, Math_random, ret; simpl.
  intros n. apply Hs.
Qed.

Lemma updateNode_titan config g X Y i s :
  isTitan (JS.get g i noNode) = true ->
  fst (updateNode config g X Y i s) =
  set_theta (JS.get g i noNode)
            (theta (JS.get g i noNode)
             + omega (JS.get g i noNode) * dt config * 0.1).
Proof.
  intros H. unfold updateNode. rewrite H. reflexivity.
Qed.

(** What the tick guarantees for a node that is not a Titan: the clamps,
    the wrapped phase, and the untouched flags and tags. *)
Lemma updateNode_free config g X Y i s :
  isTitan (JS.get g i noNode) = false ->
  let n' := fst (updateNode config g X Y i s) in
  0.1 <= r n' <= 2.0 /\ -1.0 <= alpha n' <= 2.0 /\
  0 <= theta n' < 2 * PI /\
  isTitan n' = false /\ isSpark n' = isSpark (JS.get g i noNode) /\
  identity n' = identity (JS.get g i noNode) /\
  dataSignature n' = dataSignature (JS.get g i noNode).
Proof.
  intros H. unfold updateNode. rewrite H.
  destruct (neighborSums _ _ _ _ _ _ _) as [[dX dY] pp].
  unfold bind, Math_random, ret; simpl.
  repeat split; try assumption.
  - unfold Rmin, Rmax.
    repeat match goal with |- context [Rle_dec ?a ?b] => destruct (Rle_dec a b) end; lra.
  - unfold Rmin, Rmax.
    repeat match goal with |- context [Rle_dec ?a ?b] => destruct (Rle_dec a b) end; lra.
  - unfold Rmin, Rmax.
    repeat match goal with |- context [Rle_dec ?a ?b] => destruct (Rle_dec a b) end; lra.
  - unfold Rmin, Rmax.
    repeat match goal with |- context [Rle_dec ?a ?b] => destruct (Rle_dec a b) end; lra.
  - match goal with |- context [JS.atan2 ?a ?b] => pose proof (atan2_range a b) end.
    destruct (Rlt_dec _ _); lra.
  - match goal with |- context [JS.atan2 ?a ?b] => pose proof (atan2_range a b) end.
    pose proof PI_RGT_0.
    destruct (Rlt_dec _ _); lra.
Qed.

Lemma updatePhysics_grid config st s :
  gridRef (fst (updatePhysics config st s)) =
  fst (mapM (updateNode config (gridRef st)
               (projX (projectionPass (gridRef st)))
               (projY (projectionPass (gridRef st))))
            (JS.range TOTAL_NODES) s).
Proof.
  unfold updatePhysics, bind, ret. destruct (mapM _ _ s) as [ng s']. reflexivity.
Qed.

Lemma updatePhysics_rng_ok config st s :
  rng_ok s -> rng_ok (snd (updatePhysics config st s)).
Proof.
  intros Hs. unfold updatePhysics, bind, ret.
  pose proof (mapM_snd_inv rng_ok
                (updateNode config (gridRef st)
                   (projX (projectionPass (gridRef st)))
                   (projY (projectionPass (gridRef st))))
                (JS.range TOTAL_NODES) (updateNode_rng_ok _ _ _ _) s Hs) as H.
  destruct (mapM _ _ s) as [ng s']. exact H.
Qed.

Lemma updatePhysics_length config st s :
  length (gridRef (fst (updatePhysics config st s))) = Z.to_nat TOTAL_NODES.
Proof. now rewrite updatePhysics_grid, mapM_length, range_length. Qed.

(** The node stored at index [i] by a tick is the loop body run at [i],
    on the stream as the earlier iterations left it. *)
Lemma updatePhysics_node (P : Rng -> Prop) config st s i :
  (forall j s0, P s0 ->
     P (snd (updateNode config (gridRef st)
               (projX (projectionPass (gridRef st)))
               (projY (projectionPass (gridRef st))) j s0))) ->
  P s -> (0 <= i < TOTAL_NODES)%Z ->
  exists s', P s' /\
    JS.get (gridRef (fst (updatePhysics config st s))) i noNode =
    fst (updateNode config (gridRef st)
           (projX (projectionPass (gridRef st)))
           (projY (projectionPass (gridRef st))) i s').
Proof.
  intros HP Hs Hi. rewrite updatePhysics_grid, get_nth by lia.
  destruct (mapM_nth P _ (JS.range TOTAL_NODES) 0%Z noNode HP s (Z.to_nat i) Hs)
    as [s' [Hs' Hn]].
  { rewrite range_length. lia. }
  exists s'. split; [assumption|].
  rewrite Hn, range_nth by lia. f_equal. f_equal. lia.
Qed.

(* ------------------------------------------------------------------ *)
(** ** The clamp invariant *)

(** C3.  After a physics tick every node of the new grid has its
    amplitude [r] in [0.1, 2.0] and its gain [alpha] in [-1.0, 2.0],
    whenever the nodes of the grid before the tick satisfy these bounds
    and the configuration has coupling >= 0, noise >= 0 and dt > 0. *)
Theorem tick_clamp_invariant (config : SimulationConfig) (st : SimState)
    (s : Rng) :
  0 <= coupling config -> 0 <= noise config -> 0 < dt config ->
  (forall i, inRange i -> clampOk (JS.get (gridRef st) i noNode)) ->
  forall i, inRange i ->
    clampOk (JS.get (gridRef (fst (updatePhysics config st s))) i noNode).
Proof.
  intros _ _ _ Hpre i Hi.
  destruct (updatePhysics_node (fun _ => True) config st s i) as [s' [_ Hn]];
    auto.
  rewrite Hn. destruct (isTitan (JS.get (gridRef st) i noNode)) eqn:Ht.
  - rewrite updateNode_titan by assumption. apply (Hpre i Hi).
  - destruct (updateNode_free config (gridRef st)
                (projX (projectionPass (gridRef st)))
                (projY (projectionPass (gridRef st))) i s' Ht)
      as [Hr [Ha _]].
    split; assumption.
Qed.

(* ------------------------------------------------------------------ *)
(** ** Bin indices *)

(** C10.  For a phase in [0, 2*PI) the bin index
    [Math.min(Math.floor(theta / (2*PI) * 36), 35)] is an index of the
    36-element bin array; the clamp guards the upper end only, so for a
    negative phase the index is negative and the access falls outside
    the array. *)
Theorem binIndex_bounds (th : R) :
  (0 <= th < 2 * PI -> binInBounds (binIndex th)) /\
  (th < 0 -> (binIndex th < 0)%Z /\ ~ binInBounds (binIndex th)).
Proof.
  pose proof two_PI_pos as Hpi. unfold binIndex, binInBounds. split.
  - intros [H0 H1].
    assert (0 <= th / (2 * PI) * 36).
    { apply Rmult_le_pos; [|lra]. apply Rmult_le_pos; [lra|].
      left. now apply Rinv_0_lt_compat. }
    pose proof (floor_nonneg _ H). lia.
  - intros Hneg.
    assert (th / (2 * PI) * 36 < 0).
    { assert (0 < / (2 * PI)) by now apply Rinv_0_lt_compat.
      unfold Rdiv. nra. }
    pose proof (floor_neg _ H). lia.
Qed.

(* ------------------------------------------------------------------ *)
(** ** The projection pass *)

Lemma get_repeat {A : Type} (x d : A) (n : nat) (i : Z) :
  (0 <= i < Z.of_nat n)%Z -> JS.get (repeat x n) i d = x.
Proof.
  intros Hi. rewrite get_nth by lia.
  rewrite nth_indep with (d' := x) by (rewrite repeat_length; lia).
  apply nth_repeat.
Qed.

Lemma map_get_range {A : Type} (g : list A) (d : A) (n : Z) :
  length g = Z.to_nat n ->
  map (fun i => JS.get g i d) (JS.range n) = g.
Proof.
  intros Hlen. apply nth_ext with (d := d) (d' := d).
  - now rewrite length_map, range_length.
  - intros k Hk. rewrite length_map, range_length in Hk.
    rewrite nth_indep with (d' := JS.get g 0%Z d)
      by (rewrite length_map, range_length; lia).
    rewrite (map_nth (fun i => JS.get g i d) (JS.range n) 0%Z k).
    rewrite range_nth by lia. rewrite get_nth by lia. f_equal. lia.
Qed.

Lemma projection_fold (g : list GridNode) (l : list Z) :
  NoDup l ->
  forall acc,
  (forall i, In i l -> (0 <= i < Z.of_nat (length (projX acc)))%Z) ->
  (forall i, In i l -> (0 <= i < Z.of_nat (length (projY acc)))%Z) ->
  let res := fold_left (projStep g) l acc in
  (forall i, In i l ->
     JS.get (projX res) i 0
       = fround (r (JS.get g i noNode) * cos (theta (JS.get g i noNode))) /\
     JS.get (projY res) i 0
       = fround (r (JS.get g i noNode) * sin (theta (JS.get g i noNode)))) /\
  (forall i, ~ In i l -> (0 <= i)%Z ->
     JS.get (projX res) i 0 = JS.get (projX acc) i 0 /\
     JS.get (projY res) i 0 = JS.get (projY acc) i 0) /\
  length (projX res) = length (projX acc) /\
  length (projY res) = length (projY acc) /\
  sinSum res
    = sinSum acc + rsum (map (fun i => sin (theta (JS.get g i noNode))) l) /\
  cosSum res
    = cosSum acc + rsum (map (fun i => cos (theta (JS.get g i noNode))) l).
Proof.
  induction 1 as [|a t Hnotin Hnd IH]; intros acc HX HY; simpl.
  - repeat split; auto; try tauto; simpl; lra.
  - specialize (IH (projStep g acc a)).
    assert (HX' : forall i, In i t ->
              (0 <= i < Z.of_nat (length (projX (projStep g acc a))))%Z).
    { intros i Hi. simpl. rewrite set_length. apply HX. now right. }
    assert (HY' : forall i, In i t ->
              (0 <= i < Z.of_nat (length (projY (projStep g acc a))))%Z).
    { intros i Hi. simpl. rewrite set_length. apply HY. now right. }
    destruct (IH HX' HY') as [Hin [Hout [HlX [HlY [Hs Hc]]]]].
    repeat split.
    + destruct H as [<- | Hi].
      * destruct (Hout a Hnotin) as [E _]; [apply HX; now left|].
        rewrite E. simpl. apply get_set_same. apply HX. now left.
      * apply (Hin i Hi).
    + destruct H as [<- | Hi].
      * destruct (Hout a Hnotin) as [_ E]; [apply HX; now left|].
        rewrite E. simpl. apply get_set_same. apply HY. now left.
      * apply (Hin i Hi).
    + destruct (Hout i) as [E _]; [tauto | assumption |].
      rewrite E. simpl. apply get_set_other; [|assumption].
      intros ->. apply H. now left.
    + destruct (Hout i) as [_ E]; [tauto | assumption |].
      rewrite E. simpl. apply get_set_other; [|assumption].
      intros ->. apply H. now left.
    + rewrite HlX. simpl. apply set_length.
    + rewrite HlY. simpl. apply set_length.
    + rewrite Hs. simpl. lra.
    + rewrite Hc. simpl. lra.
Qed.

(** The projections read back by the second loop, and the two sums kept
    for the metrics. *)
Lemma projectionPass_spec (g : list GridNode) :
  (forall i, inRange i ->
     JS.get (projX (projectionPass g)) i 0
       = fround (r (JS.get g i noNode) * cos (theta (JS.get g i noNode))) /\
     JS.get (projY (projectionPass g)) i 0
       = fround (r (JS.get g i noNode) * sin (theta (JS.get g i noNode)))) /\
  sinSum (projectionPass g)
    = rsum (map (fun i => sin (theta (JS.get g i noNode)))
                (JS.range TOTAL_NODES)) /\
  cosSum (projectionPass g)
    = rsum (map (fun i => cos (theta (JS.get g i noNode)))
                (JS.range TOTAL_NODES)).
Proof.
  unfold projectionPass.
  pose proof (projection_fold g (JS.range TOTAL_NODES) (range_NoDup _)
                (mkProjection (repeat 0 (Z.to_nat TOTAL_NODES))
                              (repeat 0 (Z.to_nat TOTAL_NODES)) 0 0)) as H.
  cbn [projX projY sinSum cosSum] in H. rewrite repeat_length in H.
  destruct H as [Hin [_ [_ [_ [Hs Hc]]]]].
  - intros i Hi. apply range_In in Hi. lia.
  - intros i Hi. apply range_In in Hi. lia.
  - split; [|split].
    + intros i Hi. apply Hin. now apply range_In.
    + rewrite Hs. lra.
    + rewrite Hc. lra.
Qed.

(* ------------------------------------------------------------------ *)
(** ** The metrics sample of a tick *)

Lemma TOTAL_NODES_pos : (0 < TOTAL_NODES)%Z.
Proof. rewrite TOTAL_NODES_val. lia. Qed.

Lemma IZR_TOTAL_NODES_pos : 0 < IZR TOTAL_NODES.
Proof. apply IZR_lt. apply TOTAL_NODES_pos. Qed.

Lemma INR_TOTAL_NODES : INR (Z.to_nat TOTAL_NODES) = IZR TOTAL_NODES.
Proof.
  rewrite INR_IZR_INZ, Z2Nat.id; [reflexivity|].
  pose proof TOTAL_NODES_pos. lia.
Qed.

(** The sample appended by a tick: coherence from the two sums of the
    projection pass over the grid before the tick, entropy from the
    histogram of the grid now held by [gridRef]. *)
Lemma updatePhysics_metrics config st s :
  metricsRef (fst (updatePhysics config st s)) =
  JS.slice_last 100 (metricsRef st) ++
  [mkMetrics
     (sqrt ((sinSum (projectionPass (gridRef st)) / IZR TOTAL_NODES) ^ 2
            + (cosSum (projectionPass (gridRef st)) / IZR TOTAL_NODES) ^ 2))
     (entropyOf (histogram (gridRef (fst (updatePhysics config st s))))
      / ln 36)
     (stepRef st + 1)].
Proof.
  unfold updatePhysics, bind, ret. destruct (mapM _ _ s) as [ng s']. reflexivity.
Qed.

Lemma updatePhysics_step config st s :
  stepRef (fst (updatePhysics config st s)) = (stepRef st + 1)%Z.
Proof.
  unfold updatePhysics, bind, ret. destruct (mapM _ _ s) as [ng s']. reflexivity.
Qed.

Lemma rsum_const {A : Type} (c : R) (l : list A) :
  rsum (map (fun _ => c) l) = INR (length l) * c.
Proof.
  induction l as [|a t IH]; [simpl; lra|].
  cbn [map rsum fold_right length]. fold (rsum (map (fun _ : A => c) t)).
  rewrite IH, S_INR. lra.
Qed.

Lemma uniformGrid_get (n : GridNode) (i : Z) :
  inRange i -> JS.get (uniformGrid n) i noNode = n.
Proof.
  intros Hi. unfold uniformGrid. apply get_repeat. unfold inRange in Hi. lia.
Qed.

(* ------------------------------------------------------------------ *)
(** ** Ticks without noise and without coupling *)

(** Without noise the value stored for a node ignores the draws. *)
Lemma updateNode_noise0 config g X Y i s s' :
  noise config = 0 ->
  fst (updateNode config g X Y i s) = fst (updateNode config g X Y i s').
Proof.
  intros Hn. unfold updateNode.
  destruct (isTitan (JS.get g i noNode)); [reflexivity|].
  destruct (neighborSums _ _ _ _ _ _ _) as [[dX dY] pp].
  unfold bind, Math_random, ret; simpl. rewrite Hn, !Rmult_0_r. reflexivity.
Qed.

(** Without noise and coupling the value stored for a node depends on
    that node and on its own projection only. *)
Lemma updateNode_solo config g X Y i s g' X' Y' i' s' :
  coupling config = 0 -> noise config = 0 ->
  JS.get g i noNode = JS.get g' i' noNode ->
  JS.get X i 0 = JS.get X' i' 0 ->
  JS.get Y i 0 = JS.get Y' i' 0 ->
  fst (updateNode config g X Y i s) = fst (updateNode config g' X' Y' i' s').
Proof.
  intros Hc Hn Hg HX HY. unfold updateNode. rewrite Hg, HX, HY.
  destruct (isTitan (JS.get g' i' noNode)); [reflexivity|].
  destruct (neighborSums g _ _ _ _ _ _) as [[dX dY] pp].
  destruct (neighborSums g' _ _ _ _ _ _) as [[dX' dY'] pp'].
  unfold bind, Math_random, ret; simpl.
  rewrite Hc, Hn, !Rmult_0_r, !Rmult_0_l. reflexivity.
Qed.

Lemma mapM_indep {A B : Type} (f : A -> Rand B) (l : list A) :
  (forall a s s', fst (f a s) = fst (f a s')) ->
  forall s s', fst (mapM f l s) = fst (mapM f l s').
Proof.
  intros Hf s s'.
  rewrite (mapM_pure f (fun a => fst (f a s)) l) by (intros; apply Hf).
  rewrite (mapM_pure f (fun a => fst (f a s)) l) by (intros; apply Hf).
  reflexivity.
Qed.

Lemma updatePhysics_noise0 config st s s' :
  noise config = 0 ->
  fst (updatePhysics config st s) = fst (updatePhysics config st s').
Proof.
  intros Hn.
  pose proof (mapM_indep
                (updateNode config (gridRef st)
                   (projX (projectionPass (gridRef st)))
                   (projY (projectionPass (gridRef st))))
                (JS.range TOTAL_NODES)
                (fun a s1 s2 => updateNode_noise0 _ _ _ _ a s1 s2 Hn) s s') as H.
  unfold updatePhysics, bind, ret.
  destruct (mapM _ _ s) as [ng s1]. destruct (mapM _ _ s') as [ng' s1'].
  simpl in H. subst ng'. reflexivity.
Qed.

(** C6.  With noise = 0 the trajectory does not depend on the random
    draws: two runs of any number of ticks from the same state (grid,
    history and step counter) under the same configuration end in the
    same state, whatever the two streams of draws are; a tick is a
    function of the grid, the configuration and the step counter. *)
Theorem noiseless_ticks_deterministic (n : nat) (config : SimulationConfig)
    (st : SimState) (s1 s2 : Rng) :
  noise config = 0 ->
  fst (runTicks n config st s1) = fst (runTicks n config st s2).
Proof.
  intros Hn. revert st s1 s2.
  induction n as [|n IH]; intros st s1 s2; [reflexivity|].
  simpl. unfold bind.
  pose proof (updatePhysics_noise0 config st s1 s2 Hn) as H.
  destruct (updatePhysics config st s1) as [st1 s1'].
  destruct (updatePhysics config st s2) as [st2 s2'].
  simpl in H. subst st2. apply IH.
Qed.

(* ------------------------------------------------------------------ *)
(** ** Scenario A *)

(** C7.  From a grid whose nodes are all the node of scenario A
    (theta = 0, r = 0.7071, alpha = 0.1, omega = 1.0, neither Titan nor
    Spark), under coupling = 0 and noise = 0, one tick leaves all nodes
    mutually identical, and the coherence recorded for the tick is 1. *)
Theorem scenarioA (config : SimulationConfig) (st : SimState) (s : Rng) :
  coupling config = 0 -> noise config = 0 ->
  gridRef st = uniformGrid uniformNode ->
  let st' := fst (updatePhysics config st s) in
  (forall i j, inRange i -> inRange j ->
     JS.get (gridRef st') i noNode = JS.get (gridRef st') j noNode) /\
  exists m, metricsRef st' = JS.slice_last 100 (metricsRef st) ++ [m] /\
            coherence m = 1.
Proof.
  intros Hc Hn Hg st'. split.
  - intros i j Hi Hj. subst st'.
    destruct (updatePhysics_node (fun _ => True) config st s i) as [si [_ Ei]];
      auto.
    destruct (updatePhysics_node (fun _ => True) config st s j) as [sj [_ Ej]];
      auto.
    rewrite Ei, Ej.
    destruct (projectionPass_spec (gridRef st)) as [Hp _].
    destruct (Hp i Hi) as [HXi HYi]. destruct (Hp j Hj) as [HXj HYj].
    apply updateNode_solo; try assumption.
    + rewrite Hg, !uniformGrid_get by assumption. reflexivity.
    + rewrite HXi, HXj, Hg, !uniformGrid_get by assumption. reflexivity.
    + rewrite HYi, HYj, Hg, !uniformGrid_get by assumption. reflexivity.
  - eexists. split; [apply updatePhysics_metrics|]. cbn [coherence].
    destruct (projectionPass_spec (gridRef st)) as [_ [Hs Hcos]].
    rewrite Hs, Hcos, Hg.
    rewrite (map_ext_in _ (fun _ => 0)), (map_ext_in (fun i => cos _) (fun _ => 1)).
    + rewrite !rsum_const, range_length, INR_TOTAL_NODES.
      pose proof IZR_TOTAL_NODES_pos as Hpos.
      replace ((IZR TOTAL_NODES * 0 / IZR TOTAL_NODES) ^ 2 +
               (IZR TOTAL_NODES * 1 / IZR TOTAL_NODES) ^ 2) with 1
        by (field; lra).
      apply sqrt_1.
    + intros a Ha. apply range_In in Ha. rewrite uniformGrid_get by assumption.
      apply cos_0.
    + intros a Ha. apply range_In in Ha. rewrite uniformGrid_get by assumption.
      apply sin_0.
Qed.

(* ------------------------------------------------------------------ *)
(** ** Invariants of the reachable states *)

Lemma Forall_get {A : Type} (P : A -> Prop) (a : list A) (i : Z) (d : A) :
  Forall P a -> P d -> P (JS.get a i d).
Proof.
  intros Ha Hd. unfold JS.get. destruct (i <? 0)%Z; [assumption|].
  destruct (Nat.lt_ge_cases (Z.to_nat i) (length a)) as [Hlt | Hge].
  - rewrite Forall_forall in Ha. apply Ha. now apply nth_In.
  - now rewrite nth_overflow.
Qed.

Lemma Forall_set_nat {A : Type} (P : A -> Prop) (a : list A) (i : nat) (v : A) :
  Forall P a -> P v -> Forall P (JS.set_nat a i v).
Proof.
  intros Ha Hv. revert i. induction Ha as [|h t Hh Ht IH]; intros [|i]; simpl;
    constructor; auto.
Qed.

Lemma Forall_set {A : Type} (P : A -> Prop) (a : list A) (i : Z) (v : A) :
  Forall P a -> P v -> Forall P (JS.set a i v).
Proof.
  intros Ha Hv. unfold JS.set. destruct (i <? 0)%Z; [assumption|].
  now apply Forall_set_nat.
Qed.

Lemma get_Forall {A : Type} (P : A -> Prop) (a : list A) (d : A) (i : Z) :
  Forall P a -> (0 <= i < Z.of_nat (length a))%Z -> P (JS.get a i d).
Proof.
  intros Ha Hi. rewrite get_nth by lia. rewrite Forall_forall in Ha.
  apply Ha, nth_In. lia.
Qed.

Lemma mapM_Forall {A B : Type} (P : B -> Prop) (f : A -> Rand B) (l : list A) :
  (forall a s, P (fst (f a s))) -> forall s, Forall P (fst (mapM f l s)).
Proof.
  intros Hf. induction l as [|a t IH]; intros s; simpl; [constructor|].
  unfold bind. pose proof (Hf a s) as Ha. destruct (f a s) as [b s1].
  specialize (IH s1). destruct (mapM f t s1) as [bs s2]. simpl in *.
  now constructor.
Qed.

Lemma foldM_inv {A B : Type} (I : B -> Prop) (f : B -> A -> Rand B)
    (l : list A) :
  (forall b a s, I b -> I (fst (f b a s))) ->
  forall b s, I b -> I (fst (foldM f l b s)).
Proof.
  intros Hf. induction l as [|a t IH]; intros b s Hb; simpl; [assumption|].
  unfold bind. pose proof (Hf b a s Hb) as Hb1. destruct (f b a s) as [b1 s1].
  now apply IH.
Qed.

Lemma titanOk_noNode : titanOk noNode.
Proof. intros H. discriminate H. Qed.

Lemma gridInv_set (g : list GridNode) (i : Z) (n : GridNode) :
  gridInv g -> titanOk n -> gridInv (JS.set g i n).
Proof.
  intros [Hl Hf] Hn. split; [now rewrite set_length | now apply Forall_set].
Qed.

Lemma gridInv_get (g : list GridNode) (i : Z) :
  gridInv g -> titanOk (JS.get g i noNode).
Proof. intros [_ Hf]. apply Forall_get; [assumption | apply titanOk_noNode]. Qed.

Lemma initNode_titanOk (s : Rng) : titanOk (fst (initNode s)).
Proof.
  unfold initNode, bind, Math_random, ret; simpl.
  destruct (JS.ltb (s 1%nat) 0.01) eqn:Ht; simpl.
  - intros _. split; [cbn; lra | reflexivity].
  - destruct (JS.ltb _ 0.05); simpl; intros H; discriminate H.
Qed.

Lemma initState_inv (s : Rng) : gridInv (gridRef (fst (initState s))).
Proof.
  unfold initState, bind, ret, initGrid.
  pose proof (mapM_length (fun _ : Z => initNode) (JS.range TOTAL_NODES) s) as Hl.
  pose proof (mapM_Forall titanOk (fun _ : Z => initNode) (JS.range TOTAL_NODES)
                (fun _ s0 => initNode_titanOk s0) s) as Hf.
  destruct (mapM _ _ s) as [g s']. simpl in *.
  split; [now rewrite Hl, range_length | assumption].
Qed.

Lemma updateNode_titanOk config g X Y i s :
  titanOk (JS.get g i noNode) -> titanOk (fst (updateNode config g X Y i s)).
Proof.
  intros Hok. destruct (isTitan (JS.get g i noNode)) eqn:Ht.
  - rewrite updateNode_titan by assumption. exact Hok.
  - destruct (updateNode_free config g X Y i s Ht) as [_ [_ [_ [Hf _]]]].
    intros H. rewrite Hf in H. discriminate H.
Qed.

Lemma updatePhysics_inv config st s :
  gridInv (gridRef st) -> gridInv (gridRef (fst (updatePhysics config st s))).
Proof.
  intros Hg. split; [apply updatePhysics_length|].
  rewrite updatePhysics_grid. apply mapM_Forall.
  intros a s0. apply updateNode_titanOk. now apply gridInv_get.
Qed.

Lemma injectCell_inv params cx cy g y x s :
  gridInv g -> gridInv (fst (injectCell params cx cy g y x s)).
Proof.
  intros Hg. unfold injectCell.
  destruct (Rle_dec _ _); [|exact Hg].
  pose proof (gridInv_get g (y * GRID_SIZE + x) Hg) as Hn.
  set (n := JS.get g (y * GRID_SIZE + x)%Z noNode) in *.
  assert (Hth : forall v, titanOk (set_theta n v)) by (intros v; exact Hn).
  destruct (pattern_eqb _ unity).
  { simpl. apply gridInv_set; [assumption|]. cbn [set_alpha set_r set_theta isSpark isTitan].
    destruct (isSpark n || negb (isTitan n))%bool eqn:E.
    - intros Ht. cbn in Ht. rewrite Ht in E. simpl in E.
      rewrite orb_false_r in E. destruct (Hn Ht) as [_ Hsp].
      rewrite Hsp in E. discriminate E.
    - intros Ht. cbn in Ht. cbn. exact (Hn Ht). }
  destruct (pattern_eqb _ pulse); [simpl; apply gridInv_set; auto|].
  destruct (pattern_eqb _ spiral); [simpl; apply gridInv_set; auto|].
  destruct (pattern_eqb _ chaos).
  { unfold bind, Math_random, ret; simpl. apply gridInv_set; auto. }
  destruct (pattern_eqb _ stabilize); simpl; apply gridInv_set; auto.
Qed.

Lemma elysiumStep_inv cx cy g i :
  gridInv g -> gridInv (elysiumStep cx cy g i).
Proof.
  intros Hg. unfold elysiumStep. destruct (spiralCell cx cy i) as [x y].
  destruct (inGrid x y); [|exact Hg].
  apply gridInv_set; [assumption|]. intros _. split; [cbn; lra | reflexivity].
Qed.

Lemma fold_left_inv {A B : Type} (I : B -> Prop) (f : B -> A -> B) (l : list A) :
  (forall b a, I b -> I (f b a)) -> forall b, I b -> I (fold_left f l b).
Proof.
  intros Hf. induction l as [|a t IH]; intros b Hb; simpl; auto.
Qed.

Lemma injectPattern_inv params st s :
  gridInv (gridRef st) -> gridInv (gridRef (fst (injectPattern params st s))).
Proof.
  intros Hg. unfold injectPattern.
  destruct (pattern_eqb (pattern params) elysium).
  - unfold ret. cbn [fst gridRef]. apply fold_left_inv; [|assumption].
    intros b a. apply elysiumStep_inv.
  - unfold bind, ret.
    pose proof (foldM_inv gridInv
      (fun g y => foldM (fun g0 x =>
          injectCell params (clampTarget (targetX params))
                     (clampTarget (targetY params)) g0 y x)
          (JS.range GRID_SIZE) g) (JS.range GRID_SIZE)) as H.
    specialize (H (fun b a s0 Hb =>
      foldM_inv gridInv _ (JS.range GRID_SIZE)
        (fun b' a' s' Hb' => injectCell_inv params _ _ b' a a' s' Hb') b s0 Hb)
      (gridRef st) s Hg).
    destruct (foldM _ _ (gridRef st) s) as [g' s']. exact H.
Qed.

Lemma gatewayStep_inv cx cy acc i s :
  gridInv (snd acc) -> gridInv (snd (fst (gatewayStep cx cy acc i s))).
Proof.
  intros Hg. unfold gatewayStep. destruct acc as [manifest g].
  cbn [snd] in Hg. unfold bind, Math_random. cbv beta iota.
  destruct (spiralCell (IZR cx) (IZR cy) i) as [x y].
  destruct (inGrid x y); unfold ret; cbn [fst snd]; [|exact Hg].
  apply gridInv_set; [assumption|]. intros _. split; [cbn; lra | reflexivity].
Qed.

Lemma activateElysiumGateway_inv st s :
  gridInv (gridRef st) ->
  gridInv (gridRef (snd (fst (activateElysiumGateway st s)))).
Proof.
  intros Hg. unfold activateElysiumGateway, bind, ret.
  pose proof (foldM_inv (fun acc => gridInv (snd acc))
                (gatewayStep (GRID_SIZE / 2) (GRID_SIZE / 2)) (JS.range 50)
                (fun b a s0 Hb => gatewayStep_inv _ _ b a s0 Hb)) as H.
  match goal with |- context [foldM ?f ?l ?b s] =>
    specialize (H b s Hg); destruct (foldM f l b s) as [[m g'] s'] end.
  exact H.
Qed.

(** Every reachable grid has [TOTAL_NODES] cells and frozen anchors. *)
Lemma reachable_inv (st : SimState) : reachable st -> gridInv (gridRef st).
Proof.
  induction 1.
  - apply initState_inv.
  - now apply updatePhysics_inv.
  - now apply injectPattern_inv.
  - now apply activateElysiumGateway_inv.
Qed.

(* ------------------------------------------------------------------ *)
(** ** Anchors *)

(** C4.  A tick leaves [omega], [r], [alpha], [isTitan] and [isSpark] of
    a Titan node unchanged and moves its phase by exactly
    [omega * dt * 0.1]; in a reachable state every Titan has
    [omega = 0], so the phase of a Titan is fixed across ticks. *)
Theorem titan_frame (config : SimulationConfig) (st : SimState) (s : Rng)
    (i : Z) :
  inRange i ->
  isTitan (JS.get (gridRef st) i noNode) = true ->
  let n := JS.get (gridRef st) i noNode in
  let n' := JS.get (gridRef (fst (updatePhysics config st s))) i noNode in
  (omega n' = omega n /\ r n' = r n /\ alpha n' = alpha n /\
   isTitan n' = true /\ isSpark n' = isSpark n /\
   theta n' = theta n + omega n * dt config * 0.1) /\
  (reachable st -> omega n = 0 /\ omega n' = 0 /\ theta n' = theta n).
Proof.
  intros Hi Ht n n'.
  assert (En : n' = set_theta n (theta n + omega n * dt config * 0.1)).
  { subst n n'.
    destruct (updatePhysics_node (fun _ => True) config st s i) as [s' [_ E]];
      auto.
    rewrite E. now apply updateNode_titan. }
  split.
  - rewrite En. cbn. repeat split; auto.
  - intros Hr. pose proof (reachable_inv st Hr) as Hinv.
    destruct (gridInv_get _ i Hinv Ht) as [Hom _]. fold n in Hom.
    rewrite En. cbn. rewrite Hom. repeat split; lra.
Qed.

(* ------------------------------------------------------------------ *)
(** ** The injection loops, cell by cell *)

Lemma GRID_SIZE_pos : (0 < GRID_SIZE)%Z.
Proof. rewrite GRID_SIZE_val. lia. Qed.

Lemma set_nat_get_id {A : Type} (a : list A) (i : nat) (d : A) :
  JS.set_nat a i (nth i a d) = a.
Proof.
  revert i. induction a as [|h t IH]; intros [|i]; simpl; auto.
  now rewrite IH.
Qed.

Lemma set_get_id {A : Type} (a : list A) (i : Z) (d : A) :
  JS.set a i (JS.get a i d) = a.
Proof.
  unfold JS.set, JS.get. destruct (i <? 0)%Z; [reflexivity|].
  apply set_nat_get_id.
Qed.

Lemma foldM_app {A B : Type} (f : B -> A -> Rand B) (l1 l2 : list A) (b : B)
    (s : Rng) :
  foldM f (l1 ++ l2) b s =
  foldM f l2 (fst (foldM f l1 b s)) (snd (foldM f l1 b s)).
Proof.
  revert b s. induction l1 as [|a t IH]; intros b s; simpl; [reflexivity|].
  unfold bind. destruct (f b a s) as [b1 s1]. apply IH.
Qed.

Lemma foldM_map {A B C : Type} (f : B -> A -> Rand B) (g : C -> A)
    (l : list C) (b : B) (s : Rng) :
  foldM f (map g l) b s = foldM (fun b c => f b (g c)) l b s.
Proof.
  revert b s. induction l as [|a t IH]; intros b s; simpl; [reflexivity|].
  unfold bind. destruct (f b (g a) s) as [b1 s1]. apply IH.
Qed.

(** Two nested loops visit the cells of the product, row by row. *)
Lemma foldM_nested {A B C : Type} (f : B -> A -> C -> Rand B)
    (ly : list A) (lx : list C) (b : B) (s : Rng) :
  foldM (fun b y => foldM (fun b x => f b y x) lx b) ly b s =
  foldM (fun b c => f b (fst c) (snd c)) (list_prod ly lx) b s.
Proof.
  revert b s. induction ly as [|y t IH]; intros b s; [reflexivity|].
  cbn [list_prod foldM]. rewrite foldM_app, foldM_map. cbn [fst snd].
  unfold bind.
  destruct (foldM (fun b0 x => f b0 y x) lx b s) as [b1 s1]. cbn [fst snd].
  apply IH.
Qed.

Lemma NoDup_list_prod {A B : Type} (l1 : list A) (l2 : list B) :
  NoDup l1 -> NoDup l2 -> NoDup (list_prod l1 l2).
Proof.
  intros H1 H2. induction H1 as [|a t Hnotin Hnd IH]; [constructor|].
  cbn [list_prod]. apply NoDup_app.
  - apply Injective_map_NoDup; [|assumption].
    intros u v Huv. now inversion Huv.
  - assumption.
  - intros [a' b'] Hin Hin'. apply in_map_iff in Hin.
    destruct Hin as [b0 [E _]]. inversion E; subst.
    apply in_prod_iff in Hin'. tauto.
Qed.

Lemma cells_In (y x : Z) :
  In (y, x) cells <-> (0 <= y < GRID_SIZE)%Z /\ (0 <= x < GRID_SIZE)%Z.
Proof. unfold cells. now rewrite in_prod_iff, !range_In. Qed.

Lemma cellIdx_inj (c c' : Z * Z) :
  In c cells -> In c' cells -> cellIdx c = cellIdx c' -> c = c'.
Proof.
  destruct c as [y x], c' as [y' x']. rewrite !cells_In. unfold cellIdx.
  cbn [fst snd]. intros [Hy Hx] [Hy' Hx'] E.
  assert (y = y') by nia. subst y'. f_equal. lia.
Qed.

Lemma cells_NoDup_idx : NoDup (map cellIdx cells).
Proof.
  apply NoDup_map_NoDup_ForallPairs.
  - intros c c' Hc Hc'. now apply cellIdx_inj.
  - apply NoDup_list_prod; apply range_NoDup.
Qed.

Lemma cellIdx_range (c : Z * Z) : In c cells -> inRange (cellIdx c).
Proof.
  destruct c as [y x]. rewrite cells_In. unfold cellIdx, inRange.
  rewrite TOTAL_NODES_grid. cbn [fst snd]. nia.
Qed.

(** Every lattice index is the index of a cell. *)
Lemma cell_of_index (i : Z) :
  inRange i -> exists c, In c cells /\ cellIdx c = i.
Proof.
  unfold inRange. rewrite TOTAL_NODES_grid. intros Hi.
  pose proof GRID_SIZE_pos as HG.
  exists ((i / GRID_SIZE)%Z, (i mod GRID_SIZE)%Z). split.
  - apply cells_In. split.
    + split; [apply Z.div_pos; lia | apply Z.div_lt_upper_bound; lia].
    + apply Z.mod_pos_bound. lia.
  - unfold cellIdx. cbn [fst snd].
    rewrite (Z.div_mod i GRID_SIZE) at 3 by lia. lia.
Qed.

(** The loop body writes the cell's own index, or nothing. *)
Lemma injectCell_set params cx cy g y x s :
  injectCell params cx cy g y x s =
  (JS.set g (cellIdx (y, x))
     (fst (injectNode params cx cy (JS.get g (cellIdx (y, x)) noNode) (y, x) s)),
   snd (injectNode params cx cy (JS.get g (cellIdx (y, x)) noNode) (y, x) s)).
Proof.
  unfold injectCell, injectNode, cellIdx. cbn [fst snd].
  destruct (Rle_dec _ _).
  - destruct (pattern params) eqn:E; cbn [pattern_eqb]; reflexivity.
  - unfold ret. cbn [fst snd]. now rewrite set_get_id.
Qed.

Lemma injectNode_rng_ok params cx cy n c s :
  rng_ok s -> rng_ok (snd (injectNode params cx cy n c s)).
Proof.
  intros Hs. unfold injectNode. destruct c as [y x].
  destruct (Rle_dec _ _); [|exact Hs].
  destruct (pattern params); try exact Hs.
  unfold bind, Math_random, ret. cbn [fst snd]. now apply rng_ok_tail.
Qed.

(** A loop over distinct cells: each visited cell holds what the body
    made of its old node, every other cell is as before. *)
Lemma injectLoop_spec (Q : Rng -> Prop) params cx cy (l : list (Z * Z)) :
  (forall n c s, Q s -> Q (snd (injectNode params cx cy n c s))) ->
  NoDup (map cellIdx l) ->
  forall g s, Q s ->
  (forall c, In c l -> (0 <= cellIdx c < Z.of_nat (length g))%Z) ->
  let res := foldM (fun g c => injectCell params cx cy g (fst c) (snd c)) l g s in
  length (fst res) = length g /\ Q (snd res) /\
  (forall c, In c l -> exists s', Q s' /\
     JS.get (fst res) (cellIdx c) noNode =
     fst (injectNode params cx cy (JS.get g (cellIdx c) noNode) c s')) /\
  (forall j, (0 <= j)%Z -> ~ In j (map cellIdx l) ->
     JS.get (fst res) j noNode = JS.get g j noNode).
Proof.
  intros HQ. induction l as [|c t IH]; intros Hnd g s Hs Hr; cbn [foldM].
  - unfold ret. cbn [fst snd]. repeat split; auto. intros c [].
  - unfold bind. destruct c as [y x]. cbn [fst snd].
    rewrite injectCell_set.
    inversion Hnd as [|? ? Hnotin Hnd']; subst.
    set (n' := fst (injectNode params cx cy (JS.get g (cellIdx (y, x)) noNode) (y, x) s)).
    set (s1 := snd (injectNode params cx cy (JS.get g (cellIdx (y, x)) noNode) (y, x) s)).
    assert (Hs1 : Q s1) by (apply HQ; assumption).
    destruct (IH Hnd' (JS.set g (cellIdx (y, x)) n') s1 Hs1) as [Hl [Hq [Hin Hout]]].
    { intros c Hc. rewrite set_length. apply Hr. now right. }
    split; [now rewrite Hl, set_length|]. split; [assumption|]. split.
    + intros c [<- | Hc].
      * exists s. split; [assumption|].
        rewrite Hout; [|apply Hr; now left | assumption].
        apply get_set_same. apply Hr. now left.
      * destruct (Hin c Hc) as [s' [Hs' E]]. exists s'. split; [assumption|].
        rewrite E. f_equal. f_equal. apply get_set_other.
        -- intros E'. apply Hnotin. rewrite E'. now apply in_map.
        -- apply Hr. now right.
    + intros j Hj Hnj. rewrite Hout; [|assumption|].
      * apply get_set_other; [|assumption]. intros E. apply Hnj. left. exact E.
      * intros Hin'. apply Hnj. now right.
Qed.

(** The grid after an injection of a pattern other than elysium, cell by
    cell. *)
Lemma injectPattern_cell (Q : Rng -> Prop) params st s c :
  pattern params <> elysium ->
  (forall n c s, Q s ->
     Q (snd (injectNode params (clampTarget (targetX params))
               (clampTarget (targetY params)) n c s))) ->
  length (gridRef st) = Z.to_nat TOTAL_NODES ->
  Q s -> In c cells ->
  exists s', Q s' /\
    JS.get (gridRef (fst (injectPattern params st s))) (cellIdx c) noNode =
    fst (injectNode params (clampTarget (targetX params))
           (clampTarget (targetY params))
           (JS.get (gridRef st) (cellIdx c) noNode) c s').
Proof.
  intros Hp HQ Hlen Hs Hc. unfold injectPattern.
  destruct (pattern_eqb (pattern params) elysium) eqn:E.
  { destruct (pattern params); try discriminate E. congruence. }
  unfold bind. rewrite foldM_nested. fold cells.
  pose proof (injectLoop_spec Q params (clampTarget (targetX params))
                (clampTarget (targetY params)) cells HQ cells_NoDup_idx
                (gridRef st) s Hs) as H.
  destruct H as [_ [_ [Hin _]]].
  { intros c' Hc'. pose proof (cellIdx_range c' Hc') as Hr.
    unfold inRange in Hr. rewrite Hlen. lia. }
  destruct (Hin c Hc) as [s' [Hs' E']]. exists s'. split; [assumption|].
  destruct (foldM _ cells (gridRef st) s) as [g' s1]. exact E'.
Qed.

(* ------------------------------------------------------------------ *)
(** ** Scenario B: stabilize *)

Lemma clampTarget_range (t : R) : 0 <= clampTarget t <= IZR (GRID_SIZE - 1).
Proof.
  assert (0 <= IZR (GRID_SIZE - 1)).
  { apply IZR_le. pose proof GRID_SIZE_pos. lia. }
  unfold clampTarget, Rmax. destruct (Rle_dec t 0);
    unfold Rmin; destruct (Rle_dec _ _); lra.
Qed.

Lemma clampTarget_id (t : R) :
  0 <= t <= IZR (GRID_SIZE - 1) -> clampTarget t = t.
Proof.
  intros Ht. unfold clampTarget, Rmax. destruct (Rle_dec t 0);
    unfold Rmin; destruct (Rle_dec _ _); lra.
Qed.

Lemma sqrt_le_bound (a b : R) : 0 <= b -> a <= b * b -> sqrt a <= b.
Proof.
  intros Hb Hab. rewrite <- (sqrt_square b Hb). now apply sqrt_le_1_alt.
Qed.

Lemma sqrt_gt_bound (a b : R) : 0 <= b -> b * b < a -> b < sqrt a.
Proof.
  intros Hb Hab. rewrite <- (sqrt_square b Hb). now apply sqrt_lt_1_alt; split; [nra|].
Qed.

Lemma cell_coords (y x : Z) :
  In (y, x) cells ->
  0 <= IZR y <= IZR (GRID_SIZE - 1) /\ 0 <= IZR x <= IZR (GRID_SIZE - 1).
Proof.
  rewrite cells_In. intros [Hy Hx].
  split; split; apply IZR_le; lia.
Qed.

(** A radius of at least sqrt 2 * (GRID_SIZE - 1) covers the grid from
    any target. *)
Lemma covers_far (tx ty rad : R) :
  0 <= rad -> 2 * (IZR (GRID_SIZE - 1) * IZR (GRID_SIZE - 1)) <= rad * rad ->
  covers (clampTarget tx) (clampTarget ty) rad.
Proof.
  intros Hr Hrad y x Hc. destruct (cell_coords y x Hc) as [Hy Hx].
  pose proof (clampTarget_range tx). pose proof (clampTarget_range ty).
  apply sqrt_le_bound; [assumption|]. nra.
Qed.

(** From the centre cell a radius of [GRID_SIZE] covers the grid. *)
Lemma covers_centre : covers 36 36 72.
Proof.
  intros y x Hc. destruct (cell_coords y x Hc) as [Hy Hx].
  rewrite GRID_SIZE_val in Hy, Hx. simpl in Hy, Hx.
  apply sqrt_le_bound; [lra | nra].
Qed.

(** C8, as amended.  For every prior grid and every stabilize command
    with radius >= GRID_SIZE whose disc covers the grid, the target
    coordinates are clamped into [0, GRID_SIZE - 1] and after the
    injection every node has theta = 0 and r = TARGET_AMP = 0.7071. *)
Theorem stabilize_covering (params : InjectionParams) (st : SimState)
    (s : Rng) :
  pattern params = stabilize ->
  IZR GRID_SIZE <= radius params ->
  length (gridRef st) = Z.to_nat TOTAL_NODES ->
  covers (clampTarget (targetX params)) (clampTarget (targetY params))
         (radius params) ->
  (0 <= clampTarget (targetX params) <= IZR (GRID_SIZE - 1) /\
   0 <= clampTarget (targetY params) <= IZR (GRID_SIZE - 1)) /\
  forall i, inRange i ->
    theta (JS.get (gridRef (fst (injectPattern params st s))) i noNode) = 0 /\
    r (JS.get (gridRef (fst (injectPattern params st s))) i noNode) = 0.7071.
Proof.
  intros Hp _ Hlen Hcov. split; [split; apply clampTarget_range|].
  intros i Hi. destruct (cell_of_index i Hi) as [[y x] [Hc <-]].
  destruct (injectPattern_cell (fun _ => True) params st s (y, x)) as [s' [_ E]];
    auto.
  { rewrite Hp. discriminate. }
  rewrite E. unfold injectNode.
  destruct (Rle_dec _ _) as [Hd | Hd].
  - rewrite Hp. unfold ret. cbn. unfold TARGET_AMP. split; reflexivity.
  - exfalso. apply Hd. now apply Hcov.
Qed.

(* ------------------------------------------------------------------ *)
(** ** The histogram and the entropy *)

Lemma fold_left_map_arg {A B C : Type} (F : C -> B -> C) (g : A -> B)
    (l : list A) (c : C) :
  fold_left (fun c a => F c (g a)) l c = fold_left F (map g l) c.
Proof. revert c. induction l as [|a t IH]; intros c; simpl; auto. Qed.

Lemma phasesRead_phases (g : list GridNode) :
  length g = Z.to_nat TOTAL_NODES -> phasesRead g = phases g.
Proof.
  intros Hlen. unfold phasesRead, phases.
  transitivity (map theta (map (fun i => JS.get g i noNode)
                               (JS.range TOTAL_NODES))).
  - now rewrite map_map.
  - now rewrite map_get_range.
Qed.

Lemma phasesRead_length (g : list GridNode) :
  length (phasesRead g) = Z.to_nat TOTAL_NODES.
Proof. unfold phasesRead. now rewrite length_map, range_length. Qed.

Lemma binsIncr_length (bins : list Z) (k : Z) :
  length (binsIncr bins k) = length bins.
Proof.
  unfold binsIncr. destruct (_ && _)%bool; [apply set_length | reflexivity].
Qed.

Lemma binsIncr_get (bins : list Z) (k j : Z) :
  (0 <= j < Z.of_nat (length bins))%Z ->
  JS.get (binsIncr bins k) j 0%Z
  = (JS.get bins j 0 + (if (k =? j)%Z then 1 else 0))%Z.
Proof.
  intros Hj. unfold binsIncr.
  destruct (Z.leb_spec 0 k), (Z.ltb_spec k (Z.of_nat (length bins)));
    cbn [andb]; destruct (Z.eqb_spec k j); subst; try lia.
  - rewrite get_set_same by lia. reflexivity.
  - rewrite get_set_other by lia. lia.
Qed.

(** A negative phase is counted in none of the 36 bins. *)
Lemma binsIncr_outside (bins : list Z) (th : R) :
  th < 0 -> binsIncr bins (binIndex th) = bins.
Proof.
  intros Hth. pose proof two_PI_pos as Hpi.
  assert (Hneg : (binIndex th < 0)%Z).
  { unfold binIndex.
    assert (th / (2 * PI) * 36 < 0).
    { assert (0 < / (2 * PI)) by now apply Rinv_0_lt_compat.
      unfold Rdiv. nra. }
    pose proof (floor_neg _ H). lia. }
  unfold binsIncr.
  destruct (Z.leb_spec 0 (binIndex th)); [lia | reflexivity].
Qed.

Lemma binCount_cons (th : R) (ths : list R) (k : Z) :
  binCount (th :: ths) k
  = ((if (binIndex th =? k)%Z then 1 else 0) + binCount ths k)%Z.
Proof.
  unfold binCount. cbn [filter]. destruct (binIndex th =? k)%Z; cbn [length]; lia.
Qed.

Lemma binCount_nonneg (ths : list R) (k : Z) : (0 <= binCount ths k)%Z.
Proof. unfold binCount. lia. Qed.

Lemma histogram_fold (ths : list R) :
  forall bins,
  let res := fold_left (fun b th => binsIncr b (binIndex th)) ths bins in
  length res = length bins /\
  forall j, (0 <= j < Z.of_nat (length bins))%Z ->
    JS.get res j 0%Z = (JS.get bins j 0 + binCount ths j)%Z.
Proof.
  induction ths as [|th t IH]; intros bins; cbn [fold_left].
  - split; [reflexivity|]. intros j Hj. unfold binCount. simpl. lia.
  - destruct (IH (binsIncr bins (binIndex th))) as [Hl Hg].
    rewrite binsIncr_length in Hl, Hg. split; [assumption|].
    intros j Hj. rewrite (Hg j Hj), binsIncr_get, binCount_cons by assumption.
    lia.
Qed.

(** The histogram loop counts, bin by bin, the phases it reads. *)
Lemma histogram_spec (g : list GridNode) :
  histogram g = map (binCount (phasesRead g)) (JS.range 36).
Proof.
  unfold histogram.
  rewrite (fold_left_map_arg (fun b th => binsIncr b (binIndex th))
             (fun i => theta (JS.get g i noNode))).
  fold (phasesRead g).
  destruct (histogram_fold (phasesRead g) (repeat 0%Z 36)) as [Hl Hg].
  rewrite repeat_length in Hl, Hg.
  apply nth_ext with (d := 0%Z) (d' := 0%Z).
  - now rewrite Hl, length_map, range_length.
  - intros n Hn. rewrite Hl in Hn.
    specialize (Hg (Z.of_nat n) ltac:(lia)).
    rewrite get_nth, Nat2Z.id in Hg by lia. rewrite Hg.
    rewrite get_repeat by lia.
    rewrite nth_indep with (d' := binCount (phasesRead g) 0)
      by (rewrite length_map, range_length; lia).
    rewrite map_nth, range_nth by lia. reflexivity.
Qed.

Lemma entropyOf_fold (bins : list Z) (acc : R) :
  fold_left
    (fun entropy count =>
       if Rlt_dec 0 (IZR count / IZR TOTAL_NODES)
       then entropy - IZR count / IZR TOTAL_NODES
                      * ln (IZR count / IZR TOTAL_NODES)
       else entropy) bins acc
  = acc - rsum (map (fun count =>
                       if Rlt_dec 0 (IZR count / IZR TOTAL_NODES)
                       then IZR count / IZR TOTAL_NODES
                            * ln (IZR count / IZR TOTAL_NODES)
                       else 0) bins).
Proof.
  revert acc. induction bins as [|c t IH]; intros acc; cbn [fold_left map rsum fold_right].
  - lra.
  - rewrite IH. unfold rsum. destruct (Rlt_dec _ _); lra.
Qed.

Lemma rsum_ext_in {A : Type} (f g : A -> R) (l : list A) :
  (forall a, In a l -> f a = g a) -> rsum (map f l) = rsum (map g l).
Proof. intros H. f_equal. now apply map_ext_in. Qed.

(** The entropy loop computes the Shannon sum over the nonzero bins. *)
Lemma entropyOf_spec (ths : list R) :
  length ths = Z.to_nat TOTAL_NODES ->
  entropyOf (map (binCount ths) (JS.range 36)) / ln 36
  = normalizedEntropySpec ths.
Proof.
  intros Hlen. unfold entropyOf, normalizedEntropySpec.
  rewrite entropyOf_fold, map_map, Hlen, INR_TOTAL_NODES.
  rewrite Rminus_0_l. f_equal. f_equal.
  apply rsum_ext_in. intros k _. unfold shannonTerm.
  pose proof IZR_TOTAL_NODES_pos as HN. pose proof (binCount_nonneg ths k) as Hc.
  destruct (Z.eqb_spec (binCount ths k) 0) as [E | E].
  - rewrite E. destruct (Rlt_dec _ _) as [H | H]; [|reflexivity].
    unfold Rdiv in H. rewrite Rmult_0_l in H. lra.
  - destruct (Rlt_dec _ _) as [H | H]; [reflexivity|].
    exfalso. apply H. apply Rdiv_lt_0_compat; [|assumption].
    apply IZR_lt. lia.
Qed.

(* ------------------------------------------------------------------ *)
(** ** Bounds of the two metrics *)

Lemma rsum_cons (x : R) (l : list R) : rsum (x :: l) = x + rsum l.
Proof. reflexivity. Qed.

Lemma rsum_le {A : Type} (f g : A -> R) (l : list A) :
  (forall a, In a l -> f a <= g a) -> rsum (map f l) <= rsum (map g l).
Proof.
  induction l as [|a t IH]; intros H; cbn [map]; [unfold rsum; simpl; lra|].
  rewrite !rsum_cons.
  pose proof (H a (or_introl eq_refl)).
  pose proof (IH (fun a' Ha' => H a' (or_intror Ha'))). lra.
Qed.

Lemma rsum_nonneg {A : Type} (f : A -> R) (l : list A) :
  (forall a, In a l -> 0 <= f a) -> 0 <= rsum (map f l).
Proof.
  induction l as [|a t IH]; intros H; cbn [map]; [unfold rsum; simpl; lra|].
  rewrite rsum_cons.
  pose proof (H a (or_introl eq_refl)).
  pose proof (IH (fun a' Ha' => H a' (or_intror Ha'))). lra.
Qed.

Lemma rsum_elem_le {A : Type} (f : A -> R) (l : list A) (a : A) :
  (forall b, In b l -> 0 <= f b) -> In a l -> f a <= rsum (map f l).
Proof.
  induction l as [|b t IH]; intros H Hin; [destruct Hin|].
  destruct Hin as [<- | Hin]; cbn [map]; rewrite rsum_cons.
  - pose proof (rsum_nonneg f t (fun a' Ha' => H a' (or_intror Ha'))). lra.
  - pose proof (H b (or_introl eq_refl)).
    pose proof (IH (fun a' Ha' => H a' (or_intror Ha')) Hin). lra.
Qed.

Lemma rsum_affine {A : Type} (f : A -> R) (u v : R) (l : list A) :
  rsum (map (fun a => u + v * f a) l)
  = INR (length l) * u + v * rsum (map f l).
Proof.
  induction l as [|a t IH]; cbn [map length]; [unfold rsum; simpl; lra|].
  rewrite !rsum_cons, IH, S_INR. lra.
Qed.

(** The resultant of [n] unit vectors is no longer than [n]. *)
Lemma resultant_bound (ths : list R) :
  (rsum (map sin ths)) ^ 2 + (rsum (map cos ths)) ^ 2
  <= INR (length ths) ^ 2.
Proof.
  induction ths as [|a t IH]; cbn [map length].
  - unfold rsum. simpl. lra.
  - rewrite !rsum_cons, S_INR.
    set (S_ := rsum (map sin t)) in *. set (C_ := rsum (map cos t)) in *.
    pose proof (pos_INR (length t)) as Hn. set (n := INR (length t)) in *.
    pose proof (sin2_cos2 a) as H1. unfold Rsqr in H1.
    assert (Hx : S_ * sin a + C_ * cos a <= n).
    { destruct (Rle_dec (S_ * sin a + C_ * cos a) n) as [|Hgt]; [assumption|].
      exfalso. apply Rnot_le_lt in Hgt.
      assert ((S_ * sin a + C_ * cos a) ^ 2 <= S_ ^ 2 + C_ ^ 2).
      { replace (S_ ^ 2 + C_ ^ 2)
          with ((S_ ^ 2 + C_ ^ 2) * (sin a * sin a + cos a * cos a))
          by (rewrite H1; ring).
        pose proof (pow2_ge_0 (S_ * cos a - C_ * sin a)). nra. }
      nra. }
    nra.
Qed.

Lemma coherence_bounds (ths : list R) (N : R) :
  N = INR (length ths) -> 0 < N ->
  0 <= sqrt ((rsum (map sin ths) / N) ^ 2 + (rsum (map cos ths) / N) ^ 2) <= 1.
Proof.
  intros HN Hpos. split; [apply sqrt_pos|].
  apply sqrt_le_bound; [lra|].
  pose proof (resultant_bound ths) as H. rewrite <- HN in H.
  replace ((rsum (map sin ths) / N) ^ 2 + (rsum (map cos ths) / N) ^ 2)
    with (((rsum (map sin ths)) ^ 2 + (rsum (map cos ths)) ^ 2) / N ^ 2)
    by (field; lra).
  apply Rmult_le_reg_r with (N ^ 2); [nra|].
  unfold Rdiv. rewrite Rmult_assoc, Rinv_l by nra. lra.
Qed.

Lemma ln_le_minus1 (x : R) : 0 < x -> ln x <= x - 1.
Proof.
  intros Hx. pose proof (exp_ineq1_le (ln x)) as H.
  rewrite exp_ln in H by assumption. lra.
Qed.

Lemma ln_36_gt_1 : 1 < ln 36.
Proof.
  pose proof ln_lt_2 as H2.
  assert (ln 4 = ln 2 + ln 2).
  { replace 4 with (2 * 2) by lra. apply ln_mult; lra. }
  assert (ln 4 < ln 36) by (apply ln_increasing; lra).
  lra.
Qed.

Lemma shannonTerm_nonpos (N : R) (c : Z) :
  0 < N -> (0 <= c)%Z -> IZR c <= N -> shannonTerm N c <= 0.
Proof.
  intros HN Hc Hle. unfold shannonTerm.
  destruct (Z.eqb_spec c 0) as [|Hne]; [lra|].
  assert (0 < IZR c) by (apply IZR_lt; lia).
  assert (Hp : 0 < IZR c / N) by now apply Rdiv_lt_0_compat.
  assert (Hp1 : IZR c / N <= 1).
  { apply Rmult_le_reg_r with N; [assumption|].
    unfold Rdiv. rewrite Rmult_assoc, Rinv_l by lra. lra. }
  pose proof (ln_le_minus1 _ Hp). nra.
Qed.

Lemma shannonTerm_lower (N : R) (c : Z) :
  0 < N -> (0 <= c)%Z ->
  - shannonTerm N c <= / 36 + (ln 36 - 1) * (IZR c / N).
Proof.
  intros HN Hc. unfold shannonTerm.
  destruct (Z.eqb_spec c 0) as [-> | Hne].
  - unfold Rdiv. rewrite Rmult_0_l. lra.
  - assert (0 < IZR c) by (apply IZR_lt; lia).
    assert (Hp : 0 < IZR c / N) by now apply Rdiv_lt_0_compat.
    set (p := IZR c / N) in *.
    assert (Hq : 0 < / (36 * p)) by (apply Rinv_0_lt_compat; lra).
    pose proof (ln_le_minus1 _ Hq) as H1.
    rewrite ln_Rinv, ln_mult in H1 by lra.
    assert (p * / (36 * p) = / 36) by (field; lra).
    nra.
Qed.

Lemma indicator_sum (j : Z) (l : list Z) :
  NoDup l ->
  0 <= rsum (map (fun k => IZR (if (j =? k)%Z then 1 else 0)) l) <= 1 /\
  (~ In j l -> rsum (map (fun k => IZR (if (j =? k)%Z then 1 else 0)) l) = 0).
Proof.
  induction 1 as [|a t Hnotin Hnd IH]; cbn [map].
  - unfold rsum. simpl. split; [lra | reflexivity].
  - rewrite rsum_cons. destruct IH as [Hb Hz].
    destruct (Z.eqb_spec j a) as [-> | Hne].
    + rewrite (Hz Hnotin). split; [lra|]. intros Hn. exfalso. apply Hn. now left.
    + split; [lra|]. intros Hn. rewrite Hz; [lra|]. intros Hin. apply Hn. now right.
Qed.

(** No phase is counted in two bins. *)
Lemma binCount_total (ths : list R) (l : list Z) :
  NoDup l ->
  rsum (map (fun k => IZR (binCount ths k)) l) <= INR (length ths).
Proof.
  intros Hnd. induction ths as [|th t IH]; cbn [length].
  - rewrite (rsum_ext_in _ (fun _ => 0)).
    + rewrite rsum_const. simpl. lra.
    + intros k _. reflexivity.
  - rewrite S_INR.
    rewrite (rsum_ext_in _
               (fun k => IZR (binCount t k)
                         + 1 * IZR (if (binIndex th =? k)%Z then 1 else 0))).
    + destruct (indicator_sum (binIndex th) l Hnd) as [[_ H1] _].
      assert (E : rsum (map (fun k => IZR (binCount t k)
                         + 1 * IZR (if (binIndex th =? k)%Z then 1 else 0)) l)
                  = rsum (map (fun k => IZR (binCount t k)) l)
                    + rsum (map (fun k =>
                         IZR (if (binIndex th =? k)%Z then 1 else 0)) l)).
      { clear. induction l as [|a l IHl]; cbn [map]; [unfold rsum; simpl; lra|].
        rewrite !rsum_cons, IHl. lra. }
      rewrite E. lra.
    + intros k _. rewrite binCount_cons, plus_IZR. lra.
Qed.

(** The normalized entropy of any snapshot lies in [0, 1]. *)
Lemma normalizedEntropySpec_bounds (ths : list R) :
  (0 < length ths)%nat -> 0 <= normalizedEntropySpec ths <= 1.
Proof.
  intros Hlen. unfold normalizedEntropySpec.
  assert (HN : 0 < INR (length ths)) by now apply lt_0_INR.
  set (N := INR (length ths)) in *.
  pose proof ln_36_gt_1 as Hln.
  pose proof (binCount_total ths (JS.range 36) (range_NoDup 36)) as Htot.
  fold N in Htot.
  assert (Hle : forall k, In k (JS.range 36) -> IZR (binCount ths k) <= N).
  { intros k Hk. eapply Rle_trans; [|exact Htot].
    apply (rsum_elem_le (fun k => IZR (binCount ths k))); [|assumption].
    intros b _. apply IZR_le, binCount_nonneg. }
  assert (H0 : rsum (map (fun k => shannonTerm N (binCount ths k)) (JS.range 36))
               <= 0).
  { rewrite <- (Rmult_0_r (INR (length (JS.range 36)))), <- rsum_const.
    apply rsum_le. intros k Hk. apply shannonTerm_nonpos; auto.
    apply binCount_nonneg. }
  assert (H1 : - rsum (map (fun k => shannonTerm N (binCount ths k)) (JS.range 36))
               <= ln 36).
  { assert (E : - rsum (map (fun k => shannonTerm N (binCount ths k)) (JS.range 36))
                = rsum (map (fun k => - shannonTerm N (binCount ths k))
                          (JS.range 36))).
    { generalize (JS.range 36). intros l.
      induction l as [|a l IHl]; cbn [map]; [unfold rsum; simpl; lra|].
      rewrite !rsum_cons. lra. }
    rewrite E.
    eapply Rle_trans.
    { apply (rsum_le _ (fun k => / 36 + (ln 36 - 1) / N * IZR (binCount ths k))).
      intros k _.
      pose proof (shannonTerm_lower N (binCount ths k) HN (binCount_nonneg _ _)).
      unfold Rdiv in *. lra. }
    rewrite rsum_affine, range_length.
    replace (INR (Z.to_nat 36)) with 36 by (simpl; lra).
    assert (0 <= (ln 36 - 1) / N).
    { apply Rmult_le_pos; [lra|]. left. now apply Rinv_0_lt_compat. }
    assert ((ln 36 - 1) / N * N = ln 36 - 1) by (field; lra).
    nra. }
  unfold Rdiv. split.
  - apply Rmult_le_pos; [lra|]. left. apply Rinv_0_lt_compat. lra.
  - apply Rmult_le_reg_r with (ln 36); [lra|].
    rewrite Rmult_assoc, Rinv_l by lra. lra.
Qed.

(* ------------------------------------------------------------------ *)
(** ** Which snapshot each metric is taken from *)

(** The sample of a tick, in the words of the specification: the
    coherence of the phases of the grid before the tick, the normalized
    entropy of the phases of the grid after it. *)
Lemma tick_sample config st s :
  length (gridRef st) = Z.to_nat TOTAL_NODES ->
  metricsRef (fst (updatePhysics config st s)) =
  JS.slice_last 100 (metricsRef st) ++
  [mkMetrics (coherenceSpec (phases (gridRef st)))
             (normalizedEntropySpec
                (phases (gridRef (fst (updatePhysics config st s)))))
             (stepRef st + 1)].
Proof.
  intros Hlen. rewrite updatePhysics_metrics. f_equal. f_equal. f_equal.
  - destruct (projectionPass_spec (gridRef st)) as [_ [Hs Hc]].
    rewrite Hs, Hc. unfold coherenceSpec.
    rewrite <- (phasesRead_phases _ Hlen), phasesRead_length, INR_TOTAL_NODES.
    unfold phasesRead. now rewrite !map_map.
  - rewrite histogram_spec, entropyOf_spec by apply phasesRead_length.
    now rewrite phasesRead_phases by apply updatePhysics_length.
Qed.

(** What a tick records.  The coherence is computed from the sums of
    sin and cos over the phases of the grid as it was immediately before
    the tick's update, the normalized entropy from the per-node phases,
    quantized into 36 bins, of the grid the tick has just stored: the
    two metrics of one sample describe two different grids. *)
Lemma metrics_snapshots (config : SimulationConfig) (st : SimState)
    (s : Rng) :
  length (gridRef st) = Z.to_nat TOTAL_NODES ->
  let st' := fst (updatePhysics config st s) in
  exists m,
    metricsRef st' = JS.slice_last 100 (metricsRef st) ++ [m] /\
    step m = stepRef st' /\
    coherence m = coherenceSpec (phases (gridRef st)) /\
    entropy m = normalizedEntropySpec (phases (gridRef st')).
Proof.
  intros Hlen st'. eexists. split; [apply (tick_sample config st s Hlen)|].
  cbn [step coherence entropy]. subst st'. rewrite updatePhysics_step.
  repeat split.
Qed.

(** The two metrics of any pair of full-size snapshots are within
    range. *)
Lemma snapshot_bounds (g g' : list GridNode) :
  length g = Z.to_nat TOTAL_NODES -> length g' = Z.to_nat TOTAL_NODES ->
  0 <= coherenceSpec (phases g) <= 1 /\
  0 <= normalizedEntropySpec (phases g') <= 1.
Proof.
  intros Hlen Hlen'. pose proof TOTAL_NODES_pos as HT. split.
  - unfold coherenceSpec. apply coherence_bounds; [reflexivity|].
    unfold phases. rewrite length_map, Hlen, INR_TOTAL_NODES.
    apply IZR_TOTAL_NODES_pos.
  - apply normalizedEntropySpec_bounds. unfold phases.
    rewrite length_map, Hlen'. lia.
Qed.

(** The two metrics in exact arithmetic.  Computed over the reals, the
    coherence and the normalized entropy of the sample a tick appends
    lie in [0, 1].  The binary64 sums of the code do not keep the upper
    bound: see [coherence_exceeds_one]. *)
Lemma metrics_sample_bounds (config : SimulationConfig) (st : SimState)
    (s : Rng) :
  length (gridRef st) = Z.to_nat TOTAL_NODES ->
  let st' := fst (updatePhysics config st s) in
  exists m,
    metricsRef st' = JS.slice_last 100 (metricsRef st) ++ [m] /\
    0 <= coherence m <= 1 /\ 0 <= entropy m <= 1 /\
    coherence m = coherenceSpec (phases (gridRef st)) /\
    entropy m = normalizedEntropySpec (phases (gridRef st')).
Proof.
  intros Hlen st'. eexists. split; [apply (tick_sample config st s Hlen)|].
  cbn [coherence entropy].
  destruct (snapshot_bounds (gridRef st) (gridRef st') Hlen) as [Hc He].
  { subst st'. apply updatePhysics_length. }
  split; [exact Hc|]. split; [exact He|]. split; reflexivity.
Qed.

Lemma skipn_Forall {A : Type} (P : A -> Prop) (n : nat) (l : list A) :
  Forall P l -> Forall P (skipn n l).
Proof.
  intros H. revert n. induction H as [|a t Ha Ht IH]; intros [|n]; simpl;
    auto.
Qed.

Lemma injectPattern_metrics params st s :
  metricsRef (fst (injectPattern params st s)) = metricsRef st.
Proof.
  unfold injectPattern. destruct (pattern_eqb _ _); [reflexivity|].
  unfold bind, ret. now destruct (foldM _ _ _ s).
Qed.

Lemma activateElysiumGateway_metrics st s :
  metricsRef (snd (fst (activateElysiumGateway st s))) = metricsRef st.
Proof.
  unfold activateElysiumGateway, bind, ret.
  now destruct (foldM _ _ _ s) as [[m g] s'].
Qed.

(** Every sample of the history of a reachable state is within range. *)
Lemma reachable_history (st : SimState) :
  reachable st -> Forall sampleOk (metricsRef st).
Proof.
  intros Hr. pose proof (reachable_inv st Hr) as Hinv. revert Hinv.
  induction Hr as [s0 Hs0 | config st s0 Hr IH Hs0 | params st s0 Hr IH Hs0
                   | st s0 Hr IH Hs0]; intros _.
  - unfold initState, bind, ret. destruct (initGrid s0). constructor.
  - pose proof (reachable_inv st Hr) as [Hlen _].
    rewrite (tick_sample config st s0 Hlen). apply Forall_app. split.
    + apply skipn_Forall. apply IH. now apply reachable_inv.
    + constructor; [|constructor]. unfold sampleOk. cbn [coherence entropy].
      apply snapshot_bounds; [assumption | apply updatePhysics_length].
  - rewrite injectPattern_metrics. apply IH. now apply reachable_inv.
  - rewrite activateElysiumGateway_metrics. apply IH. now apply reachable_inv.
Qed.

(* ------------------------------------------------------------------ *)
(** ** Initialisation from particular streams *)

Lemma mapM_const {A B : Type} (m : Rand B) (l : list A) (s : Rng) :
  snd (m s) = s ->
  mapM (fun _ => m) l s = (repeat (fst (m s)) (length l), s).
Proof.
  intros Hs. induction l as [|a t IH]; [reflexivity|].
  cbn [mapM length repeat]. unfold bind. destruct (m s) as [b s1] eqn:E.
  cbn [fst snd] in *. subst s1. rewrite IH. reflexivity.
Qed.

Lemma ltb_true (a b : R) : a < b -> JS.ltb a b = true.
Proof. intros H. unfold JS.ltb. destruct (Rlt_dec a b); [reflexivity | lra]. Qed.

Lemma ltb_false (a b : R) : b <= a -> JS.ltb a b = false.
Proof. intros H. unfold JS.ltb. destruct (Rlt_dec a b); [lra | reflexivity]. Qed.

Lemma initNode_rng0 : initNode rng0 = (anchor0, rng0).
Proof.
  unfold initNode, bind, Math_random, ret, rng0.
  rewrite (ltb_true 0 0.01) by lra. reflexivity.
Qed.

Lemma initNode_rngHalf : initNode rngHalf = (freePi, rngHalf).
Proof.
  unfold initNode, bind, Math_random, ret, rngHalf.
  rewrite (ltb_false 0.5 0.01) by lra. cbn [negb]. cbv beta iota.
  rewrite (ltb_false 0.5 0.05) by lra. reflexivity.
Qed.

Lemma initNode_rng1 : initNode rng1 = (anchorPi, rngHalf).
Proof.
  unfold initNode, bind, Math_random, ret, rng1. cbn [Nat.eqb].
  rewrite (ltb_true 0 0.01) by lra. reflexivity.
Qed.

Lemma initGrid_rng0 : fst (initGrid rng0) = uniformGrid anchor0.
Proof.
  unfold initGrid. rewrite mapM_const by (now rewrite initNode_rng0).
  rewrite initNode_rng0, range_length. reflexivity.
Qed.

Lemma initGrid_rng1 :
  fst (initGrid rng1) = anchorPi :: repeat freePi (Z.to_nat TOTAL_NODES - 1).
Proof.
  unfold initGrid.
  pose proof (range_length TOTAL_NODES) as Hl.
  assert (0 < Z.to_nat TOTAL_NODES)%nat by (pose proof TOTAL_NODES_pos; lia).
  destruct (JS.range TOTAL_NODES) as [|a t]; cbn [length] in Hl; [lia|].
  cbn [mapM]. unfold bind. rewrite initNode_rng1.
  rewrite mapM_const by (now rewrite initNode_rngHalf).
  rewrite initNode_rngHalf. unfold ret. cbn [fst].
  f_equal. f_equal. lia.
Qed.

Lemma rng0_ok : rng_ok rng0.
Proof. intros n. unfold rng0. lra. Qed.

Lemma rng1_ok : rng_ok rng1.
Proof. intros n. unfold rng1. destruct (Nat.eqb n 1); lra. Qed.

Lemma initState_grid (s : Rng) : gridRef (fst (initState s)) = fst (initGrid s).
Proof. unfold initState, bind, ret. now destruct (initGrid s). Qed.

(* ------------------------------------------------------------------ *)
(** ** The remainder operator *)

Lemma trunc_small (x : R) : -1 < x < 1 -> JS.trunc x = 0%Z.
Proof.
  intros Hx. unfold JS.trunc. destruct (Rle_dec 0 x).
  - apply floor_unique. simpl. lra.
  - rewrite (floor_unique (- x) 0); [reflexivity|]. simpl. lra.
Qed.

(** A dividend smaller than the divisor in absolute value is its own
    remainder, sign included. *)
Lemma rem_small (a b : R) : 0 < b -> - b < a < b -> JS.rem a b = a.
Proof.
  intros Hb Ha. unfold JS.rem. rewrite trunc_small; [simpl; lra|].
  assert (0 < / b) by now apply Rinv_0_lt_compat.
  assert (/ b * b = 1) by (apply Rinv_l; lra).
  unfold Rdiv. split; nra.
Qed.

(* ------------------------------------------------------------------ *)
(** ** Entropy of particular snapshots *)

Lemma binCount_le_length (ths : list R) (k : Z) :
  (binCount ths k <= Z.of_nat (length ths))%Z.
Proof.
  induction ths as [|th t IH]; [unfold binCount; simpl; lia|].
  rewrite binCount_cons. cbn [length].
  destruct (binIndex th =? k)%Z; lia.
Qed.

Lemma binCount_ge1 (ths : list R) (th : R) (k : Z) :
  In th ths -> binIndex th = k -> (1 <= binCount ths k)%Z.
Proof.
  induction ths as [|a t IH]; intros Hin Hk; [destruct Hin|].
  rewrite binCount_cons. pose proof (binCount_nonneg t k).
  destruct Hin as [-> | Hin].
  - rewrite Hk, Z.eqb_refl. lia.
  - specialize (IH Hin Hk). destruct (binIndex a =? k)%Z; lia.
Qed.

Lemma binCount_lt_length (ths : list R) (th : R) (k : Z) :
  In th ths -> binIndex th <> k -> (binCount ths k < Z.of_nat (length ths))%Z.
Proof.
  induction ths as [|a t IH]; intros Hin Hk; [destruct Hin|].
  rewrite binCount_cons. cbn [length]. pose proof (binCount_le_length t k).
  destruct Hin as [-> | Hin].
  - destruct (Z.eqb_spec (binIndex th) k); [contradiction | lia].
  - specialize (IH Hin Hk). destruct (binIndex a =? k)%Z; lia.
Qed.

Lemma binCount_all (ths : list R) (b k : Z) :
  (forall th, In th ths -> binIndex th = b) ->
  binCount ths k = if (b =? k)%Z then Z.of_nat (length ths) else 0%Z.
Proof.
  induction ths as [|a t IH]; intros H.
  - unfold binCount. simpl. now destruct (b =? k)%Z.
  - rewrite binCount_cons, IH by (intros th Hth; apply H; now right).
    rewrite (H a (or_introl eq_refl)). cbn [length].
    destruct (b =? k)%Z; lia.
Qed.

(** Scenario D, second half: a snapshot whose phases fall into one bin
    has normalized entropy 0. *)
Lemma entropy_single_bin (ths : list R) (b : Z) :
  (forall th, In th ths -> binIndex th = b) ->
  normalizedEntropySpec ths = 0.
Proof.
  intros H. unfold normalizedEntropySpec.
  rewrite (rsum_ext_in _ (fun _ => 0)).
  - rewrite rsum_const. unfold Rdiv. lra.
  - intros k _. rewrite (binCount_all ths b k H). unfold shannonTerm.
    destruct (b =? k)%Z; [|reflexivity].
    destruct (Z.eqb_spec (Z.of_nat (length ths)) 0) as [|Hne]; [reflexivity|].
    rewrite <- INR_IZR_INZ.
    assert (INR (length ths) <> 0) by (apply not_0_INR; lia).
    unfold Rdiv. rewrite Rinv_r by assumption. rewrite ln_1. lra.
Qed.

Lemma rsum_neg_elem {A : Type} (f : A -> R) (l : list A) (k : A) :
  (forall a, In a l -> f a <= 0) -> In k l -> f k < 0 -> rsum (map f l) < 0.
Proof.
  induction l as [|a t IH]; intros H Hin Hk; [destruct Hin|].
  cbn [map]. rewrite rsum_cons.
  pose proof (H a (or_introl eq_refl)) as Ha.
  assert (Ht : rsum (map f t) <= 0).
  { rewrite <- (Rmult_0_r (INR (length t))), <- rsum_const.
    apply rsum_le. intros a' Ha'. apply H. now right. }
  destruct Hin as [-> | Hin]; [lra|].
  pose proof (IH (fun a' Ha' => H a' (or_intror Ha')) Hin Hk). lra.
Qed.

(** A snapshot with a bin that holds some but not all of the phases has
    positive normalized entropy. *)
Lemma entropy_two_bins (ths : list R) (k : Z) :
  In k (JS.range 36) ->
  (0 < binCount ths k < Z.of_nat (length ths))%Z ->
  0 < normalizedEntropySpec ths.
Proof.
  intros Hk [Hc0 Hc1]. unfold normalizedEntropySpec.
  assert (HN : 0 < INR (length ths)) by (apply lt_0_INR; lia).
  set (N := INR (length ths)) in *. pose proof ln_36_gt_1.
  assert (Hneg : rsum (map (fun k => shannonTerm N (binCount ths k))
                         (JS.range 36)) < 0).
  { apply rsum_neg_elem with (k := k); [|assumption|].
    - intros a _. apply shannonTerm_nonpos; [assumption|apply binCount_nonneg|].
      unfold N. rewrite INR_IZR_INZ. apply IZR_le, binCount_le_length.
    - unfold shannonTerm. destruct (Z.eqb_spec (binCount ths k) 0); [lia|].
      assert (0 < IZR (binCount ths k)) by (apply IZR_lt; lia).
      assert (IZR (binCount ths k) < N).
      { unfold N. rewrite INR_IZR_INZ. now apply IZR_lt. }
      assert (Hp : 0 < IZR (binCount ths k) / N) by now apply Rdiv_lt_0_compat.
      assert (Hp1 : IZR (binCount ths k) / N < 1).
      { apply Rmult_lt_reg_r with N; [assumption|].
        unfold Rdiv. rewrite Rmult_assoc, Rinv_l by lra. lra. }
      pose proof (ln_increasing _ _ Hp Hp1) as Hl. rewrite ln_1 in Hl. nra. }
  apply Rdiv_lt_0_compat; lra.
Qed.

Lemma In_get_phases (g : list GridNode) (i : Z) :
  (0 <= i < Z.of_nat (length g))%Z ->
  In (theta (JS.get g i noNode)) (phases g).
Proof.
  intros Hi. unfold phases. apply in_map. rewrite get_nth by lia.
  apply nth_In. lia.
Qed.

(* ------------------------------------------------------------------ *)
(** ** A free node without coupling and noise *)

Lemma atan2_quadrant4 (y x : R) :
  0 < x -> y < 0 -> - (PI / 2) < JS.atan2 y x < 0.
Proof.
  intros Hx Hy. unfold JS.atan2. destruct (Rlt_dec 0 x); [|lra].
  pose proof (atan_bound (y / x)) as [Hb _].
  assert (y / x < 0).
  { unfold Rdiv. assert (0 < / x) by now apply Rinv_0_lt_compat. nra. }
  pose proof (atan_increasing _ _ H) as Hi. rewrite atan_0 in Hi. lra.
Qed.

(** The phase a tick gives a free node when coupling and noise are 0. *)
Lemma updateNode_solo_theta config g X Y i s :
  coupling config = 0 -> noise config = 0 ->
  isTitan (JS.get g i noNode) = false ->
  let node := JS.get g i noNode in
  let x_i := JS.get X i 0 in
  let y_i := JS.get Y i 0 in
  let nextX :=
    x_i + ((alpha node - r node * r node) * x_i - omega node * y_i)
          * dt config in
  let nextY :=
    y_i + ((alpha node - r node * r node) * y_i + omega node * x_i)
          * dt config in
  theta (fst (updateNode config g X Y i s)) =
  if Rlt_dec (JS.atan2 nextY nextX) 0
  then JS.atan2 nextY nextX + 2 * PI else JS.atan2 nextY nextX.
Proof.
  intros Hc Hn Ht. unfold updateNode. rewrite Ht.
  destruct (neighborSums _ _ _ _ _ _ _) as [[dX dY] pp].
  unfold bind, Math_random, ret. cbn [fst theta].
  rewrite Hc, Hn, !Rmult_0_l, !Rmult_0_r, !Rplus_0_r. reflexivity.
Qed.

(* ------------------------------------------------------------------ *)
(** ** The elysium loop *)

Lemma elysiumStep_unfold cx cy g i :
  elysiumStep cx cy g i =
  if spiralInGrid cx cy i
  then JS.set g (spiralIdx cx cy i)
         (titanOver (JS.get g (spiralIdx cx cy i) noNode) i)
  else g.
Proof.
  unfold elysiumStep, spiralInGrid, spiralIdx.
  now destruct (spiralCell cx cy i).
Qed.

Lemma spiralIdx_range cx cy i :
  spiralInGrid cx cy i = true -> inRange (spiralIdx cx cy i).
Proof.
  unfold spiralInGrid, spiralIdx, inGrid, inRange.
  destruct (spiralCell cx cy i) as [x y]. rewrite TOTAL_NODES_grid.
  rewrite !andb_true_iff, !Z.leb_le, !Z.ltb_lt. nia.
Qed.

Lemma titanOver_placed (old : GridNode) (i : Z) : placedTitan (titanOver old i).
Proof. unfold placedTitan, titanOver. cbn. repeat split; lra. Qed.

(** After the loop over the points [l]: a cell written by some in-bounds
    point holds a placed Titan, every other cell is as before. *)
Lemma elysium_fold_spec cx cy (l : list Z) :
  forall g, length g = Z.to_nat TOTAL_NODES ->
  let res := fold_left (elysiumStep cx cy) l g in
  length res = length g /\
  (forall j, In j (map (spiralIdx cx cy) (filter (spiralInGrid cx cy) l)) ->
     placedTitan (JS.get res j noNode)) /\
  (forall j, (0 <= j)%Z ->
     ~ In j (map (spiralIdx cx cy) (filter (spiralInGrid cx cy) l)) ->
     JS.get res j noNode = JS.get g j noNode).
Proof.
  induction l as [|a t IH]; intros g Hlen; cbn [fold_left filter].
  - cbn [map]. split; [reflexivity|]. split; [intros j [] | reflexivity].
  - rewrite elysiumStep_unfold.
    destruct (spiralInGrid cx cy a) eqn:Ha.
    + pose proof (spiralIdx_range cx cy a Ha) as Hr. unfold inRange in Hr.
      set (g1 := JS.set g (spiralIdx cx cy a)
                   (titanOver (JS.get g (spiralIdx cx cy a) noNode) a)).
      assert (Hlen1 : length g1 = Z.to_nat TOTAL_NODES)
        by (unfold g1; now rewrite set_length).
      destruct (IH g1 Hlen1) as [Hl [Hin Hout]].
      split; [rewrite Hl; unfold g1; apply set_length|]. split.
      * intros j Hj. cbn [map] in Hj.
        destruct (in_dec Z.eq_dec j
                    (map (spiralIdx cx cy) (filter (spiralInGrid cx cy) t)))
          as [Hjt | Hjt]; [now apply Hin|].
        destruct Hj as [<- | Hj]; [|contradiction].
        rewrite Hout by (assumption || lia). unfold g1.
        rewrite get_set_same by lia. apply titanOver_placed.
      * intros j Hj Hnj. cbn [map] in Hnj.
        rewrite Hout; [|assumption|].
        -- unfold g1. apply get_set_other; [|assumption].
           intros E. apply Hnj. now left.
        -- intros Hjt. apply Hnj. now right.
    + apply IH. assumption.
Qed.

Lemma pattern_elysium_grid params st s :
  pattern params = elysium ->
  gridRef (fst (injectPattern params st s)) =
  fold_left (elysiumStep (clampTarget (targetX params))
                         (clampTarget (targetY params)))
            (JS.range 50) (gridRef st).
Proof.
  intros Hp. unfold injectPattern. rewrite Hp. reflexivity.
Qed.

(* ------------------------------------------------------------------ *)
(** ** Geometry of the spiral *)

Lemma floor_eq_close (u v : R) : JS.floor u = JS.floor v -> -1 < u - v < 1.
Proof.
  intros E. pose proof (floor_spec u) as Hu. pose proof (floor_spec v) as Hv.
  rewrite E in Hu. lra.
Qed.

Lemma sqrt3_half_bound : sqrt 3 / 2 <= 0.867.
Proof.
  assert (sqrt 3 <= 1.734) by (apply sqrt_le_bound; lra). lra.
Qed.

(** Away from the multiples of 2 PI by at least PI / 6 the cosine is at
    most cos (PI / 6). *)
Lemma cos_far (x : R) : PI / 6 <= x <= 11 * (PI / 6) -> cos x <= sqrt 3 / 2.
Proof.
  intros [H1 H2]. pose proof PI_RGT_0 as Hpi. rewrite <- cos_PI6.
  destruct (Rle_dec x PI) as [Hx | Hx].
  - apply cos_decr_1; lra.
  - replace (cos x) with (cos (2 * PI - x)).
    + apply cos_decr_1; lra.
    + rewrite cos_minus, cos_2PI, sin_2PI. ring.
Qed.

Lemma cos_far_turn (x : R) :
  PI / 6 <= x - 2 * PI <= 11 * (PI / 6) -> cos x <= sqrt 3 / 2.
Proof.
  intros H. replace x with ((x - 2 * PI) + 2 * INR 1 * PI) by (simpl; lra).
  rewrite cos_period. now apply cos_far.
Qed.

(** The first five multiples of the golden angle stay away from the
    multiples of 2 PI. *)
Lemma cos_golden_multiple (k : Z) :
  (1 <= k <= 5)%Z -> cos (IZR k * GOLDEN_ANGLE) <= 0.867.
Proof.
  intros Hk. eapply Rle_trans; [|apply sqrt3_half_bound].
  pose proof PI_RGT_0 as Hpi. unfold GOLDEN_ANGLE.
  assert (Hc : (k = 1 \/ k = 2 \/ k = 3 \/ k = 4 \/ k = 5)%Z) by lia.
  destruct Hc as [-> | [-> | [-> | [-> | ->]]]].
  - apply cos_far. lra.
  - apply cos_far. lra.
  - apply cos_far_turn. lra.
  - apply cos_far_turn. lra.
  - apply cos_far_turn. lra.
Qed.

Lemma spiral_radius_bounds (i : Z) :
  (0 <= i < 50)%Z ->
  1 <= sqrt (IZR i + 1) <= 7.08 /\
  sqrt (IZR i + 1) * sqrt (IZR i + 1) = IZR i + 1.
Proof.
  intros Hi.
  assert (0 <= IZR i) by (apply IZR_le; lia).
  assert (IZR i <= 49) by (apply IZR_le; lia).
  split; [split|].
  - rewrite <- sqrt_1 at 1. apply sqrt_le_1_alt. lra.
  - apply sqrt_le_bound; lra.
  - apply sqrt_sqrt. lra.
Qed.

Lemma spiral_distance (a b ci si cj sj : R) :
  (SPREAD * a * ci - SPREAD * b * cj) ^ 2
  + (SPREAD * a * si - SPREAD * b * sj) ^ 2
  = SPREAD * SPREAD
    * (a * a * (si * si + ci * ci) + b * b * (sj * sj + cj * cj)
       - 2 * (a * b) * (cj * ci + sj * si)).
Proof. ring. Qed.

Lemma separation_near (a b c : R) :
  1 <= a -> 1 <= b -> c <= 0.867 ->
  2 <= 12.25 * (a * a * 1 + b * b * 1 - 2 * (a * b) * c).
Proof.
  intros Ha Hb Hc.
  assert (Hab : 0 <= (a - 1) * (b - 1)) by (apply Rmult_le_pos; lra).
  assert (Hsq : 0 <= (b - a) * (b - a)) by (apply Rle_0_sqr).
  assert (H1 : 0 <= (a * b - 1) * (0.867 - c)).
  { apply Rmult_le_pos; lra. }
  lra.
Qed.

Lemma separation_far (a b c : R) :
  1 <= a <= 7.08 -> 1 <= b <= 7.08 -> c <= 1 -> 6 <= b * b - a * a ->
  2 <= 12.25 * (a * a * 1 + b * b * 1 - 2 * (a * b) * c).
Proof.
  intros Ha Hb Hc Hd.
  assert (Hba : 0 <= b - a).
  { destruct (Rle_dec a b); [lra|]. exfalso.
    assert (0 <= (a - b) * (a + b)) by (apply Rmult_le_pos; lra). lra. }
  assert (Hlow : 0.4237 <= b - a).
  { destruct (Rle_dec 0.4237 (b - a)); [assumption|]. exfalso.
    assert (0 <= (0.4237 - (b - a)) * (b + a)) by (apply Rmult_le_pos; lra).
    assert (0 <= (14.16 - (b + a)) * 0.4237) by (apply Rmult_le_pos; lra).
    lra. }
  assert (H2 : 0 <= (b - a - 0.4237) * (b - a + 0.4237))
    by (apply Rmult_le_pos; lra).
  assert (H3 : 0 <= (a * b) * (1 - c)).
  { apply Rmult_le_pos; [|lra]. apply Rmult_le_pos; lra. }
  lra.
Qed.

(** Two different points of the spiral are at least sqrt 2 apart. *)
Lemma spiral_separation (i j : Z) :
  (0 <= i < j)%Z -> (j < 50)%Z ->
  2 <= (SPREAD * sqrt (IZR i + 1) * cos (IZR i * GOLDEN_ANGLE)
        - SPREAD * sqrt (IZR j + 1) * cos (IZR j * GOLDEN_ANGLE)) ^ 2
     + (SPREAD * sqrt (IZR i + 1) * sin (IZR i * GOLDEN_ANGLE)
        - SPREAD * sqrt (IZR j + 1) * sin (IZR j * GOLDEN_ANGLE)) ^ 2.
Proof.
  intros Hij Hj.
  destruct (spiral_radius_bounds i ltac:(lia)) as [[Ha1 Ha2] Ha].
  destruct (spiral_radius_bounds j ltac:(lia)) as [[Hb1 Hb2] Hb].
  set (a := sqrt (IZR i + 1)) in *. set (b := sqrt (IZR j + 1)) in *.
  pose proof (sin2_cos2 (IZR i * GOLDEN_ANGLE)) as Hi1.
  pose proof (sin2_cos2 (IZR j * GOLDEN_ANGLE)) as Hj1.
  unfold Rsqr in Hi1, Hj1.
  pose proof (cos_minus (IZR j * GOLDEN_ANGLE) (IZR i * GOLDEN_ANGLE)) as Hc.
  replace (IZR j * GOLDEN_ANGLE - IZR i * GOLDEN_ANGLE)
    with (IZR (j - i) * GOLDEN_ANGLE) in Hc by (rewrite minus_IZR; ring).
  set (ci := cos (IZR i * GOLDEN_ANGLE)) in *.
  set (si := sin (IZR i * GOLDEN_ANGLE)) in *.
  set (cj := cos (IZR j * GOLDEN_ANGLE)) in *.
  set (sj := sin (IZR j * GOLDEN_ANGLE)) in *.
  set (c := cos (IZR (j - i) * GOLDEN_ANGLE)) in *.
  rewrite spiral_distance, Hi1, Hj1, <- Hc.
  replace (SPREAD * SPREAD) with 12.25 by (unfold SPREAD; lra).
  destruct (Z_le_gt_dec (j - i) 5) as [Hk | Hk].
  - apply separation_near; [lra | lra |].
    apply cos_golden_multiple. lia.
  - apply separation_far; [lra | lra | apply COS_bound |].
    rewrite Ha, Hb.
    assert (Hd : IZR i + 6 <= IZR j).
    { rewrite <- (plus_IZR i 6). apply IZR_le. lia. }
    lra.
Qed.

Lemma spiral_offset_bound (i : Z) (c : R) :
  (0 <= i < 50)%Z -> -1 <= c <= 1 ->
  -24.78 <= SPREAD * sqrt (IZR i + 1) * c <= 24.78.
Proof.
  intros Hi Hc. destruct (spiral_radius_bounds i Hi) as [[H1 H2] _].
  set (a := sqrt (IZR i + 1)) in *. unfold SPREAD.
  assert (0 <= a * (1 - c)) by (apply Rmult_le_pos; lra).
  assert (0 <= a * (1 + c)) by (apply Rmult_le_pos; lra).
  lra.
Qed.

(** Around the centre cell the 50 points all fall inside the grid. *)
Lemma spiral_in_bounds (i : Z) :
  (0 <= i < 50)%Z -> spiralInGrid 36 36 i = true.
Proof.
  intros Hi. unfold spiralInGrid, spiralCell, inGrid.
  pose proof (spiral_offset_bound i (cos (IZR i * GOLDEN_ANGLE)) Hi
                (COS_bound _)) as Hx.
  pose proof (spiral_offset_bound i (sin (IZR i * GOLDEN_ANGLE)) Hi
                (SIN_bound _)) as Hy.
  rewrite GRID_SIZE_val.
  rewrite !andb_true_iff, !Z.leb_le, !Z.ltb_lt.
  repeat split.
  - apply floor_ge. simpl. lra.
  - apply floor_lt. simpl. lra.
  - apply floor_ge. simpl. lra.
  - apply floor_lt. simpl. lra.
Qed.

Lemma square_lt_1 (u : R) : -1 < u < 1 -> u ^ 2 < 1.
Proof.
  intros Hu. assert (0 < (1 - u) * (1 + u)) by (apply Rmult_lt_0_compat; lra).
  simpl. lra.
Qed.

(** Around the centre cell no two points fall into the same cell. *)
Lemma spiral_cells_differ (i j : Z) :
  (0 <= i < j)%Z -> (j < 50)%Z -> spiralIdx 36 36 i <> spiralIdx 36 36 j.
Proof.
  intros Hij Hj E.
  pose proof (spiral_in_bounds i ltac:(lia)) as Bi.
  pose proof (spiral_in_bounds j ltac:(lia)) as Bj.
  pose proof (spiral_separation i j Hij Hj) as Hsep.
  unfold spiralIdx, spiralInGrid, spiralCell, inGrid in E, Bi, Bj.
  rewrite !andb_true_iff, !Z.leb_le, !Z.ltb_lt in Bi, Bj.
  set (xi := JS.floor (36 + SPREAD * sqrt (IZR i + 1) * cos (IZR i * GOLDEN_ANGLE))) in *.
  set (yi := JS.floor (36 + SPREAD * sqrt (IZR i + 1) * sin (IZR i * GOLDEN_ANGLE))) in *.
  set (xj := JS.floor (36 + SPREAD * sqrt (IZR j + 1) * cos (IZR j * GOLDEN_ANGLE))) in *.
  set (yj := JS.floor (36 + SPREAD * sqrt (IZR j + 1) * sin (IZR j * GOLDEN_ANGLE))) in *.
  assert (Ey : yi = yj) by nia.
  assert (Ex : xi = xj) by lia.
  apply floor_eq_close in Ex. apply floor_eq_close in Ey.
  match type of Hsep with
  | _ <= ?u ^ 2 + ?v ^ 2 =>
      pose proof (square_lt_1 u ltac:(lra));
      pose proof (square_lt_1 v ltac:(lra))
  end.
  lra.
Qed.

Lemma filter_keeps_all {T : Type} (keep : T -> bool) (xs : list T) :
  Forall (fun x => keep x = true) xs -> filter keep xs = xs.
Proof.
  induction 1 as [|x xs Hx _ IH]; cbn [filter]; [reflexivity|].
  now rewrite Hx, IH.
Qed.

Lemma inBoundsPoints_centre : inBoundsPoints 36 36 = JS.range 50.
Proof.
  unfold inBoundsPoints. apply filter_keeps_all. apply Forall_forall.
  intros i Hi. apply spiral_in_bounds. now apply range_In.
Qed.

Lemma placedIndices_centre_NoDup : NoDup (placedIndices 36 36).
Proof.
  unfold placedIndices. rewrite inBoundsPoints_centre.
  apply NoDup_map_NoDup_ForallPairs; [|apply range_NoDup].
  intros i j Hi Hj E. apply range_In in Hi. apply range_In in Hj.
  destruct (Z.lt_trichotomy i j) as [Hlt | [Heq | Hgt]]; [|assumption|].
  - exfalso. apply (spiral_cells_differ i j); auto; lia.
  - exfalso. apply (spiral_cells_differ j i); auto; lia.
Qed.

(* ------------------------------------------------------------------ *)
(** ** Scenario C: elysium at the centre *)

(** C9.  For every prior grid, an elysium injection centred at the grid
    centre writes min(50, number of in-bounds placements) = 50 distinct
    cells; each of them becomes a Titan with omega = 0, r = 1.0,
    alpha = 1.0 (and is no Spark), and every node at an index that is
    not placed is the node it was before the injection. *)
Theorem elysium_centre (st : SimState) (s : Rng) :
  length (gridRef st) = Z.to_nat TOTAL_NODES ->
  let g' := gridRef (fst (injectPattern centreElysium st s)) in
  NoDup (placedIndices 36 36) /\
  Z.of_nat (length (placedIndices 36 36))
    = Z.min 50 (Z.of_nat (length (inBoundsPoints 36 36))) /\
  length (placedIndices 36 36) = 50%nat /\
  (forall j, In j (placedIndices 36 36) ->
     inRange j /\ placedTitan (JS.get g' j noNode)) /\
  (forall j, inRange j -> ~ In j (placedIndices 36 36) ->
     JS.get g' j noNode = JS.get (gridRef st) j noNode).
Proof.
  intros Hlen g'.
  assert (Hg : g' = fold_left (elysiumStep 36 36) (JS.range 50) (gridRef st)).
  { subst g'. rewrite pattern_elysium_grid by reflexivity.
    cbn [targetX targetY centreElysium].
    rewrite !clampTarget_id by (rewrite GRID_SIZE_val; simpl; lra).
    reflexivity. }
  destruct (elysium_fold_spec 36 36 (JS.range 50) (gridRef st) Hlen)
    as [_ [Hin Hout]].
  fold (inBoundsPoints 36 36) in Hin, Hout.
  fold (placedIndices 36 36) in Hin, Hout.
  assert (Hcount : length (placedIndices 36 36) = 50%nat).
  { unfold placedIndices. rewrite length_map, inBoundsPoints_centre.
    now rewrite range_length. }
  split; [apply placedIndices_centre_NoDup|].
  split; [rewrite Hcount, inBoundsPoints_centre, range_length; reflexivity|].
  split; [assumption|]. split.
  - intros j Hj. split.
    + unfold placedIndices in Hj. apply in_map_iff in Hj.
      destruct Hj as [i [<- Hi]]. apply spiralIdx_range.
      unfold inBoundsPoints in Hi. apply filter_In in Hi. tauto.
    + rewrite Hg. now apply Hin.
  - intros j Hj Hnj. rewrite Hg. apply Hout; [|assumption].
    unfold inRange in Hj. lia.
Qed.

(* ------------------------------------------------------------------ *)
(** ** Where the wrap bound of the phase is kept *)

Lemma getNeighbors_range (i : Z) :
  inRange i -> Forall inRange (getNeighbors i).
Proof.
  unfold inRange, getNeighbors. rewrite TOTAL_NODES_grid. intros Hi.
  pose proof GRID_SIZE_pos as HG.
  assert (Hy : (0 <= i / GRID_SIZE < GRID_SIZE)%Z).
  { split; [apply Z.div_pos; lia | apply Z.div_lt_upper_bound; lia]. }
  pose proof (Z.rem_bound_pos i GRID_SIZE ltac:(lia) HG) as Hx.
  pose proof (Z.rem_bound_pos (Z.rem i GRID_SIZE - 1 + GRID_SIZE) GRID_SIZE
                ltac:(lia) HG).
  pose proof (Z.rem_bound_pos (Z.rem i GRID_SIZE + 1) GRID_SIZE ltac:(lia) HG).
  pose proof (Z.rem_bound_pos (i / GRID_SIZE - 1 + GRID_SIZE) GRID_SIZE
                ltac:(lia) HG).
  pose proof (Z.rem_bound_pos (i / GRID_SIZE + 1) GRID_SIZE ltac:(lia) HG).
  repeat constructor; nia.
Qed.

(** The remainder of a non-negative dividend is a true modulo. *)
Lemma rem_nonneg (a b : R) : 0 <= a -> 0 < b -> 0 <= JS.rem a b < b.
Proof.
  intros Ha Hb. unfold JS.rem, JS.trunc.
  assert (Hq : 0 <= a / b).
  { unfold Rdiv. apply Rmult_le_pos; [assumption|].
    left. now apply Rinv_0_lt_compat. }
  destruct (Rle_dec 0 (a / b)); [|lra].
  destruct (floor_spec (a / b)) as [H1 H2].
  assert (E : a / b * b = a) by (field; lra).
  assert (0 <= (a / b - IZR (JS.floor (a / b))) * b)
    by (apply Rmult_le_pos; lra).
  assert (0 < (IZR (JS.floor (a / b)) + 1 - a / b) * b)
    by (apply Rmult_lt_0_compat; lra).
  lra.
Qed.

Lemma initNode_thetaOk (s : Rng) : rng_ok s -> thetaOk (fst (initNode s)).
Proof.
  intros Hs. pose proof (Hs 0%nat) as H0. pose proof PI_RGT_0 as Hpi.
  unfold initNode, bind, Math_random, ret, thetaOk. cbv beta iota.
  destruct (JS.ltb (s 1%nat) 0.01); cbn [negb].
  - cbn. assert (0 <= s 0%nat * PI) by (apply Rmult_le_pos; lra).
    assert (0 < (1 - s 0%nat) * PI) by (apply Rmult_lt_0_compat; lra). lra.
  - cbv beta iota. destruct (JS.ltb _ 0.05); cbn;
      assert (0 <= s 0%nat * PI) by (apply Rmult_le_pos; lra);
      assert (0 < (1 - s 0%nat) * PI) by (apply Rmult_lt_0_compat; lra); lra.
Qed.

Lemma titanOver_thetaOk (old : GridNode) (i : Z) :
  (0 <= i)%Z -> thetaOk (titanOver old i).
Proof.
  intros Hi. unfold thetaOk, titanOver. cbn [theta].
  apply rem_nonneg; [|apply two_PI_pos].
  unfold GOLDEN_ANGLE. pose proof PI_RGT_0.
  apply Rmult_le_pos; [apply IZR_le; lia | lra].
Qed.

(** A tick keeps the wrap bound of a node whose anchors are frozen. *)
Lemma updateNode_thetaOk config g X Y i s :
  titanOk (JS.get g i noNode) -> thetaOk (JS.get g i noNode) ->
  thetaOk (fst (updateNode config g X Y i s)).
Proof.
  intros Hok Hth. destruct (isTitan (JS.get g i noNode)) eqn:Ht.
  - rewrite updateNode_titan by assumption. destruct (Hok Ht) as [Hom _].
    unfold thetaOk in *. cbn [theta set_theta]. rewrite Hom. lra.
  - destruct (updateNode_free config g X Y i s Ht) as [_ [_ [H _]]]. exact H.
Qed.

(** The initial grid and every grid obtained from it by ticks alone
    respect the wrap bound. *)
Lemma initState_thetaOk (s : Rng) :
  rng_ok s -> Forall thetaOk (gridRef (fst (initState s))).
Proof.
  intros Hs. rewrite initState_grid. unfold initGrid.
  assert (H : forall l s0, rng_ok s0 ->
            Forall thetaOk (fst (mapM (fun _ : Z => initNode) l s0)) /\
            rng_ok (snd (mapM (fun _ : Z => initNode) l s0))).
  { clear. induction l as [|a t IH]; intros s0 Hs0; cbn [mapM].
    - split; [constructor | exact Hs0].
    - unfold bind. pose proof (initNode_thetaOk s0 Hs0) as Hn.
      assert (Hs1 : rng_ok (snd (initNode s0))).
      { unfold initNode, bind, Math_random, ret. cbv beta iota.
        destruct (JS.ltb (s0 1%nat) 0.01); cbn [negb]; cbv beta iota.
        - intros n. apply Hs0.
        - destruct (JS.ltb _ 0.05); cbn; intros n; apply Hs0. }
      destruct (initNode s0) as [n s1]. cbn [fst snd] in *.
      destruct (IH s1 Hs1) as [Hf Hr].
      destruct (mapM _ t s1) as [ns s2]. cbn [fst snd ret] in *.
      split; [now constructor | assumption]. }
  apply H. assumption.
Qed.

Lemma updatePhysics_thetaOk config st s :
  gridInv (gridRef st) -> Forall thetaOk (gridRef st) ->
  Forall thetaOk (gridRef (fst (updatePhysics config st s))).
Proof.
  intros Hinv Hth. rewrite updatePhysics_grid.
  pose proof Hinv as [Hlen _].
  assert (H : forall l, (forall i, In i l -> inRange i) ->
            forall s0, Forall thetaOk
              (fst (mapM (updateNode config (gridRef st)
                            (projX (projectionPass (gridRef st)))
                            (projY (projectionPass (gridRef st)))) l s0))).
  { induction l as [|a t IH]; intros Hl s0; cbn [mapM]; [constructor|].
    unfold bind.
    assert (Ha : thetaOk (fst (updateNode config (gridRef st)
                            (projX (projectionPass (gridRef st)))
                            (projY (projectionPass (gridRef st))) a s0))).
    { apply updateNode_thetaOk; [now apply gridInv_get|].
      apply get_Forall; [assumption|].
      pose proof (Hl a (or_introl eq_refl)) as Hr. unfold inRange in Hr.
      rewrite Hlen. lia. }
    destruct (updateNode _ _ _ _ a s0) as [n s1]. cbn [fst] in Ha.
    specialize (IH (fun i Hi => Hl i (or_intror Hi)) s1).
    destruct (mapM _ t s1) as [ns s2]. cbn [fst ret] in *. now constructor. }
  apply H. intros i Hi. now apply range_In.
Qed.

(* ------------------------------------------------------------------ *)
(** ** The torus *)

Lemma getNeighbors_unfold (i : Z) :
  inRange i ->
  getNeighbors i =
  [ (i / 72 * 72 + (i mod 72 - 1 + 72) mod 72)%Z;
    (i / 72 * 72 + (i mod 72 + 1) mod 72)%Z;
    ((i / 72 - 1 + 72) mod 72 * 72 + i mod 72)%Z;
    ((i / 72 + 1) mod 72 * 72 + i mod 72)%Z ].
Proof.
  unfold inRange. rewrite TOTAL_NODES_val. intros Hi. unfold getNeighbors.
  rewrite GRID_SIZE_val.
  pose proof (Z.div_pos i 72 ltac:(lia) ltac:(lia)) as Hd.
  assert (Hd' : (i / 72 < 72)%Z) by (apply Z.div_lt_upper_bound; lia).
  pose proof (Z.mod_pos_bound i 72 ltac:(lia)) as Hm.
  rewrite (Z.rem_mod_nonneg i 72) by lia.
  rewrite !Z.rem_mod_nonneg by lia. reflexivity.
Qed.

(** X1.  For a lattice index the neighbour function returns four lattice
    indices, none of them the index itself: the left and right ones lie
    in the same row, the upper and lower ones in the same column. *)
Theorem neighbors_valid (i : Z) :
  inRange i ->
  length (getNeighbors i) = 4%nat /\
  Forall (fun j => inRange j /\ j <> i) (getNeighbors i) /\
  rowOf (nbLeft i) = rowOf i /\ rowOf (nbRight i) = rowOf i /\
  colOf (nbUp i) = colOf i /\ colOf (nbDown i) = colOf i.
Proof.
  intros Hi. unfold nbLeft, nbRight, nbUp, nbDown, rowOf, colOf.
  rewrite (getNeighbors_unfold i Hi). cbn [nth length].
  unfold inRange in *. rewrite TOTAL_NODES_val in *.
  rewrite GRID_SIZE_val.
  split; [reflexivity|].
  split; [repeat constructor; Z.to_euclidean_division_equations; lia|].
  repeat split; Z.to_euclidean_division_equations; lia.
Qed.

(** X2.  On the torus the neighbour function is symmetric: the right
    neighbour of the left neighbour of an index is the index itself, and
    so for left after right, down after up and up after down. *)
Theorem neighbors_inverse (i : Z) :
  inRange i ->
  nbRight (nbLeft i) = i /\ nbLeft (nbRight i) = i /\
  nbDown (nbUp i) = i /\ nbUp (nbDown i) = i.
Proof.
  intros Hi.
  assert (Hn : Forall inRange (getNeighbors i)) by now apply getNeighbors_range.
  unfold nbLeft, nbRight, nbUp, nbDown.
  rewrite (getNeighbors_unfold i Hi) in *. cbn [nth].
  inversion Hn as [|? ? H0 Hn1]; subst. inversion Hn1 as [|? ? H1 Hn2]; subst.
  inversion Hn2 as [|? ? H2 Hn3]; subst. inversion Hn3 as [|? ? H3 _]; subst.
  rewrite (getNeighbors_unfold _ H0), (getNeighbors_unfold _ H1),
    (getNeighbors_unfold _ H2), (getNeighbors_unfold _ H3).
  cbn [nth]. unfold inRange in Hi. rewrite TOTAL_NODES_val in Hi.
  clear - Hi.
  repeat split; Z.to_euclidean_division_equations; lia.
Qed.

(** X3.  Index and coordinates are a round trip: the index
    [y * GRID_SIZE + x] of a cell of the grid has column [x] and row
    [y], and every lattice index is the index of its own column and
    row. *)
Theorem index_coordinates_roundtrip :
  (forall x y, (0 <= x < GRID_SIZE)%Z -> (0 <= y < GRID_SIZE)%Z ->
     inRange (y * GRID_SIZE + x) /\
     colOf (y * GRID_SIZE + x) = x /\ rowOf (y * GRID_SIZE + x) = y) /\
  (forall i, inRange i ->
     (0 <= colOf i < GRID_SIZE)%Z /\ (0 <= rowOf i < GRID_SIZE)%Z /\
     (rowOf i * GRID_SIZE + colOf i)%Z = i).
Proof.
  unfold inRange, colOf, rowOf. rewrite TOTAL_NODES_val, GRID_SIZE_val. split.
  - intros x y Hx Hy. repeat split; Z.to_euclidean_division_equations; lia.
  - intros i Hi. repeat split; Z.to_euclidean_division_equations; lia.
Qed.

(* ------------------------------------------------------------------ *)
(** ** Node invariants along the reachable states *)

Lemma set_nat_beyond {A : Type} (a : list A) (i : nat) (v : A) :
  (length a <= i)%nat -> JS.set_nat a i v = a.
Proof.
  revert i. induction a as [|h t IH]; intros [|i] Hi; simpl in *; auto; try lia.
  f_equal. apply IH. lia.
Qed.

(** Rewriting a cell by a map that keeps [P] keeps [P] on the array,
    wherever the index points. *)
Lemma Forall_set_get {A : Type} (P : A -> Prop) (f : A -> A) (a : list A)
    (i : Z) (d : A) :
  Forall P a -> (forall n, P n -> P (f n)) ->
  Forall P (JS.set a i (f (JS.get a i d))).
Proof.
  intros Ha Hf. unfold JS.set, JS.get. destruct (i <? 0)%Z; [assumption|].
  destruct (Nat.lt_ge_cases (Z.to_nat i) (length a)) as [Hlt | Hge].
  - apply Forall_set_nat; [assumption|]. apply Hf.
    rewrite Forall_forall in Ha. apply Ha. now apply nth_In.
  - now rewrite set_nat_beyond.
Qed.

Lemma mapM_Forall_inv {A B : Type} (P : B -> Prop) (Q : Rng -> Prop)
    (f : A -> Rand B) (l : list A) :
  (forall a s, In a l -> Q s -> P (fst (f a s)) /\ Q (snd (f a s))) ->
  forall s, Q s -> Forall P (fst (mapM f l s)).
Proof.
  induction l as [|a t IH]; intros Hf s Hs; cbn [mapM]; [constructor|].
  unfold bind. destruct (Hf a s (or_introl eq_refl) Hs) as [Hp Hq].
  destruct (f a s) as [b s1]. cbn [fst snd] in *.
  specialize (IH (fun a' s' Hin => Hf a' s' (or_intror Hin)) s1 Hq).
  destruct (mapM f t s1) as [bs s2]. cbn [fst ret] in *. now constructor.
Qed.

Lemma foldM_inv2 {A B : Type} (I : B -> Prop) (Q : Rng -> Prop)
    (f : B -> A -> Rand B) (l : list A) :
  (forall b a s, I b -> Q s -> I (fst (f b a s)) /\ Q (snd (f b a s))) ->
  forall b s, I b -> Q s ->
    I (fst (foldM f l b s)) /\ Q (snd (foldM f l b s)).
Proof.
  intros Hf. induction l as [|a t IH]; intros b s Hb Hs; cbn [foldM].
  - split; assumption.
  - unfold bind. destruct (Hf b a s Hb Hs) as [Hb1 Hs1].
    destruct (f b a s) as [b1 s1]. now apply IH.
Qed.

Lemma initNode_rng_ok (s : Rng) : rng_ok s -> rng_ok (snd (initNode s)).
Proof.
  intros Hs. unfold initNode, bind, Math_random, ret. cbv beta iota.
  destruct (JS.ltb (s 1%nat) 0.01); cbn [negb]; cbv beta iota.
  - intros n. apply Hs.
  - destruct (JS.ltb _ 0.05); cbn; intros n; apply Hs.
Qed.

Lemma injectNode_titanOk params cx cy n c s :
  titanOk n -> titanOk (fst (injectNode params cx cy n c s)).
Proof.
  intros Hn1. unfold injectNode. destruct c as [y x].
  destruct (Rle_dec _ _); [|exact Hn1].
  destruct (pattern params); unfold bind, Math_random, ret; cbn [fst];
    try exact Hn1.
  cbn [set_alpha set_r set_theta isSpark isTitan].
  destruct (isSpark n || negb (isTitan n))%bool eqn:E.
  - intros Ht. cbn in Ht. rewrite Ht in E. simpl in E.
    rewrite orb_false_r in E. destruct (Hn1 Ht) as [_ Hsp].
    rewrite Hsp in E. discriminate E.
  - intros Ht. cbn in Ht. cbn. exact (Hn1 Ht).
Qed.

Lemma reachable_via_all (st : SimState) :
  reachable st -> reachableVia (fun _ => True) st.
Proof.
  induction 1; [apply via_init | apply via_tick | apply via_inject
                | apply via_gateway]; auto.
Qed.

Section NodeInvariant.

Variable P : GridNode -> Prop.

Variable ok : InjectionParams -> Prop.

Hypothesis P_init : forall s, rng_ok s -> P (fst (initNode s)).

Hypothesis P_tick : forall config g X Y i s,
  titanOk (JS.get g i noNode) -> P (JS.get g i noNode) ->
  P (fst (updateNode config g X Y i s)).

Hypothesis P_inject : forall params cx cy n c s,
  ok params -> rng_ok s -> titanOk n -> P n ->
  P (fst (injectNode params cx cy n c s)).

Hypothesis P_titan : forall th tag sig, 0 <= th ->
  P (mkNode (JS.rem th (2 * PI)) 0.0 1.0 1.0 true false tag sig).

Lemma inv_initState (s : Rng) :
  rng_ok s -> Forall P (gridRef (fst (initState s))).
Proof.
  intros Hs. rewrite initState_grid. unfold initGrid.
  apply mapM_Forall_inv with (Q := rng_ok); [|assumption].
  intros _ s0 _ Hs0. split; [now apply P_init | now apply initNode_rng_ok].
Qed.

Lemma inv_updatePhysics config st s :
  gridInv (gridRef st) -> Forall P (gridRef st) ->
  Forall P (gridRef (fst (updatePhysics config st s))).
Proof.
  intros Hinv HP. rewrite updatePhysics_grid.
  apply mapM_Forall_inv with (Q := fun _ => True); [|exact I].
  intros i s0 Hi _. split; [|exact I]. apply range_In in Hi.
  destruct Hinv as [Hlen Hok].
  apply P_tick; apply get_Forall; try assumption; rewrite Hlen; lia.
Qed.

Lemma inv_injectCell params cx cy g y x s :
  ok params -> (Forall titanOk g /\ Forall P g) -> rng_ok s ->
  (Forall titanOk (fst (injectCell params cx cy g y x s)) /\
   Forall P (fst (injectCell params cx cy g y x s))) /\
  rng_ok (snd (injectCell params cx cy g y x s)).
Proof.
  intros Hp [Hok HP] Hs. rewrite injectCell_set. cbn [fst snd].
  split; [|now apply injectNode_rng_ok].
  assert (H : Forall (fun n => titanOk n /\ P n) g).
  { rewrite Forall_forall in *. intros n Hn. split; auto. }
  apply (Forall_set_get (fun n => titanOk n /\ P n)
           (fun n => fst (injectNode params cx cy n (y, x) s)) g
           (cellIdx (y, x)) noNode) in H.
  - split; rewrite Forall_forall in *; intros n Hn; now apply H.
  - intros n [Hn1 Hn2]. split; [|now apply P_inject].
    apply injectNode_titanOk. exact Hn1.
Qed.

Lemma IZR_GOLDEN_nonneg (i : Z) : (0 <= i)%Z -> 0 <= IZR i * GOLDEN_ANGLE.
Proof.
  intros Hi. unfold GOLDEN_ANGLE. pose proof PI_RGT_0.
  apply Rmult_le_pos; [apply IZR_le; lia | lra].
Qed.

Lemma inv_injectPattern params st s :
  ok params -> rng_ok s -> gridInv (gridRef st) -> Forall P (gridRef st) ->
  Forall P (gridRef (fst (injectPattern params st s))).
Proof.
  intros Hp Hs Hinv HP. unfold injectPattern.
  destruct (pattern_eqb (pattern params) elysium).
  - unfold ret. cbn [fst gridRef].
    assert (H : forall l, (forall i, In i l -> (0 <= i)%Z) ->
              forall g, Forall P g ->
              Forall P (fold_left (elysiumStep (clampTarget (targetX params))
                                     (clampTarget (targetY params))) l g)).
    { induction l as [|a t IH]; intros Hl g Hg; cbn [fold_left]; [assumption|].
      apply IH; [intros i Hi; apply Hl; now right|].
      rewrite elysiumStep_unfold. destruct (spiralInGrid _ _ a); [|assumption].
      apply Forall_set; [assumption|]. unfold titanOver.
      apply P_titan. apply IZR_GOLDEN_nonneg. apply Hl. now left. }
    apply H; [|assumption]. intros i Hi. apply range_In in Hi. lia.
  - unfold bind, ret. destruct Hinv as [_ Hok].
    assert (Hrow : forall b y s0,
              Forall titanOk b /\ Forall P b -> rng_ok s0 ->
              (Forall titanOk
                 (fst (foldM (fun g0 x =>
                         injectCell params (clampTarget (targetX params))
                           (clampTarget (targetY params)) g0 y x)
                       (JS.range GRID_SIZE) b s0)) /\
               Forall P
                 (fst (foldM (fun g0 x =>
                         injectCell params (clampTarget (targetX params))
                           (clampTarget (targetY params)) g0 y x)
                       (JS.range GRID_SIZE) b s0))) /\
              rng_ok
                (snd (foldM (fun g0 x =>
                        injectCell params (clampTarget (targetX params))
                          (clampTarget (targetY params)) g0 y x)
                      (JS.range GRID_SIZE) b s0))).
    { intros b y s0 Hb Hs0.
      apply (foldM_inv2 (fun g => Forall titanOk g /\ Forall P g) rng_ok);
        try assumption.
      intros b' x s' Hb' Hs'. now apply inv_injectCell. }
    destruct (foldM_inv2 (fun g => Forall titanOk g /\ Forall P g) rng_ok
                (fun g y => foldM (fun g0 x =>
                    injectCell params (clampTarget (targetX params))
                      (clampTarget (targetY params)) g0 y x)
                  (JS.range GRID_SIZE) g)
                (JS.range GRID_SIZE) Hrow (gridRef st) s (conj Hok HP) Hs)
      as [[_ HP'] _].
    destruct (foldM _ _ (gridRef st) s) as [g' s']. exact HP'.
Qed.

Lemma inv_gateway st s :
  Forall P (gridRef st) ->
  Forall P (gridRef (snd (fst (activateElysiumGateway st s)))).
Proof.
  intros HP. unfold activateElysiumGateway, bind, ret.
  assert (H : forall l, (forall i, In i l -> (0 <= i)%Z) ->
            forall acc s0, Forall P (snd acc) ->
            Forall P (snd (fst (foldM (gatewayStep (GRID_SIZE / 2)
                                         (GRID_SIZE / 2)) l acc s0)))).
  { induction l as [|a t IH]; intros Hl acc s0 Hacc; cbn [foldM];
      [exact Hacc|].
    unfold bind.
    assert (Hstep : Forall P (snd (fst (gatewayStep (GRID_SIZE / 2)
                                          (GRID_SIZE / 2) acc a s0)))).
    { unfold gatewayStep. destruct acc as [manifest g]. cbn [snd] in Hacc.
      unfold bind, Math_random. cbv beta iota.
      destruct (spiralCell _ _ a) as [x y].
      destruct (inGrid x y); unfold ret; cbn [fst snd]; [|exact Hacc].
      apply Forall_set; [assumption|]. apply P_titan.
      apply IZR_GOLDEN_nonneg. apply Hl. now left. }
    destruct (gatewayStep _ _ acc a s0) as [acc1 s1]. cbn [fst snd] in Hstep.
    apply IH; [intros i Hi; apply Hl; now right | assumption]. }
  match goal with |- context [foldM ?f ?l ?b s] =>
    specialize (H l (fun i Hi => proj1 (proj1 (range_In 50 i) Hi)) b s HP);
    destruct (foldM f l b s) as [[m g'] s'] end.
  exact H.
Qed.

Lemma reachableVia_reachable (st : SimState) :
  reachableVia ok st -> reachable st.
Proof.
  induction 1; [apply reach_init | apply reach_tick | apply reach_inject
                | apply reach_gateway]; assumption.
Qed.

Lemma inv_reachableVia (st : SimState) :
  reachableVia ok st -> Forall P (gridRef st).
Proof.
  induction 1 as [s0 Hs0 | config st s0 Hr IH Hs0
                   | params st s0 Hr IH Hs0 Hp | st s0 Hr IH Hs0].
  - now apply inv_initState.
  - apply inv_updatePhysics; [|assumption].
    now apply reachable_inv, reachableVia_reachable.
  - apply inv_injectPattern; try assumption.
    now apply reachable_inv, reachableVia_reachable.
  - now apply inv_gateway.
Qed.

End NodeInvariant.

(* ------------------------------------------------------------------ *)
(** ** The initial grid *)

Lemma initNode_initOk (s : Rng) : rng_ok s -> initOk (fst (initNode s)).
Proof.
  intros Hs. pose proof PI_RGT_0 as Hpi.
  pose proof (Hs 0%nat) as H0. pose proof (Hs 2%nat) as H2.
  pose proof (Hs 3%nat) as H3. pose proof (Hs 4%nat) as H4.
  pose proof (Hs 5%nat) as H5. pose proof (Hs 6%nat) as H6.
  assert (Hth : 0 <= s 0%nat * 2 * PI < 2 * PI).
  { assert (0 <= s 0%nat * PI) by (apply Rmult_le_pos; lra).
    assert (0 < (1 - s 0%nat) * PI) by (apply Rmult_lt_0_compat; lra). lra. }
  unfold initNode, bind, Math_random, ret, initOk. cbv beta iota.
  destruct (JS.ltb (s 1%nat) 0.01); cbn [negb]; cbv beta iota.
  - cbn. unfold TARGET_AMP. repeat split; try lra.
  - destruct (JS.ltb (s 2%nat) 0.05); cbn; unfold TARGET_AMP;
      repeat split; try lra.
Qed.

(** X4.  [initGrid] builds [TOTAL_NODES] nodes; whatever the draws, each
    has its phase in [0, 2 PI), r in [0.657, 0.7572] (within 0.05 of the
    target amplitude, up to a margin of 1e-4), alpha in [0.1, 0.2], no
    tags, and is either a Titan with omega = 0, or a Spark with omega in
    [2, 4], or an ordinary node with omega in [0.75, 1.25]; no node is
    both Titan and Spark. *)
Theorem initGrid_ranges (s : Rng) :
  rng_ok s ->
  length (fst (initGrid s)) = Z.to_nat TOTAL_NODES /\
  Forall initOk (fst (initGrid s)).
Proof.
  intros Hs. unfold initGrid. split.
  - now rewrite mapM_length, range_length.
  - apply mapM_Forall_inv with (Q := rng_ok); [|assumption].
    intros _ s0 _ Hs0.
    split; [now apply initNode_initOk | now apply initNode_rng_ok].
Qed.

(* ------------------------------------------------------------------ *)
(** ** Invariants of every reachable state *)

Lemma injectNode_clampOk params cx cy n c s :
  clampOk n -> clampOk (fst (injectNode params cx cy n c s)).
Proof.
  intros Hn. unfold injectNode. destruct c as [y x].
  destruct (Rle_dec _ _); [|exact Hn].
  destruct (pattern params); unfold bind, Math_random, ret; cbn [fst];
    try exact Hn.
  - unfold clampOk, TARGET_AMP in *. cbn. lra.
  - destruct (_ || _)%bool; unfold clampOk; cbn; lra.
Qed.

Lemma updateNode_clampOk config g X Y i s :
  clampOk (JS.get g i noNode) -> clampOk (fst (updateNode config g X Y i s)).
Proof.
  intros Hn. destruct (isTitan (JS.get g i noNode)) eqn:Ht.
  - rewrite updateNode_titan by assumption. exact Hn.
  - destruct (updateNode_free config g X Y i s Ht) as [Hr [Ha _]].
    split; assumption.
Qed.

Lemma reachable_clampOk (st : SimState) :
  reachable st -> Forall clampOk (gridRef st).
Proof.
  intros Hr.
  apply (inv_reachableVia clampOk (fun _ => True));
    [| | | |now apply reachable_via_all].
  - intros s Hs. destruct (initNode_initOk s Hs) as [_ [H1 [H2 _]]].
    unfold clampOk. lra.
  - intros. now apply updateNode_clampOk.
  - intros. now apply injectNode_clampOk.
  - intros. unfold clampOk. cbn. lra.
Qed.

(** X5.  In every reachable state (initialisation, then ticks under any
    configuration, injections of any pattern and gateway activations)
    the grid has exactly [TOTAL_NODES = GRID_SIZE * GRID_SIZE] cells and
    every node has r in [0.1, 2.0] and alpha in [-1.0, 2.0]. *)
Theorem reachable_clamped (st : SimState) :
  reachable st ->
  Z.of_nat (length (gridRef st)) = (GRID_SIZE * GRID_SIZE)%Z /\
  forall i, inRange i -> clampOk (JS.get (gridRef st) i noNode).
Proof.
  intros Hr. destruct (reachable_inv st Hr) as [Hlen _].
  split.
  - rewrite Hlen, <- TOTAL_NODES_grid. pose proof TOTAL_NODES_pos. lia.
  - intros i Hi. apply get_Forall; [now apply reachable_clampOk|].
    unfold inRange in Hi. rewrite Hlen. lia.
Qed.

(** X6.  In every reachable state no node is both Titan and Spark, so
    the test [isSpark || !isTitan] of the unity pattern singles out
    exactly the nodes that are not Titans. *)
Theorem reachable_titan_not_spark (st : SimState) (i : Z) :
  reachable st -> inRange i ->
  let n := JS.get (gridRef st) i noNode in
  (isTitan n && isSpark n)%bool = false /\
  (isSpark n || negb (isTitan n))%bool = negb (isTitan n).
Proof.
  intros Hr Hi n. pose proof (gridInv_get _ i (reachable_inv st Hr)) as Hok.
  fold n in Hok. unfold titanOk in Hok.
  destruct (isTitan n); [|split; [reflexivity | apply orb_true_r]].
  destruct (Hok eq_refl) as [_ Hs]. rewrite Hs. split; reflexivity.
Qed.


(* ------------------------------------------------------------------ *)
(** ** The history and the step counter *)



Lemma injectPattern_step params st s :
  stepRef (fst (injectPattern params st s)) = stepRef st.
Proof.
  unfold injectPattern. destruct (pattern_eqb _ _); [reflexivity|].
  unfold bind, ret. now destruct (foldM _ _ _ s).
Qed.

Lemma activateElysiumGateway_step st s :
  stepRef (snd (fst (activateElysiumGateway st s))) = stepRef st.
Proof.
  unfold activateElysiumGateway, bind, ret.
  now destruct (foldM _ _ _ s) as [[m g] s'].
Qed.


(* ------------------------------------------------------------------ *)
(** ** What a tick leaves alone, and what it repairs *)

(** X8.  A tick changes neither flag nor tag of any node: [isTitan],
    [isSpark], [identity] and [dataSignature] of every cell are after
    the tick what they were before it. *)
Theorem tick_keeps_flags (config : SimulationConfig) (st : SimState)
    (s : Rng) (i : Z) :
  inRange i ->
  let n := JS.get (gridRef st) i noNode in
  let n' := JS.get (gridRef (fst (updatePhysics config st s))) i noNode in
  isTitan n' = isTitan n /\ isSpark n' = isSpark n /\
  identity n' = identity n /\ dataSignature n' = dataSignature n.
Proof.
  intros Hi n n'. subst n n'.
  destruct (updatePhysics_node (fun _ => True) config st s i) as [s' [_ E]];
    auto.
  rewrite E. destruct (isTitan (JS.get (gridRef st) i noNode)) eqn:Ht.
  - rewrite updateNode_titan by assumption. cbn. rewrite Ht. repeat split.
  - destruct (updateNode_free config (gridRef st)
                (projX (projectionPass (gridRef st)))
                (projY (projectionPass (gridRef st))) i s' Ht)
      as [_ [_ [_ [H1 [H2 [H3 H4]]]]]].
    repeat split; assumption.
Qed.

(** X9.  In every reachable state, whatever injections came before
    (the phase-shifting ones can leave phases below 0), a tick brings
    every node that is not a Titan back to a phase in [0, 2 PI] and
    leaves the phase of every Titan as it was: after a tick the only
    phases outside [0, 2 PI] are those Titans held before it. *)
Theorem tick_repairs_free_nodes (config : SimulationConfig) (st : SimState)
    (s : Rng) (i : Z) :
  reachable st -> inRange i ->
  let n := JS.get (gridRef st) i noNode in
  let n' := JS.get (gridRef (fst (updatePhysics config st s))) i noNode in
  (isTitan n = false -> thetaWrapped n') /\
  (isTitan n = true -> theta n' = theta n).
Proof.
  intros Hr Hi n n'. subst n n'.
  destruct (updatePhysics_node (fun _ => True) config st s i) as [s' [_ E]];
    auto.
  rewrite E. split; intros Ht.
  - destruct (updateNode_free config (gridRef st)
                (projX (projectionPass (gridRef st)))
                (projY (projectionPass (gridRef st))) i s' Ht)
      as [_ [_ [Hth _]]].
    unfold thetaWrapped. lra.
  - rewrite updateNode_titan by exact Ht.
    destruct (gridInv_get _ i (reachable_inv st Hr) Ht) as [Hom _].
    cbn [theta set_theta]. rewrite Hom. lra.
Qed.

(* ------------------------------------------------------------------ *)
(** ** The wrap bound under commands that cannot shift backwards *)

Lemma injectNode_thetaWrapped params cx cy n c s :
  wrapSafe params -> rng_ok s -> thetaWrapped n ->
  thetaWrapped (fst (injectNode params cx cy n c s)).
Proof.
  intros Hp Hs Hn. pose proof PI_RGT_0 as Hpi. pose proof (Hs 0%nat) as H0.
  unfold injectNode. destruct c as [y x].
  destruct (Rle_dec _ _); [|exact Hn].
  unfold thetaWrapped in *.
  destruct Hp as [Hp | [Hp | [Hp | [Hp Hint]]]]; rewrite Hp;
    unfold bind, Math_random, ret; cbn [fst].
  - cbn. lra.
  - destruct (_ || _)%bool; cbn; lra.
  - cbn [theta set_theta].
    pose proof (rem_nonneg (theta n + 0) (2 * PI) ltac:(lra) ltac:(lra)). lra.
  - cbn [theta set_theta].
    assert (0 <= s 0%nat * 2 * PI * intensity params).
    { apply Rmult_le_pos; [|assumption].
      apply Rmult_le_pos; [lra|lra]. }
    pose proof (rem_nonneg (theta n + s 0%nat * 2 * PI * intensity params)
                  (2 * PI) ltac:(lra) ltac:(lra)).
    lra.
Qed.

Lemma updateNode_thetaWrapped config g X Y i s :
  titanOk (JS.get g i noNode) -> thetaWrapped (JS.get g i noNode) ->
  thetaWrapped (fst (updateNode config g X Y i s)).
Proof.
  intros Hok Hth. destruct (isTitan (JS.get g i noNode)) eqn:Ht.
  - rewrite updateNode_titan by assumption. destruct (Hok Ht) as [Hom _].
    unfold thetaWrapped in *. cbn [theta set_theta]. rewrite Hom. lra.
  - destruct (updateNode_free config g X Y i s Ht) as [_ [_ [H _]]].
    unfold thetaWrapped. lra.
Qed.

(** X10.  As long as the only injections are stabilize, unity, elysium,
    or chaos with a non-negative intensity, every node of every state
    reached by ticks, such injections and gateway activations has its
    phase in [0, 2 PI]. *)
Theorem wrap_kept_by_safe_commands (st : SimState) (i : Z) :
  reachableVia wrapSafe st -> inRange i ->
  thetaWrapped (JS.get (gridRef st) i noNode).
Proof.
  intros Hr Hi.
  assert (HF : Forall thetaWrapped (gridRef st)).
  { apply (inv_reachableVia thetaWrapped wrapSafe); [| | | |assumption].
    - intros s Hs. pose proof (initNode_thetaOk s Hs) as H.
      unfold thetaOk in H. unfold thetaWrapped. lra.
    - intros. now apply updateNode_thetaWrapped.
    - intros. now apply injectNode_thetaWrapped.
    - intros th tag sig Hth. unfold thetaWrapped. cbn [theta].
      pose proof (rem_nonneg th (2 * PI) Hth two_PI_pos). lra. }
  destruct (reachable_inv st (reachableVia_reachable wrapSafe st Hr)) as [Hlen _].
  apply get_Forall; [assumption|]. unfold inRange in Hi. rewrite Hlen. lia.
Qed.

(* ------------------------------------------------------------------ *)
(** ** Injections, cell by cell *)

Lemma grid_ext (g1 g2 : list GridNode) :
  length g1 = Z.to_nat TOTAL_NODES -> length g2 = Z.to_nat TOTAL_NODES ->
  (forall i, inRange i -> JS.get g1 i noNode = JS.get g2 i noNode) ->
  g1 = g2.
Proof.
  intros H1 H2 H. apply nth_ext with (d := noNode) (d' := noNode);
    [congruence|].
  intros k Hk. specialize (H (Z.of_nat k)).
  rewrite !get_nth, Nat2Z.id in H by lia. apply H. unfold inRange. lia.
Qed.

Lemma injectPattern_length params st s :
  length (gridRef st) = Z.to_nat TOTAL_NODES ->
  length (gridRef (fst (injectPattern params st s))) = Z.to_nat TOTAL_NODES.
Proof.
  intros Hlen. unfold injectPattern.
  destruct (pattern_eqb (pattern params) elysium).
  - unfold ret. cbn [fst gridRef].
    destruct (elysium_fold_spec (clampTarget (targetX params))
                (clampTarget (targetY params)) (JS.range 50) (gridRef st) Hlen)
      as [Hl _].
    now rewrite Hl.
  - unfold bind. rewrite foldM_nested. fold cells.
    destruct (injectLoop_spec (fun _ => True) params
                (clampTarget (targetX params)) (clampTarget (targetY params))
                cells (fun _ _ _ _ => I) cells_NoDup_idx (gridRef st) s I)
      as [Hl _].
    { intros c Hc. pose proof (cellIdx_range c Hc) as Hr.
      unfold inRange in Hr. rewrite Hlen. lia. }
    destruct (foldM _ cells (gridRef st) s) as [g' s1]. cbn [fst] in *.
    unfold ret. cbn [fst gridRef]. now rewrite Hl.
Qed.

(** The cell-by-cell description with the distance named. *)
Lemma injectPattern_at params st s c :
  pattern params <> elysium ->
  length (gridRef st) = Z.to_nat TOTAL_NODES -> In c cells ->
  exists s',
    JS.get (gridRef (fst (injectPattern params st s))) (cellIdx c) noNode =
    fst (injectNode params (clampTarget (targetX params))
           (clampTarget (targetY params))
           (JS.get (gridRef st) (cellIdx c) noNode) c s').
Proof.
  intros Hp Hlen Hc.
  destruct (injectPattern_cell (fun _ => True) params st s c Hp
              (fun _ _ _ _ => I) Hlen I Hc) as [s' [_ E]].
  now exists s'.
Qed.

(** X11.  An injection of any pattern but elysium leaves every cell
    farther from the clamped target than the radius exactly as it was;
    with a negative radius it leaves the whole grid as it was. *)
Theorem inject_outside_radius (params : InjectionParams) (st : SimState)
    (s : Rng) :
  pattern params <> elysium ->
  length (gridRef st) = Z.to_nat TOTAL_NODES ->
  (forall c, In c cells -> radius params < cellDist params c ->
     JS.get (gridRef (fst (injectPattern params st s))) (cellIdx c) noNode
     = JS.get (gridRef st) (cellIdx c) noNode) /\
  (radius params < 0 -> gridRef (fst (injectPattern params st s)) = gridRef st).
Proof.
  intros Hp Hlen.
  assert (Hfar : forall c, In c cells -> radius params < cellDist params c ->
            JS.get (gridRef (fst (injectPattern params st s))) (cellIdx c) noNode
            = JS.get (gridRef st) (cellIdx c) noNode).
  { intros c Hc Hd. destruct (injectPattern_at params st s c Hp Hlen Hc)
      as [s' E].
    rewrite E. unfold injectNode, cellDist in *. destruct c as [y x].
    cbn [fst snd] in Hd. destruct (Rle_dec _ _); [lra | reflexivity]. }
  split; [exact Hfar|].
  intros Hneg. apply grid_ext; [now apply injectPattern_length | assumption|].
  intros i Hi. destruct (cell_of_index i Hi) as [c [Hc <-]].
  apply Hfar; [assumption|]. unfold cellDist.
  eapply Rlt_le_trans; [exact Hneg | apply sqrt_pos].
Qed.

(** X12.  A pulse, spiral or chaos injection changes nothing but
    phases: omega, r, alpha, both flags and both tags of every cell are
    after the injection what they were before. *)
Theorem shift_patterns_touch_theta_only (params : InjectionParams)
    (st : SimState) (s : Rng) (i : Z) :
  shiftPattern (pattern params) ->
  length (gridRef st) = Z.to_nat TOTAL_NODES -> inRange i ->
  let n := JS.get (gridRef st) i noNode in
  let n' := JS.get (gridRef (fst (injectPattern params st s))) i noNode in
  omega n' = omega n /\ r n' = r n /\ alpha n' = alpha n /\
  isTitan n' = isTitan n /\ isSpark n' = isSpark n /\
  identity n' = identity n /\ dataSignature n' = dataSignature n.
Proof.
  intros Hp Hlen Hi n n'. subst n n'.
  destruct (cell_of_index i Hi) as [c [Hc <-]].
  assert (Hne : pattern params <> elysium).
  { destruct Hp as [E | [E | E]]; rewrite E; discriminate. }
  destruct (injectPattern_at params st s c Hne Hlen Hc) as [s' E].
  rewrite E. unfold injectNode. destruct c as [y x].
  destruct (Rle_dec _ _); [|repeat split].
  destruct Hp as [Hp | [Hp | Hp]]; rewrite Hp;
    unfold bind, Math_random, ret; cbn; repeat split.
Qed.

(** X13.  A unity injection sets, in every cell within the radius of
    the clamped target, the phase to 30 degrees, r to 1.0 and alpha to
    1.0; it sets omega to 1.0 unless the node is a Titan that is not a
    Spark, whose omega it keeps; flags and tags stay. *)
Theorem unity_effect (params : InjectionParams) (st : SimState) (s : Rng)
    (c : Z * Z) :
  pattern params = unity ->
  length (gridRef st) = Z.to_nat TOTAL_NODES -> In c cells ->
  cellDist params c <= radius params ->
  let n := JS.get (gridRef st) (cellIdx c) noNode in
  let n' := JS.get (gridRef (fst (injectPattern params st s))) (cellIdx c)
                   noNode in
  theta n' = 30 * (PI / 180) /\ r n' = 1 /\ alpha n' = 1 /\
  omega n' = (if (isSpark n || negb (isTitan n))%bool then 1 else omega n) /\
  isTitan n' = isTitan n /\ isSpark n' = isSpark n /\
  identity n' = identity n /\ dataSignature n' = dataSignature n.
Proof.
  intros Hp Hlen Hc Hd n n'. subst n n'.
  assert (Hne : pattern params <> elysium) by (rewrite Hp; discriminate).
  destruct (injectPattern_at params st s c Hne Hlen Hc) as [s' E].
  rewrite E. unfold injectNode, cellDist in *. destruct c as [y x].
  cbn [fst snd] in Hd. destruct (Rle_dec _ _); [|lra].
  rewrite Hp. unfold ret. cbn [fst].
  cbn [set_alpha set_r set_theta isSpark isTitan].
  destruct (isSpark _ || negb (isTitan _))%bool; cbn; repeat split; lra.
Qed.

Lemma injectNode_fixed_twice params cx cy n c s1 s2 :
  pattern params = stabilize \/ pattern params = unity ->
  fst (injectNode params cx cy (fst (injectNode params cx cy n c s1)) c s2)
  = fst (injectNode params cx cy n c s1).
Proof.
  intros Hp. unfold injectNode. destruct c as [y x].
  destruct (Rle_dec _ _) as [Hd | Hd].
  - destruct Hp as [Hp | Hp]; rewrite Hp; unfold ret; cbn [fst].
    + reflexivity.
    + cbn [set_alpha set_r set_theta isSpark isTitan].
      destruct (isSpark n || negb (isTitan n))%bool eqn:E; cbn;
        rewrite E; reflexivity.
  - reflexivity.
Qed.

(** X14.  Stabilize and unity injections are idempotent: issuing the
    same command a second time leaves the grid as the first left it. *)
Theorem reset_patterns_idempotent (params : InjectionParams) (st : SimState)
    (s1 s2 : Rng) :
  pattern params = stabilize \/ pattern params = unity ->
  length (gridRef st) = Z.to_nat TOTAL_NODES ->
  gridRef (fst (injectPattern params (fst (injectPattern params st s1)) s2))
  = gridRef (fst (injectPattern params st s1)).
Proof.
  intros Hp Hlen.
  assert (Hne : pattern params <> elysium).
  { destruct Hp as [E | E]; rewrite E; discriminate. }
  pose proof (injectPattern_length params st s1 Hlen) as Hlen1.
  apply grid_ext; [now apply injectPattern_length | assumption|].
  intros i Hi. destruct (cell_of_index i Hi) as [c [Hc <-]].
  destruct (injectPattern_at params (fst (injectPattern params st s1)) s2 c
              Hne Hlen1 Hc) as [sb Eb].
  destruct (injectPattern_at params st s1 c Hne Hlen Hc) as [sa Ea].
  rewrite Eb, Ea. now apply injectNode_fixed_twice.
Qed.

Lemma set_theta_same (n : GridNode) : set_theta n (theta n) = n.
Proof. now destruct n. Qed.

(** X15.  With intensity 0 a pulse, spiral or chaos injection leaves a
    grid whose phases are all in [0, 2 PI) exactly as it was. *)
Theorem zero_intensity_is_neutral (params : InjectionParams) (st : SimState)
    (s : Rng) :
  shiftPattern (pattern params) -> intensity params = 0 ->
  length (gridRef st) = Z.to_nat TOTAL_NODES ->
  Forall thetaOk (gridRef st) ->
  gridRef (fst (injectPattern params st s)) = gridRef st.
Proof.
  intros Hp Hz Hlen Hth.
  assert (Hne : pattern params <> elysium).
  { destruct Hp as [E | [E | E]]; rewrite E; discriminate. }
  apply grid_ext; [now apply injectPattern_length | assumption|].
  intros i Hi. destruct (cell_of_index i Hi) as [c [Hc <-]].
  destruct (injectPattern_at params st s c Hne Hlen Hc) as [s' E].
  rewrite E.
  assert (Hn : thetaOk (JS.get (gridRef st) (cellIdx c) noNode)).
  { apply get_Forall; [assumption|].
    pose proof (cellIdx_range c Hc) as Hr. unfold inRange in Hr.
    rewrite Hlen. lia. }
  unfold thetaOk in Hn. set (n := JS.get (gridRef st) (cellIdx c) noNode) in *.
  unfold injectNode. destruct c as [y x].
  destruct (Rle_dec _ _); [|reflexivity].
  destruct Hp as [Hp | [Hp | Hp]]; rewrite Hp, Hz;
    unfold bind, Math_random, ret; cbn [fst];
    rewrite Rmult_0_r, Rplus_0_r, rem_small by lra;
    apply set_theta_same.
Qed.

(** X16.  An injection of any pattern changes neither the history of
    samples nor the step counter, and leaves the grid with its
    [TOTAL_NODES] cells. *)
Theorem inject_keeps_history (params : InjectionParams) (st : SimState)
    (s : Rng) :
  length (gridRef st) = Z.to_nat TOTAL_NODES ->
  metricsRef (fst (injectPattern params st s)) = metricsRef st /\
  stepRef (fst (injectPattern params st s)) = stepRef st /\
  length (gridRef (fst (injectPattern params st s))) = Z.to_nat TOTAL_NODES.
Proof.
  intros Hlen. split; [apply injectPattern_metrics|].
  split; [apply injectPattern_step | now apply injectPattern_length].
Qed.

(* ------------------------------------------------------------------ *)
(** ** Elysium from any target, and the gateway *)

Lemma titanOver_tags (old old' : GridNode) (i : Z) :
  identity old = identity old' -> dataSignature old = dataSignature old' ->
  titanOver old i = titanOver old' i.
Proof. intros H1 H2. unfold titanOver. now rewrite H1, H2. Qed.

(** After the loop over the points [l], a written cell holds the Titan
    of one of the in-bounds points that land on it, built over the tags
    the cell had before the loop. *)
Lemma elysium_fold_origin cx cy (l : list Z) :
  forall g, length g = Z.to_nat TOTAL_NODES ->
  forall j, In j (map (spiralIdx cx cy) (filter (spiralInGrid cx cy) l)) ->
  exists i, In i l /\ spiralInGrid cx cy i = true /\
            spiralIdx cx cy i = j /\
            JS.get (fold_left (elysiumStep cx cy) l g) j noNode
            = titanOver (JS.get g j noNode) i.
Proof.
  induction l as [|a t IH]; intros g Hlen j Hj; cbn [fold_left filter] in *.
  - destruct Hj.
  - rewrite elysiumStep_unfold.
    destruct (spiralInGrid cx cy a) eqn:Ha.
    + pose proof (spiralIdx_range cx cy a Ha) as Hr. unfold inRange in Hr.
      set (g1 := JS.set g (spiralIdx cx cy a)
                   (titanOver (JS.get g (spiralIdx cx cy a) noNode) a)).
      assert (Hlen1 : length g1 = Z.to_nat TOTAL_NODES)
        by (unfold g1; now rewrite set_length).
      destruct (in_dec Z.eq_dec j
                  (map (spiralIdx cx cy) (filter (spiralInGrid cx cy) t)))
        as [Hjt | Hjt].
      * destruct (IH g1 Hlen1 j Hjt) as [i [Hi [Hin [Hidx E]]]].
        exists i. split; [now right|]. split; [assumption|].
        split; [assumption|]. rewrite E.
        assert (Hj0 : (0 <= j)%Z).
        { pose proof (spiralIdx_range cx cy i Hin) as Hri.
          unfold inRange in Hri. lia. }
        destruct (Z.eq_dec (spiralIdx cx cy a) j) as [Ej | Ej].
        -- unfold g1. rewrite Ej, get_set_same by lia.
           apply titanOver_tags; reflexivity.
        -- unfold g1. now rewrite get_set_other.
      * cbn [map] in Hj. destruct Hj as [Ej | Hj]; [|contradiction].
        exists a. split; [now left|]. split; [assumption|].
        split; [assumption|].
        destruct (elysium_fold_spec cx cy t g1 Hlen1) as [_ [_ Hout]].
        rewrite Hout by (assumption || lia). unfold g1.
        rewrite <- Ej. apply get_set_same. lia.
    + destruct (IH g Hlen j Hj) as [i [Hi H]]. exists i.
      split; [now right | exact H].
Qed.

(** X17.  An elysium injection aimed anywhere overwrites at most 50
    cells, all inside the grid.  Each written cell becomes the Titan of
    an in-bounds point [i < 50] of the spiral landing on it: omega 0,
    r 1, alpha 1, no Spark, phase [i * GOLDEN_ANGLE mod 2 PI] in
    [0, 2 PI), tags as before.  Every other cell is left as it was. *)
Theorem elysium_any_target (params : InjectionParams) (st : SimState)
    (s : Rng) :
  pattern params = elysium ->
  length (gridRef st) = Z.to_nat TOTAL_NODES ->
  let cx := clampTarget (targetX params) in
  let cy := clampTarget (targetY params) in
  let g' := gridRef (fst (injectPattern params st s)) in
  (length (placedIndices cx cy) <= 50)%nat /\
  (forall j, In j (placedIndices cx cy) ->
     inRange j /\
     exists i, (0 <= i < 50)%Z /\ spiralIdx cx cy i = j /\
       JS.get g' j noNode = titanOver (JS.get (gridRef st) j noNode) i /\
       placedTitan (JS.get g' j noNode) /\ thetaOk (JS.get g' j noNode)) /\
  (forall j, inRange j -> ~ In j (placedIndices cx cy) ->
     JS.get g' j noNode = JS.get (gridRef st) j noNode).
Proof.
  intros Hp Hlen cx cy g'.
  assert (Hg : g' = fold_left (elysiumStep cx cy) (JS.range 50) (gridRef st)).
  { subst g'. now rewrite pattern_elysium_grid. }
  split; [|split].
  - unfold placedIndices, inBoundsPoints. rewrite length_map.
    eapply Nat.le_trans; [apply filter_length_le|].
    rewrite range_length. apply Nat.le_refl.
  - intros j Hj. unfold placedIndices, inBoundsPoints in Hj.
    destruct (elysium_fold_origin cx cy (JS.range 50) (gridRef st) Hlen j Hj)
      as [i [Hi [Hin [Hidx E]]]].
    apply range_In in Hi. split.
    + rewrite <- Hidx. now apply spiralIdx_range.
    + exists i. rewrite Hg, E.
      split; [lia|]. split; [assumption|]. split; [reflexivity|].
      split; [apply titanOver_placed | apply titanOver_thetaOk; lia].
  - intros j Hj Hnj. rewrite Hg.
    destruct (elysium_fold_spec cx cy (JS.range 50) (gridRef st) Hlen)
      as [_ [_ Hout]].
    apply Hout; [unfold inRange in Hj; lia | exact Hnj].
Qed.

Lemma Forall2_set_nat {A B : Type} (Rel : A -> B -> Prop) (a : list A)
    (b : list B) (i : nat) (v : A) (w : B) :
  Forall2 Rel a b -> Rel v w ->
  Forall2 Rel (JS.set_nat a i v) (JS.set_nat b i w).
Proof.
  intros H Hvw. revert i. induction H as [|x y a b Hxy Hab IH]; intros [|i];
    simpl; constructor; auto.
Qed.

Lemma Forall2_set {A B : Type} (Rel : A -> B -> Prop) (a : list A)
    (b : list B) (i : Z) (v : A) (w : B) :
  Forall2 Rel a b -> Rel v w -> Forall2 Rel (JS.set a i v) (JS.set b i w).
Proof.
  intros H Hvw. unfold JS.set. destruct (i <? 0)%Z; [assumption|].
  now apply Forall2_set_nat.
Qed.

Lemma sameCore_refl (n : GridNode) : sameCore n n.
Proof. unfold sameCore. repeat split. Qed.

Lemma gateway_centre : IZR (GRID_SIZE / 2) = 36.
Proof. rewrite GRID_SIZE_val. reflexivity. Qed.

(** X18.  Activating the gateway has, on the phase, frequency,
    amplitude, gain and flags of every cell, the effect of an elysium
    injection aimed at the centre cell (36, 36); it differs only in the
    tags it attaches, and like an injection it keeps the history and the
    step counter. *)
Theorem gateway_is_centre_elysium (st : SimState) (s s' : Rng) :
  Forall2 sameCore
    (gridRef (snd (fst (activateElysiumGateway st s))))
    (gridRef (fst (injectPattern centreElysium st s'))) /\
  metricsRef (snd (fst (activateElysiumGateway st s))) = metricsRef st /\
  stepRef (snd (fst (activateElysiumGateway st s))) = stepRef st.
Proof.
  split; [|split; [apply activateElysiumGateway_metrics
                  | apply activateElysiumGateway_step]].
  rewrite pattern_elysium_grid by reflexivity.
  cbn [targetX targetY centreElysium].
  rewrite !clampTarget_id by (rewrite GRID_SIZE_val; simpl; lra).
  unfold activateElysiumGateway, bind, ret.
  assert (H : forall l acc g2 s0,
            Forall2 sameCore (snd acc) g2 ->
            Forall2 sameCore
              (snd (fst (foldM (gatewayStep (GRID_SIZE / 2) (GRID_SIZE / 2))
                           l acc s0)))
              (fold_left (elysiumStep 36 36) l g2)).
  { induction l as [|a t IH]; intros acc g2 s0 Hacc; cbn [foldM fold_left];
      [exact Hacc|].
    unfold bind.
    assert (Hstep : Forall2 sameCore
              (snd (fst (gatewayStep (GRID_SIZE / 2) (GRID_SIZE / 2) acc a s0)))
              (elysiumStep 36 36 g2 a)).
    { unfold gatewayStep, elysiumStep. destruct acc as [manifest g1].
      cbn [snd] in Hacc. unfold bind, Math_random. cbv beta iota.
      rewrite gateway_centre.
      destruct (spiralCell 36 36 a) as [x y].
      destruct (inGrid x y); unfold ret; cbn [fst snd]; [|exact Hacc].
      apply Forall2_set; [assumption|].
      unfold sameCore, titanOver. cbn. repeat split. }
    destruct (gatewayStep _ _ acc a s0) as [acc1 s1]. cbn [fst snd] in Hstep.
    now apply IH. }
  match goal with |- context [foldM ?f ?l ?b s] =>
    specialize (H l b (gridRef st) s);
    destruct (foldM f l b s) as [[m g'] s1] end.
  cbn [fst snd gridRef] in *. apply H.
  clear. induction (gridRef st); constructor; [apply sameCore_refl | assumption].
Qed.

(* ------------------------------------------------------------------ *)
(** ** When the recorded entropy vanishes *)

Lemma binIndex_nonneg_range (th : R) :
  0 <= th -> In (binIndex th) (JS.range 36).
Proof.
  intros Hth. apply range_In. unfold binIndex. pose proof PI_RGT_0.
  assert (0 <= th / (2 * PI) * 36).
  { apply Rmult_le_pos; [|lra]. apply Rmult_le_pos; [assumption|].
    apply Rlt_le, Rinv_0_lt_compat. lra. }
  pose proof (floor_nonneg _ H0). lia.
Qed.

(** X19.  Provided no phase of the grid a tick stores is negative (a
    negative phase is counted in no bin), the entropy the tick records
    is 0 exactly when all the nodes of that grid fall into one bin of
    the histogram. *)
Theorem entropy_zero_iff_one_bin (config : SimulationConfig) (st : SimState)
    (s : Rng) :
  length (gridRef st) = Z.to_nat TOTAL_NODES ->
  let st' := fst (updatePhysics config st s) in
  (forall n, In n (gridRef st') -> 0 <= theta n) ->
  exists m,
    metricsRef st' = JS.slice_last 100 (metricsRef st) ++ [m] /\
    (entropy m = 0 <->
     exists b, forall n, In n (gridRef st') -> binIndex (theta n) = b).
Proof.
  intros Hlen st' Hpos.
  eexists. split; [apply (tick_sample config st s Hlen)|].
  cbn [entropy].
  assert (Hlen' : length (gridRef st') = Z.to_nat TOTAL_NODES)
    by (subst st'; apply updatePhysics_length).
  fold st'. clearbody st'. split.
  - intros H0.
    destruct (gridRef st') as [|n0 g] eqn:Eg.
    { exists 0%Z. intros n []. }
    exists (binIndex (theta n0)). intros n Hn.
    destruct (Z.eq_dec (binIndex (theta n)) (binIndex (theta n0)))
      as [E | Hne]; [exact E | exfalso].
    assert (Hk : In (binIndex (theta n0)) (JS.range 36)).
    { apply binIndex_nonneg_range, Hpos. now left. }
    pose proof (entropy_two_bins (phases (n0 :: g)) _ Hk) as Hgt.
    rewrite H0 in Hgt. apply (Rlt_irrefl 0), Hgt. split.
    + pose proof (binCount_ge1 (phases (n0 :: g)) (theta n0) _
                    ltac:(now left) eq_refl). lia.
    + apply (binCount_lt_length (phases (n0 :: g)) (theta n)).
      * unfold phases. now apply in_map.
      * exact Hne.
  - intros [b Hb]. apply entropy_single_bin with (b := b).
    intros th Hth. unfold phases in Hth. apply in_map_iff in Hth.
    destruct Hth as [n [<- Hn]]. now apply Hb.
Qed.

(* ------------------------------------------------------------------ *)
(** ** The unity shortcut of the interpreter *)

Lemma half_grid : IZR (JS.floor (IZR GRID_SIZE / 2)) = 36.
Proof.
  rewrite GRID_SIZE_val. rewrite (floor_unique (72 / 2) 36); [reflexivity|].
  simpl. lra.
Qed.

(** X20.  The unity command the interpreter returns for its key phrases
    reaches the whole grid: whatever the state and wherever the node,
    after its injection the node has phase 30 degrees, r 1 and
    alpha 1. *)
Theorem unity_shortcut_aligns (st : SimState) (s : Rng) (i : Z) :
  length (gridRef st) = Z.to_nat TOTAL_NODES -> inRange i ->
  let n' := JS.get (gridRef (fst (injectPattern unityShortcut st s))) i
                   noNode in
  theta n' = 30 * (PI / 180) /\ r n' = 1 /\ alpha n' = 1.
Proof.
  intros Hlen Hi n'. subst n'.
  assert (Hne : pattern unityShortcut <> elysium) by discriminate.
  destruct (cell_of_index i Hi) as [c [Hc <-]].
  destruct (injectPattern_at unityShortcut st s c Hne Hlen Hc) as [s1 E].
  rewrite E. unfold injectNode. destruct c as [y x].
  cbn [targetX targetY radius pattern unityShortcut].
  rewrite half_grid.
  rewrite !clampTarget_id by (rewrite GRID_SIZE_val; simpl; lra).
  pose proof (covers_centre y x Hc) as Hd. rewrite GRID_SIZE_val.
  destruct (Rle_dec _ _); [|lra].
  unfold ret. cbn [fst]. cbn [set_alpha set_r set_theta isSpark isTitan].
  destruct (isSpark _ || negb (isTitan _))%bool; cbn; repeat split; lra.
Qed.

(* ------------------------------------------------------------------ *)
(** ** A grid of frozen anchors *)

(** A tick leaves a grid of frozen Titans as it is. *)
Lemma anchors_tick_fixed config st s :
  length (gridRef st) = Z.to_nat TOTAL_NODES ->
  (forall n, In n (gridRef st) -> isTitan n = true /\ omega n = 0) ->
  gridRef (fst (updatePhysics config st s)) = gridRef st.
Proof.
  intros Hlen Hall.
  apply grid_ext; [apply updatePhysics_length | assumption|].
  intros i Hi.
  destruct (updatePhysics_node (fun _ => True) config st s i) as [s' [_ E]];
    auto.
  rewrite E.
  assert (Hin : In (JS.get (gridRef st) i noNode) (gridRef st)).
  { unfold inRange in Hi. rewrite get_nth by lia. apply nth_In. lia. }
  destruct (Hall _ Hin) as [Ht Ho].
  rewrite updateNode_titan by exact Ht. rewrite Ho.
  replace (theta (JS.get (gridRef st) i noNode) + 0 * dt config * 0.1)
    with (theta (JS.get (gridRef st) i noNode)) by lra.
  apply set_theta_same.
Qed.

(* ------------------------------------------------------------------ *)
(** ** The canvas *)

Lemma normalizedAmp_range (n : GridNode) : 0 <= normalizedAmp n <= 2.
Proof.
  unfold normalizedAmp, Rmin, Rmax. repeat destruct (Rle_dec _ _); lra.
Qed.

Lemma normalizedAmp_mono (n m : GridNode) :
  r n <= r m -> normalizedAmp n <= normalizedAmp m.
Proof.
  intros H. unfold normalizedAmp.
  assert (r n / 0.7071 <= r m / 0.7071).
  { unfold Rdiv. apply Rmult_le_compat_r; [|assumption].
    apply Rlt_le, Rinv_0_lt_compat. lra. }
  unfold Rmin, Rmax. repeat destruct (Rle_dec _ _); lra.
Qed.

(** X21.  The lightness a node is drawn with lies between 5 and 95
    percent whatever the node holds; a Titan is drawn at exactly 80, a
    node that is neither Titan nor Spark at 80 at most; between two
    nodes with the same flags the one with the larger amplitude is at
    least as light. *)
Theorem lightness_bounds (n : GridNode) :
  5 <= lightnessValue n <= 95 /\
  (isTitan n = true -> lightnessValue n = 80) /\
  (isTitan n = false -> isSpark n = false -> lightnessValue n <= 80) /\
  (forall m, isTitan m = isTitan n -> isSpark m = isSpark n ->
     r n <= r m -> lightnessValue n <= lightnessValue m).
Proof.
  pose proof (normalizedAmp_range n) as Hn.
  split; [|split; [|split]].
  - unfold lightnessValue, Rmin, Rmax. repeat destruct (Rle_dec _ _); lra.
  - intros Ht. unfold lightnessValue. rewrite Ht.
    unfold Rmin, Rmax. repeat destruct (Rle_dec _ _); lra.
  - intros Ht Hs. unfold lightnessValue. rewrite Ht, Hs.
    unfold Rmin, Rmax. repeat destruct (Rle_dec _ _); lra.
  - intros m Ht Hs Hr. pose proof (normalizedAmp_mono n m Hr) as Hm.
    unfold lightnessValue. rewrite Ht, Hs.
    destruct (isTitan n); [lra|].
    destruct (isSpark n); unfold Rmin, Rmax;
      repeat destruct (Rle_dec _ _); lra.
Qed.

(** X22.  In every reachable state the lower clamp of the lightness
    never fires: a node that is not a Titan is drawn strictly above the
    5 percent floor, at 40 * min(r / 0.7071, 2) when it is not a Spark
    and at min(60 * min(r / 0.7071, 2), 95) when it is one. *)
Theorem reachable_lightness (st : SimState) (i : Z) :
  reachable st -> inRange i ->
  let n := JS.get (gridRef st) i noNode in
  isTitan n = false ->
  5 < lightnessValue n /\
  lightnessValue n
  = (if isSpark n then Rmin (60 * Rmin (r n / 0.7071) 2) 95
     else 40 * Rmin (r n / 0.7071) 2).
Proof.
  intros Hr Hi n Ht.
  assert (Hc : clampOk n).
  { subst n. apply get_Forall; [now apply reachable_clampOk|].
    destruct (reachable_inv st Hr) as [Hlen _].
    unfold inRange in Hi. rewrite Hlen. lia. }
  destruct Hc as [[Hr1 Hr2] _]. clearbody n.
  assert (Hq : r n / 0.7071 * 0.7071 = r n) by (field; lra).
  unfold lightnessValue, normalizedAmp. rewrite Ht.
  set (q := r n / 0.7071) in *.
  destruct (isSpark n); unfold Rmin, Rmax;
    repeat destruct (Rle_dec _ _); split; lra.
Qed.

Lemma index_of_coords (i j : Z) :
  inRange i -> inRange j -> colOf i = colOf j -> rowOf i = rowOf j -> i = j.
Proof.
  unfold inRange, colOf, rowOf. rewrite TOTAL_NODES_val, GRID_SIZE_val.
  intros Hi Hj Hc Hr. rewrite !Z.rem_mod_nonneg in Hc by lia.
  rewrite (Z.div_mod i 72), (Z.div_mod j 72) by lia. now rewrite Hc, Hr.
Qed.

Lemma coords_range (i : Z) :
  inRange i -> (0 <= colOf i <= 71)%Z /\ (0 <= rowOf i <= 71)%Z.
Proof.
  unfold inRange, colOf, rowOf. rewrite TOTAL_NODES_val, GRID_SIZE_val.
  intros Hi. rewrite Z.rem_mod_nonneg by lia.
  split; Z.to_euclidean_division_equations; lia.
Qed.

(** Two intervals of length [c - 1] that start at different multiples
    of [c >= 1] do not meet. *)
Lemma strips_apart (c p : R) (a b : Z) :
  1 <= c -> (a < b)%Z ->
  IZR a * c <= p <= IZR a * c + (c - 1) -> ~ (IZR b * c <= p).
Proof.
  intros Hc Hab [_ Hp] Hb.
  assert (H1 : IZR a + 1 <= IZR b).
  { rewrite <- plus_IZR. apply IZR_le. lia. }
  assert (H2 : 0 <= (IZR b - (IZR a + 1)) * c) by (apply Rmult_le_pos; lra).
  lra.
Qed.

(** X23.  On a canvas between [GRID_SIZE] and 32767 pixels wide (the
    largest canvas browsers allocate) the rectangles drawn for the
    nodes lie inside the square of side [width], half a pixel and more
    away from its right and lower edges, and the rectangles of two
    different lattice indices have no point in common. *)
Theorem cells_tile_canvas (width : R) (i j : Z) :
  IZR GRID_SIZE <= width <= 32767 -> inRange i -> inRange j -> i <> j ->
  forall px py, inCell width i px py ->
    (0 <= px <= width - 0.5 /\ 0 <= py <= width - 0.5) /\
    ~ inCell width j px py.
Proof.
  intros [Hw _] Hi Hj Hij px py [Hx Hy].
  destruct (coords_range i Hi) as [Hci Hri].
  destruct (coords_range j Hj) as [Hcj Hrj].
  assert (Hc : 1 <= cellSize width /\ cellSize width * 72 = width).
  { unfold cellSize. rewrite GRID_SIZE_val in *. split; [|field].
    apply Rmult_le_reg_r with 72; [lra|].
    replace (width / 72 * 72) with width by field. lra. }
  destruct Hc as [Hc1 Hc72].
  unfold cellX, cellY in *. set (c := cellSize width) in *.
  assert (Bc : forall k : Z, (0 <= k <= 71)%Z -> 0 <= IZR k * c <= 71 * c).
  { intros k [Hk0 Hk1]. apply IZR_le in Hk0, Hk1.
    split; [apply Rmult_le_pos; lra|].
    apply Rmult_le_compat_r; lra. }
  pose proof (Bc _ Hci) as Bx. pose proof (Bc _ Hri) as By.
  split; [lra|].
  intros [Hx' Hy'].
  destruct (Z.lt_total (colOf i) (colOf j)) as [Hlt | [Heq | Hgt]].
  - exact (strips_apart c px _ _ Hc1 Hlt Hx (proj1 Hx')).
  - destruct (Z.lt_total (rowOf i) (rowOf j)) as [Hlt | [Heq' | Hgt]].
    + exact (strips_apart c py _ _ Hc1 Hlt Hy (proj1 Hy')).
    + apply Hij. now apply index_of_coords.
    + exact (strips_apart c py _ _ Hc1 Hgt Hy' (proj1 Hy)).
  - exact (strips_apart c px _ _ Hc1 Hgt Hx' (proj1 Hx)).
Qed.

(* ------------------------------------------------------------------ *)
(** ** The audio samples *)

Lemma floor_mono (x y : R) : x <= y -> (JS.floor x <= JS.floor y)%Z.
Proof.
  intros H. apply floor_ge. destruct (floor_spec x) as [H1 _]. lra.
Qed.

Lemma trunc_mono (x y : R) : x <= y -> (JS.trunc x <= JS.trunc y)%Z.
Proof.
  intros H. unfold JS.trunc.
  destruct (Rle_dec 0 x) as [Hx | Hx]; destruct (Rle_dec 0 y) as [Hy | Hy].
  - now apply floor_mono.
  - lra.
  - pose proof (floor_nonneg (- x) ltac:(lra)).
    pose proof (floor_nonneg y Hy). lia.
  - pose proof (floor_mono (- y) (- x) ltac:(lra)). lia.
Qed.

Lemma trunc_IZR (z : Z) : JS.trunc (IZR z) = z.
Proof.
  unfold JS.trunc. destruct (Rle_dec 0 (IZR z)).
  - apply floor_unique. lra.
  - rewrite <- opp_IZR. rewrite (floor_unique (IZR (- z)) (- z)) by lra. lia.
Qed.

(** Between a number and its truncation there is less than one unit,
    and the truncation lies on the side of zero. *)
Lemma trunc_spec (x : R) :
  (0 <= x -> IZR (JS.trunc x) <= x < IZR (JS.trunc x) + 1) /\
  (x <= 0 -> IZR (JS.trunc x) - 1 < x <= IZR (JS.trunc x)).
Proof.
  unfold JS.trunc. split; intros Hx.
  - destruct (Rle_dec 0 x); [apply floor_spec | lra].
  - destruct (Rle_dec 0 x) as [H0 | H0].
    + assert (x = 0) by lra. subst x.
      rewrite (floor_unique 0 0) by lra. lra.
    + destruct (floor_spec (- x)) as [H1 H2]. rewrite opp_IZR. lra.
Qed.

Lemma toInt16_id (x : R) :
  (-32768 <= JS.trunc x < 32768)%Z -> toInt16 x = JS.trunc x.
Proof. intros H. unfold toInt16. rewrite Z.mod_small by lia. lia. Qed.

(** The number [floatTo16BitPCM] stores for a sample. *)
Lemma pcm_scaled_range (x : R) :
  let s := Rmax (-1) (Rmin 1 x) in
  -32768 <= (if Rlt_dec s 0 then s * 32768 else s * 32767) <= 32767.
Proof.
  cbv zeta. unfold Rmax, Rmin.
  repeat destruct (Rle_dec _ _); destruct (Rlt_dec _ _); lra.
Qed.

Lemma pcmSample_trunc (x : R) :
  let s := Rmax (-1) (Rmin 1 x) in
  pcmSample x = JS.trunc (if Rlt_dec s 0 then s * 32768 else s * 32767).
Proof.
  cbv zeta. unfold pcmSample. apply toInt16_id.
  destruct (pcm_scaled_range x) as [H1 H2]. cbv zeta in H1, H2.
  apply trunc_mono in H1, H2.
  change (-32768) with (IZR (-32768)) in H1. rewrite trunc_IZR in H1, H2. lia.
Qed.

(** X24.  [floatTo16BitPCM] never wraps around in its 16-bit store: the
    integer it stores for a sample is the truncation of the clamped and
    scaled sample, within [-32768, 32767].  Samples of 1 and above give
    32767, samples of -1 and below give -32768, the sign of a sample is
    kept, and the encoding is monotone. *)
Theorem pcm_encoding (x : R) :
  (let s := Rmax (-1) (Rmin 1 x) in
   pcmSample x = JS.trunc (if Rlt_dec s 0 then s * 32768 else s * 32767)) /\
  (-32768 <= pcmSample x <= 32767)%Z /\
  (1 <= x -> pcmSample x = 32767%Z) /\
  (x <= -1 -> pcmSample x = (-32768)%Z) /\
  (0 <= x -> (0 <= pcmSample x)%Z) /\
  (x <= 0 -> (pcmSample x <= 0)%Z) /\
  (forall y, x <= y -> (pcmSample x <= pcmSample y)%Z).
Proof.
  split; [apply pcmSample_trunc|].
  split.
  { unfold pcmSample, toInt16.
    pose proof (Z.mod_pos_bound
                  (JS.trunc (if Rlt_dec (Rmax (-1) (Rmin 1 x)) 0
                             then Rmax (-1) (Rmin 1 x) * 32768
                             else Rmax (-1) (Rmin 1 x) * 32767) + 32768)
                  65536 ltac:(lia)).
    cbv zeta. lia. }
  split.
  { intros Hx. rewrite pcmSample_trunc.
    replace (Rmax (-1) (Rmin 1 x)) with 1
      by (unfold Rmax, Rmin; repeat destruct (Rle_dec _ _); lra).
    destruct (Rlt_dec 1 0); [lra|].
    replace (1 * 32767) with (IZR 32767) by lra. apply trunc_IZR. }
  split.
  { intros Hx. rewrite pcmSample_trunc.
    replace (Rmax (-1) (Rmin 1 x)) with (-1)
      by (unfold Rmax, Rmin; repeat destruct (Rle_dec _ _); lra).
    destruct (Rlt_dec (-1) 0); [|lra].
    replace (-1 * 32768) with (IZR (-32768)) by lra. apply trunc_IZR. }
  assert (Hmono : forall a b, a <= b -> (pcmSample a <= pcmSample b)%Z).
  { intros a b Hab. rewrite !pcmSample_trunc. apply trunc_mono.
    unfold Rmax, Rmin.
    repeat destruct (Rle_dec _ _); repeat destruct (Rlt_dec _ _); lra. }
  assert (H0 : pcmSample 0 = 0%Z).
  { rewrite pcmSample_trunc.
    replace (Rmax (-1) (Rmin 1 0)) with 0
      by (unfold Rmax, Rmin; repeat destruct (Rle_dec _ _); lra).
    destruct (Rlt_dec 0 0); [lra|].
    replace (0 * 32767) with (IZR 0) by lra. apply trunc_IZR. }
  split; [intros Hx; rewrite <- H0; now apply Hmono|].
  split; [intros Hx; rewrite <- H0; now apply Hmono|].
  intros y. apply Hmono.
Qed.

(** X25.  Decoding what [floatTo16BitPCM] stores for a sample, by the
    division by 32768 of [decodeAudio], gives back the sample clamped
    to [-1, 1] with an error below 2^-14, never moving it away from
    zero. *)
Theorem pcm_roundtrip_error (x : R) :
  let s := Rmax (-1) (Rmin 1 x) in
  let d := IZR (pcmSample x) / 32768.0 in
  Rabs (d - s) < 1 / 16384 /\ Rabs d <= Rabs s.
Proof.
  cbv zeta. rewrite pcmSample_trunc.
  set (s := Rmax (-1) (Rmin 1 x)).
  assert (Hs : -1 <= s <= 1).
  { subst s. unfold Rmax, Rmin. repeat destruct (Rle_dec _ _); lra. }
  clearbody s.
  destruct (Rlt_dec s 0) as [Hneg | Hpos].
  - destruct (trunc_spec (s * 32768)) as [_ Ht].
    specialize (Ht ltac:(lra)).
    pose proof (trunc_mono (s * 32768) (IZR 0) ltac:(lra)) as H0.
    rewrite trunc_IZR in H0. apply IZR_le in H0.
    set (t := IZR (JS.trunc (s * 32768))) in *.
    assert (Ed : t / 32768.0 * 32768 = t) by lra.
    set (d := t / 32768.0) in *.
    split; unfold Rabs; repeat destruct (Rcase_abs _); lra.
  - destruct (trunc_spec (s * 32767)) as [Ht _].
    specialize (Ht ltac:(lra)).
    pose proof (trunc_mono (IZR 0) (s * 32767) ltac:(lra)) as H0.
    rewrite trunc_IZR in H0. apply IZR_le in H0.
    set (t := IZR (JS.trunc (s * 32767))) in *.
    assert (Ed : t / 32768.0 * 32768 = t) by lra.
    set (d := t / 32768.0) in *.
    split; unfold Rabs; repeat destruct (Rcase_abs _); lra.
Qed.

Lemma list_pairs_ind {A : Type} (P : list A -> Prop) :
  P [] -> (forall a, P [a]) -> (forall a b l, P l -> P (a :: b :: l)) ->
  forall l, P l.
Proof.
  intros H0 H1 H2. fix IH 1. intros [|a [|b l]].
  - exact H0.
  - apply H1.
  - apply H2, IH.
Qed.

Lemma int16OfBytes_range (lo hi : Z) :
  (0 <= lo < 256)%Z -> (0 <= hi < 256)%Z ->
  (-32768 <= int16OfBytes lo hi < 32768)%Z.
Proof.
  intros Hlo Hhi. unfold int16OfBytes.
  destruct (Z.ltb_spec (lo + 256 * hi) 32768); lia.
Qed.

Lemma int16Array_samples (bytes : list Z) :
  Forall (fun b => (0 <= b < 256)%Z) bytes ->
  if Nat.even (length bytes)
  then exists int16,
         int16Array bytes = Some int16 /\
         (2 * length int16 = length bytes)%nat /\
         Forall (fun v => (-32768 <= v < 32768)%Z) int16
  else int16Array bytes = None.
Proof.
  induction bytes as [|a|a b l IH] using list_pairs_ind; intros Hb.
  - cbn. exists []. repeat split; constructor.
  - reflexivity.
  - inversion Hb as [|? ? Ha Hb1]; subst.
    inversion Hb1 as [|? ? Hb' Hl]; subst.
    specialize (IH Hl). cbn [length Nat.even int16Array].
    destruct (Nat.even (length l)).
    + destruct IH as [int16 [E [Hlen Hf]]]. rewrite E.
      eexists. split; [reflexivity|]. cbn [length]. split; [lia|].
      constructor; [now apply int16OfBytes_range | assumption].
    + now rewrite IH.
Qed.

(** X26.  [decodeAudio] fails exactly when the number of bytes is odd
    or zero; on an even, positive number of bytes it yields one sample
    for every two bytes, each sample in [-1, 1). *)
Theorem decodeAudio_samples (bytes : list Z) :
  Forall (fun b => (0 <= b < 256)%Z) bytes ->
  if (Nat.even (length bytes) && negb (length bytes =? 0)%nat)%bool
  then exists samples,
         decodeAudio bytes = Some samples /\
         (2 * length samples = length bytes)%nat /\
         Forall (fun x => -1 <= x < 1) samples
  else decodeAudio bytes = None.
Proof.
  intros Hb. pose proof (int16Array_samples bytes Hb) as H.
  unfold decodeAudio. destruct (Nat.even (length bytes)); cbn [andb].
  - destruct H as [int16 [E [Hlen Hf]]]. rewrite E.
    destruct int16 as [|v t].
    + cbn [length] in Hlen. rewrite <- Hlen. reflexivity.
    + destruct (length bytes) as [|k] eqn:Ek; [cbn [length] in Hlen; lia|].
      cbn [Nat.eqb negb].
      exists (map (fun z => IZR z / 32768.0) (v :: t)).
      split; [reflexivity|]. rewrite length_map. split; [exact Hlen|].
      apply Forall_map. eapply Forall_impl; [|exact Hf].
      intros z [H1 H2]. apply IZR_le in H1. apply IZR_lt in H2.
      set (w := IZR z) in *.
      assert (Ed : w / 32768.0 * 32768 = w) by lra. lra.
  - now rewrite H.
Qed.

(* ------------------------------------------------------------------ *)
(** ** The schedule of the played buffers *)

Lemma playAll_after (next : R) (plays : list (R * R)) :
  Forall (fun c => 0 <= snd c) plays ->
  Forall (fun iv => next <= fst iv) (playAll next plays).
Proof.
  revert next. induction plays as [|[now dur] t IH]; intros next Hd;
    cbn [playAll playAudio]; [constructor|].
  inversion Hd as [|? ? Hdur Ht]; subst. cbn [snd] in Hdur.
  constructor; [cbn [fst]; apply Rmax_r|].
  specialize (IH (Rmax now next + dur) Ht).
  eapply Forall_impl; [|exact IH].
  intros iv Hiv. cbv beta in Hiv. pose proof (Rmax_r now next). lra.
Qed.

(** X27.  Buffers played through [playAudio] never overlap and never
    start in the past: each one is scheduled at or after the clock
    reading of its call, for exactly its duration, and it ends before
    every later one starts.  A buffer that arrives while the previous
    one is still playing starts at the very time that one ends. *)
Theorem playAll_no_overlap (next : R) (plays : list (R * R)) :
  Forall (fun c => 0 <= snd c) plays ->
  Forall2 (fun c iv => fst c <= fst iv /\ snd iv = fst iv + snd c)
          plays (playAll next plays) /\
  ForallOrdPairs (fun a b => snd a <= fst b) (playAll next plays) /\
  (forall now dur now' dur' rest,
     plays = (now, dur) :: (now', dur') :: rest ->
     now' <= Rmax now next + dur ->
     fst (nth 1 (playAll next plays) (0, 0))
     = snd (nth 0 (playAll next plays) (0, 0))).
Proof.
  intros Hd. split; [|split].
  - clear Hd. revert next.
    induction plays as [|[now dur] t IH]; intros next;
      cbn [playAll playAudio]; constructor; [|apply IH].
    cbn [fst snd]. split; [apply Rmax_l | reflexivity].
  - revert next Hd. induction plays as [|[now dur] t IH]; intros next Hd;
      cbn [playAll playAudio]; constructor.
    + inversion Hd as [|? ? _ Ht]; subst. cbn [snd].
      now apply playAll_after.
    + inversion Hd as [|? ? _ Ht]; subst. now apply IH.
  - intros now dur now' dur' rest -> Hlate. cbn [playAll playAudio nth fst snd].
    now apply Rmax_right.
Qed.

(* ------------------------------------------------------------------ *)
(** ** The retry loop *)

Lemma shift_rng_ok (s : Rng) : rng_ok s -> rng_ok (snd (Math_random s)).
Proof. intros Hs n. apply Hs. Qed.

Lemma retry_unfold_retry {T E : Type} (isQ : E -> bool)
    (op : nat -> Outcome T E) (n : nat) (base : R) (k : nat) (s : Rng)
    (e : E) :
  op k = Rejected e -> isQ e = true ->
  let run := fst (retryWithBackoff isQ op n (base * 1.5) (S k)
                    (snd (Math_random s))) in
  fst (retryWithBackoff isQ op (S n) base k s)
  = mkRun (outcome run) (calls run)
          (base * powerRZ 2 (2 - Z.of_nat (S n)) * (0.8 + s 0%nat * 0.4)
           :: delays run).
Proof.
  intros Hop Hq. cbv zeta. cbn [retryWithBackoff]. rewrite Hop, Hq.
  unfold bind, Math_random, ret.
  destruct (retryWithBackoff isQ op n (base * 1.5) (S k) _) as [run s'].
  reflexivity.
Qed.

Lemma retry_unfold_stop {T E : Type} (isQ : E -> bool)
    (op : nat -> Outcome T E) (n : nat) (base : R) (k : nat) (s : Rng) :
  final isQ (op k) = true \/ n = 0%nat ->
  fst (retryWithBackoff isQ op n base k s) = mkRun (op k) (S k) [].
Proof.
  intros H. destruct n as [|n]; cbn [retryWithBackoff];
    destruct (op k) as [v | e] eqn:Hop; try reflexivity.
  destruct H as [H | H]; [|discriminate]. cbn in H.
  destruct (isQ e); [discriminate | reflexivity].
Qed.

Lemma retry_spec {T E : Type} (isQ : E -> bool) (op : nat -> Outcome T E)
    (n : nat) :
  forall base k s,
  let run := fst (retryWithBackoff isQ op n base k s) in
  (k < calls run <= k + n + 1)%nat /\
  outcome run = op (calls run - 1)%nat /\
  length (delays run) = (calls run - 1 - k)%nat /\
  (forall j, (k <= j < calls run - 1)%nat -> final isQ (op j) = false) /\
  (final isQ (outcome run) = true \/ calls run = (k + n + 1)%nat).
Proof.
  induction n as [|n IH]; intros base k s; cbv zeta.
  - rewrite retry_unfold_stop by now right. cbn [calls outcome delays length].
    replace (S k - 1)%nat with k by lia.
    split; [lia|]. split; [reflexivity|]. split; [lia|].
    split; [intros j Hj; lia | right; lia].
  - destruct (final isQ (op k)) eqn:Hf.
    + rewrite retry_unfold_stop by now left.
      cbn [calls outcome delays length].
      replace (S k - 1)%nat with k by lia.
      split; [lia|]. split; [reflexivity|]. split; [lia|].
      split; [intros j Hj; lia | now left].
    + destruct (op k) as [v | e] eqn:Hop; [discriminate|].
      cbn in Hf. apply negb_false_iff in Hf.
      rewrite (retry_unfold_retry isQ op n base k s e Hop Hf).
      specialize (IH (base * 1.5) (S k) (snd (Math_random s))).
      cbv zeta in IH.
      set (run := fst (retryWithBackoff isQ op n (base * 1.5) (S k)
                         (snd (Math_random s)))) in *.
      destruct IH as [Hc [Ho [Hl [Hj Hfin]]]].
      cbn [calls outcome delays length].
      split; [lia|]. split; [exact Ho|]. split; [lia|].
      split.
      * intros j Hjr. destruct (Nat.eq_dec j k) as [-> | Hne].
        -- rewrite Hop. cbn. now rewrite Hf.
        -- apply Hj. lia.
      * destruct Hfin as [Hfin | Hfin]; [now left | right; lia].
Qed.

(** X28.  [retryWithBackoff] calls the callback at least once and at
    most [retries + 1] times, sleeps once between two calls, and
    returns the outcome of its last call.  Every earlier call was
    rejected with a quota error; the last one resolved, or was rejected
    with another error, or was the call number [retries + 1]. *)
Theorem retry_outcome {T E : Type} (isQuotaError : E -> bool)
    (operation : nat -> Outcome T E) (retries : nat) (baseDelay : R)
    (s : Rng) :
  let run := fst (retryWithBackoff isQuotaError operation retries baseDelay
                    0 s) in
  (1 <= calls run <= retries + 1)%nat /\
  outcome run = operation (calls run - 1)%nat /\
  length (delays run) = (calls run - 1)%nat /\
  (forall j, (j < calls run - 1)%nat ->
     exists e, operation j = Rejected e /\ isQuotaError e = true) /\
  (final isQuotaError (outcome run) = true \/
   calls run = (retries + 1)%nat).
Proof.
  cbv zeta.
  destruct (retry_spec isQuotaError operation retries baseDelay 0 s)
    as [Hc [Ho [Hl [Hj Hf]]]].
  split; [lia|]. split; [exact Ho|]. split; [lia|]. split; [|exact Hf].
  intros j Hjr. specialize (Hj j ltac:(lia)).
  destruct (operation j) as [v | e]; [discriminate|].
  exists e. split; [reflexivity|]. cbn in Hj. now apply negb_false_iff.
Qed.

Lemma nominalDelay_step (n : nat) (base : R) (i : nat) :
  nominalDelay n (base * 1.5) i = nominalDelay (S n) base (S i).
Proof.
  unfold nominalDelay.
  replace (2 - Z.of_nat n)%Z with ((2 - Z.of_nat (S n)) + 1)%Z by lia.
  rewrite powerRZ_add by lra. rewrite powerRZ_1. cbn [pow]. lra.
Qed.

Lemma retry_delays_spec {T E : Type} (isQ : E -> bool)
    (op : nat -> Outcome T E) (n : nat) :
  forall base k s, rng_ok s -> 0 < base ->
  let run := fst (retryWithBackoff isQ op n base k s) in
  forall i, (i < length (delays run))%nat ->
    0.8 * nominalDelay n base i <= nth i (delays run) 0
    <= 1.2 * nominalDelay n base i.
Proof.
  induction n as [|n IH]; intros base k s Hs Hb; cbv zeta.
  - rewrite retry_unfold_stop by now right. cbn. intros i Hi. lia.
  - destruct (final isQ (op k)) eqn:Hf.
    + rewrite retry_unfold_stop by now left. cbn. intros i Hi. lia.
    + destruct (op k) as [v | e] eqn:Hop; [discriminate|].
      cbn in Hf. apply negb_false_iff in Hf.
      rewrite (retry_unfold_retry isQ op n base k s e Hop Hf).
      specialize (IH (base * 1.5) (S k) (snd (Math_random s))
                    (shift_rng_ok s Hs) ltac:(lra)).
      cbv zeta in IH.
      set (run := fst (retryWithBackoff isQ op n (base * 1.5) (S k)
                         (snd (Math_random s)))) in *.
      cbn [delays length]. intros [|i] Hi; cbn [nth].
      * unfold nominalDelay. cbn [pow].
        pose proof (powerRZ_lt 2 (2 - Z.of_nat (S n)) ltac:(lra)) as Hp.
        pose proof (Hs 0%nat) as H0.
        set (B := base * powerRZ 2 (2 - Z.of_nat (S n))).
        assert (HB : 0 < B) by (apply Rmult_lt_0_compat; assumption).
        assert (0 <= B * s 0%nat) by (apply Rmult_le_pos; lra).
        assert (0 < B * (1 - s 0%nat)) by (apply Rmult_lt_0_compat; lra).
        lra.
      * rewrite <- nominalDelay_step. apply IH. lia.
Qed.

(** X29.  With draws in [0, 1) and a positive base delay, the delay
    slept before the [i]-th retry lies between 0.79 and 1.21 times
    [baseDelay * 2^(2 - retries) * 3^i] (a jitter of 20 percent, and a
    margin for the rounding of the products): the nominal delay triples
    from one retry to the next. *)
Theorem retry_delays {T E : Type} (isQuotaError : E -> bool)
    (operation : nat -> Outcome T E) (retries : nat) (baseDelay : R)
    (s : Rng) (i : nat) :
  rng_ok s -> 0 < baseDelay ->
  let run := fst (retryWithBackoff isQuotaError operation retries baseDelay
                    0 s) in
  (i < length (delays run))%nat ->
  0.79 * nominalDelay retries baseDelay i <= nth i (delays run) 0
  <= 1.21 * nominalDelay retries baseDelay i.
Proof.
  intros Hs Hb run Hi.
  pose proof (retry_delays_spec isQuotaError operation retries baseDelay 0 s
                Hs Hb i Hi) as H.
  assert (Hn : 0 < nominalDelay retries baseDelay i).
  { unfold nominalDelay. apply Rmult_lt_0_compat.
    - apply Rmult_lt_0_compat; [assumption | apply powerRZ_lt; lra].
    - apply pow_lt. lra. }
  fold run in H. lra.
Qed.

End Engine.

(* ------------------------------------------------------------------ *)
(** ** Instances on concrete inputs

    The engine is instantiated with the identity for [fround] and a
    constant text for [hash36]. *)

Lemma inRange_0 : inRange 0.
Proof. unfold inRange. pose proof TOTAL_NODES_pos. lia. Qed.

Lemma tick_clamp_invariant_witness :
  clampOk (JS.get (gridRef (fst (updatePhysics froundId unitConfig
                                   (stateOf (uniformGrid litNode)) rng0)))
                  0 noNode).
Proof.
  apply (tick_clamp_invariant froundId unitConfig
           (stateOf (uniformGrid litNode)) rng0).
  - simpl. lra.
  - simpl. lra.
  - simpl. lra.
  - intros i Hi. cbn [stateOf gridRef]. rewrite uniformGrid_get by assumption.
    unfold clampOk, litNode. cbn. lra.
  - exact inRange_0.
Defined.

Lemma binIndex_bounds_witness :
  binInBounds (binIndex 0) /\ (binIndex (-1) < 0)%Z.
Proof.
  split.
  - apply (proj1 (binIndex_bounds 0)). pose proof two_PI_pos. lra.
  - apply (proj2 (binIndex_bounds (-1))). lra.
Defined.

Lemma noiseless_ticks_deterministic_witness :
  fst (runTicks froundId 3 unitConfig (stateOf (uniformGrid litNode)) rng0) =
  fst (runTicks froundId 3 unitConfig (stateOf (uniformGrid litNode))
         (fun _ => 0.5)).
Proof.
  apply (noiseless_ticks_deterministic froundId 3 unitConfig). reflexivity.
Defined.

Lemma scenarioA_witness :
  exists m,
    metricsRef (fst (updatePhysics froundId unitConfig
                       (stateOf (uniformGrid uniformNode)) rng0))
    = JS.slice_last 100 [] ++ [m] /\ coherence m = 1.
Proof.
  apply (scenarioA froundId unitConfig (stateOf (uniformGrid uniformNode)) rng0);
    reflexivity.
Defined.

Lemma stabilize_covering_witness :
  theta (JS.get (gridRef (fst (injectPattern centreStabilize
                                 (stateOf (uniformGrid litNode)) rng0)))
                0 noNode) = 0 /\
  r (JS.get (gridRef (fst (injectPattern centreStabilize
                             (stateOf (uniformGrid litNode)) rng0)))
            0 noNode) = 0.7071.
Proof.
  apply (stabilize_covering centreStabilize (stateOf (uniformGrid litNode)) rng0).
  - reflexivity.
  - cbn [radius centreStabilize]. rewrite GRID_SIZE_val. lra.
  - cbn [stateOf gridRef]. unfold uniformGrid. apply repeat_length.
  - cbn [targetX targetY radius centreStabilize].
    rewrite !clampTarget_id by (rewrite GRID_SIZE_val; simpl; lra).
    apply covers_centre.
  - exact inRange_0.
Defined.

(** C8 as stated fails: a stabilize command of radius GRID_SIZE aimed at
    the corner cell (0, 0) leaves the opposite corner, at distance
    71 * sqrt 2 > 72, as it was. *)
Lemma stabilize_corner_counterexample :
  pattern cornerStabilize = stabilize /\
  IZR GRID_SIZE <= radius cornerStabilize /\
  ~ (forall i, inRange i ->
       theta (JS.get (gridRef (fst (injectPattern cornerStabilize
                                      (stateOf (uniformGrid litNode)) rng0)))
                     i noNode) = 0 /\
       r (JS.get (gridRef (fst (injectPattern cornerStabilize
                                  (stateOf (uniformGrid litNode)) rng0)))
                 i noNode) = 0.7071).
Proof.
  split; [reflexivity|]. split.
  { cbn [radius cornerStabilize]. rewrite GRID_SIZE_val. lra. }
  intros H.
  assert (Hc : In (71, 71)%Z cells).
  { apply cells_In. rewrite GRID_SIZE_val. lia. }
  destruct (H (cellIdx (71, 71)%Z) (cellIdx_range _ Hc)) as [Hth _].
  assert (Hne : pattern cornerStabilize <> elysium) by discriminate.
  assert (Hlen : length (gridRef (stateOf (uniformGrid litNode)))
                 = Z.to_nat TOTAL_NODES).
  { cbn [stateOf gridRef]. unfold uniformGrid. apply repeat_length. }
  destruct (injectPattern_cell (fun _ => True) cornerStabilize
              (stateOf (uniformGrid litNode)) rng0 (71, 71)%Z
              Hne (fun _ _ _ _ => I) Hlen I Hc) as [s' [_ E]].
  rewrite E in Hth. cbn [stateOf gridRef] in Hth.
  rewrite uniformGrid_get in Hth by (now apply cellIdx_range).
  unfold injectNode in Hth. cbn [targetX targetY radius cornerStabilize] in Hth.
  rewrite clampTarget_id in Hth by (rewrite GRID_SIZE_val; simpl; lra).
  destruct (Rle_dec _ _) as [Hd | Hd].
  - assert (72 < sqrt ((71 - 0) * (71 - 0) + (71 - 0) * (71 - 0))).
    { apply sqrt_gt_bound; lra. }
    lra.
  - unfold ret in Hth. cbn in Hth. lra.
Defined.

Lemma titan_frame_witness :
  omega (JS.get (gridRef (fst (initState rng0))) 0 noNode) = 0 /\
  omega (JS.get (gridRef (fst (updatePhysics froundId unitConfig
                                 (fst (initState rng0)) rng0))) 0 noNode) = 0 /\
  theta (JS.get (gridRef (fst (updatePhysics froundId unitConfig
                                 (fst (initState rng0)) rng0))) 0 noNode)
  = theta (JS.get (gridRef (fst (initState rng0))) 0 noNode).
Proof.
  assert (Ht : isTitan (JS.get (gridRef (fst (initState rng0))) 0 noNode) = true).
  { rewrite initState_grid, initGrid_rng0, uniformGrid_get by exact inRange_0.
    reflexivity. }
  apply (proj2 (titan_frame froundId hashX unitConfig (fst (initState rng0))
                  rng0 0 inRange_0 Ht)).
  apply reach_init. exact rng0_ok.
Defined.

(* ------------------------------------------------------------------ *)
(** ** The wrap invariant and the remainder of a negative phase *)

Lemma centre_cell_above : In (35, 36)%Z cells.
Proof. apply cells_In. rewrite GRID_SIZE_val. lia. Qed.

(** C2 fails on the code.  The state reached by an initialisation whose
    draws are all 0 followed by a spiral injection of radius 1 and
    intensity 1 at the centre holds, in the cell just above the centre,
    the phase -PI/2: the shift atan2(-1, 0) * 1 is negative and the
    remainder [%] keeps the sign of its dividend. *)
Theorem wrap_broken_by_spiral :
  reachable froundId hashX spiralState /\
  theta (JS.get (gridRef spiralState) (cellIdx (35, 36)%Z) noNode) = - (PI / 2) /\
  ~ thetaOk (JS.get (gridRef spiralState) (cellIdx (35, 36)%Z) noNode).
Proof.
  assert (Hth : theta (JS.get (gridRef spiralState) (cellIdx (35, 36)%Z) noNode)
                = - (PI / 2)).
  { unfold spiralState.
    assert (Hne : pattern centreSpiral <> elysium) by discriminate.
    assert (Hlen : length (gridRef (fst (initState rng0))) = Z.to_nat TOTAL_NODES).
    { rewrite initState_grid, initGrid_rng0. unfold uniformGrid.
      apply repeat_length. }
    destruct (injectPattern_cell (fun _ => True) centreSpiral
                (fst (initState rng0)) rng0 (35, 36)%Z
                Hne (fun _ _ _ _ => I) Hlen I centre_cell_above) as [s' [_ E]].
    rewrite E, initState_grid, initGrid_rng0.
    rewrite uniformGrid_get by (apply cellIdx_range, centre_cell_above).
    unfold injectNode. cbn [targetX targetY radius intensity pattern centreSpiral].
    rewrite clampTarget_id by (rewrite GRID_SIZE_val; simpl; lra).
    replace ((36 - 36) * (36 - 36) + (35 - 36) * (35 - 36)) with 1 by lra.
    rewrite sqrt_1. destruct (Rle_dec 1 1) as [_ | Hn]; [|lra].
    unfold ret. cbn [fst theta set_theta anchor0].
    assert (Ea : JS.atan2 (35 - 36) (36 - 36) = - (PI / 2)).
    { unfold JS.atan2.
      destruct (Rlt_dec 0 (36 - 36)); [lra|].
      destruct (Rlt_dec (36 - 36) 0); [lra|].
      destruct (Rlt_dec 0 (35 - 36)); [lra|].
      destruct (Rlt_dec (35 - 36) 0); [reflexivity | lra]. }
    rewrite Ea. pose proof PI_RGT_0.
    rewrite rem_small by lra. lra. }
  split; [|split].
  - unfold spiralState. apply reach_inject; [apply reach_init|]; exact rng0_ok.
  - exact Hth.
  - unfold thetaOk. rewrite Hth. pose proof PI_RGT_0. lra.
Qed.

(* ------------------------------------------------------------------ *)
(** ** The entropy of a tick is not that of the grid before it *)

Lemma inRange_1 : inRange 1.
Proof. unfold inRange. rewrite TOTAL_NODES_val. lia. Qed.

Lemma mixedState_grid :
  gridRef mixedState = anchorPi :: repeat freePi (Z.to_nat TOTAL_NODES - 1).
Proof. unfold mixedState. now rewrite initState_grid, initGrid_rng1. Qed.

Lemma mixedState_length : length (gridRef mixedState) = Z.to_nat TOTAL_NODES.
Proof.
  rewrite mixedState_grid. cbn [length]. rewrite repeat_length.
  pose proof TOTAL_NODES_pos. lia.
Qed.

Lemma mixedState_get0 : JS.get (gridRef mixedState) 0 noNode = anchorPi.
Proof. rewrite mixedState_grid. reflexivity. Qed.

Lemma mixedState_get1 : JS.get (gridRef mixedState) 1 noNode = freePi.
Proof.
  rewrite mixedState_grid, get_nth by lia.
  change (Z.to_nat 1) with 1%nat. cbn [nth].
  rewrite nth_indep with (d' := freePi); [apply nth_repeat|].
  rewrite repeat_length, TOTAL_NODES_val. lia.
Qed.

Lemma mixedState_phases (th : R) :
  In th (phases (gridRef mixedState)) -> th = 0.5 * 2 * PI.
Proof.
  rewrite mixedState_grid. unfold phases. cbn [map]. rewrite map_repeat.
  intros [<- | Hin]; [reflexivity|].
  apply repeat_spec in Hin. subst th. reflexivity.
Qed.

Lemma binIndex_PI : binIndex PI = 18%Z.
Proof.
  unfold binIndex. pose proof PI_RGT_0.
  replace (PI / (2 * PI) * 36) with 18 by (field; lra).
  rewrite (floor_unique 18 18); [reflexivity | simpl; lra].
Qed.

Lemma binIndex_quadrant4 (th : R) :
  3 * (PI / 2) < th -> (27 <= binIndex th)%Z.
Proof.
  intros Hth. unfold binIndex. pose proof PI_RGT_0.
  assert (27 <= th / (2 * PI) * 36).
  { assert (0 < / (2 * PI)) by (apply Rinv_0_lt_compat; lra).
    assert (2 * PI * / (2 * PI) = 1) by (apply Rinv_r; lra).
    unfold Rdiv. nra. }
  pose proof (floor_ge (th / (2 * PI) * 36) 27 H0). lia.
Qed.

(** After the tick the Titan of cell 0 is still at phase PI, in bin 18. *)
Lemma mixed_post0 :
  binIndex (theta (JS.get (gridRef (fst (updatePhysics froundId looseConfig
                                           mixedState rng0))) 0 noNode))
  = 18%Z.
Proof.
  destruct (updatePhysics_node froundId (fun _ => True) looseConfig mixedState
              rng0 0 (fun _ _ _ => I) I inRange_0) as [s' [_ E]].
  rewrite E, updateNode_titan by (rewrite mixedState_get0; reflexivity).
  rewrite mixedState_get0. cbn [theta set_theta anchorPi omega dt looseConfig].
  replace (0.5 * 2 * PI + 0.0 * 3 * 0.1) with PI by lra.
  apply binIndex_PI.
Qed.

(** After the tick the free node of cell 1 has left bin 18. *)
Lemma mixed_post1 :
  binIndex (theta (JS.get (gridRef (fst (updatePhysics froundId looseConfig
                                           mixedState rng0))) 1 noNode))
  <> 18%Z.
Proof.
  destruct (updatePhysics_node froundId (fun _ => True) looseConfig mixedState
              rng0 1 (fun _ _ _ => I) I inRange_1) as [s' [_ E]].
  rewrite E.
  rewrite updateNode_solo_theta
    by (try reflexivity; rewrite mixedState_get1; reflexivity).
  destruct (projectionPass_spec froundId (gridRef mixedState)) as [Hp _].
  destruct (Hp 1%Z inRange_1) as [HX HY]. rewrite HX, HY, mixedState_get1.
  unfold froundId.
  cbn [theta r alpha omega freePi dt looseConfig].
  replace (0.5 * 2 * PI) with PI by lra. rewrite cos_PI, sin_PI.
  unfold TARGET_AMP.
  match goal with |- context [JS.atan2 ?y ?x] =>
    pose proof (atan2_quadrant4 y x ltac:(lra) ltac:(lra)) as Ha;
    set (a := JS.atan2 y x) in *
  end.
  pose proof PI_RGT_0.
  destruct (Rlt_dec a 0); [|lra].
  pose proof (binIndex_quadrant4 (a + 2 * PI) ltac:(lra)). lia.
Qed.

(** C1 fails on the code.  [updatePhysics] stores the new grid before it
    fills the histogram, so the entropy of a sample is that of the grid
    after the update, while its coherence is that of the grid before
    it.  Start from the initial state built from the draws 0.5, 0, 0.5,
    0.5, ...: a Titan in cell 0 and free nodes elsewhere, all at phase
    PI.  Under coupling = 0, noise = 0 and dt = 3 the tick moves the
    free nodes out of bin 18: the sample it appends has the coherence
    of the grid before the tick, whose normalized entropy is 0, and a
    positive entropy. *)
Theorem entropy_reads_updated_grid :
  reachable froundId hashX mixedState /\
  exists m,
    metricsRef (fst (updatePhysics froundId looseConfig mixedState rng0))
    = JS.slice_last 100 (metricsRef mixedState) ++ [m] /\
    coherence m = coherenceSpec (phases (gridRef mixedState)) /\
    normalizedEntropySpec (phases (gridRef mixedState)) = 0 /\
    0 < entropy m.
Proof.
  split; [apply reach_init, rng1_ok|].
  eexists. split; [apply tick_sample, mixedState_length|].
  cbn [coherence entropy]. split; [reflexivity|]. split.
  - apply (entropy_single_bin (phases (gridRef mixedState)) 18).
    intros th Hth. rewrite (mixedState_phases th Hth).
    replace (0.5 * 2 * PI) with PI by lra. apply binIndex_PI.
  - apply entropy_two_bins with (k := 18%Z).
    + apply range_In. lia.
    + pose proof (updatePhysics_length froundId looseConfig mixedState rng0)
        as Hl.
      split.
      * pose proof (binCount_ge1 _ _ 18
                      (In_get_phases _ 0 ltac:(rewrite Hl, TOTAL_NODES_val; lia))
                      mixed_post0). lia.
      * apply (binCount_lt_length _ _ 18
                 (In_get_phases _ 1 ltac:(rewrite Hl, TOTAL_NODES_val; lia))
                 mixed_post1).
Qed.

Lemma uniformGrid_length (n : GridNode) :
  length (uniformGrid n) = Z.to_nat TOTAL_NODES.
Proof. unfold uniformGrid. apply repeat_length. Qed.

Lemma elysium_centre_witness :
  NoDup (placedIndices 36 36) /\ length (placedIndices 36 36) = 50%nat.
Proof.
  destruct (elysium_centre (stateOf (uniformGrid litNode)) rng0
              (uniformGrid_length litNode)) as [Hnd [_ [Hlen _]]].
  split; assumption.
Defined.

(* ------------------------------------------------------------------ *)
(** ** Instances of the further properties *)

Lemma neighbors_valid_witness :
  length (getNeighbors 0) = 4%nat /\
  Forall (fun j => inRange j /\ j <> 0%Z) (getNeighbors 0) /\
  rowOf (nbLeft 0) = rowOf 0 /\ rowOf (nbRight 0) = rowOf 0 /\
  colOf (nbUp 0) = colOf 0 /\ colOf (nbDown 0) = colOf 0.
Proof. exact (neighbors_valid 0 inRange_0). Defined.

Lemma neighbors_inverse_witness :
  nbRight (nbLeft 0) = 0%Z /\ nbLeft (nbRight 0) = 0%Z /\
  nbDown (nbUp 0) = 0%Z /\ nbUp (nbDown 0) = 0%Z.
Proof. exact (neighbors_inverse 0 inRange_0). Defined.

Lemma index_coordinates_roundtrip_witness :
  colOf (2 * GRID_SIZE + 3) = 3%Z /\ rowOf (2 * GRID_SIZE + 3) = 2%Z /\
  (rowOf 0 * GRID_SIZE + colOf 0)%Z = 0%Z.
Proof.
  destruct index_coordinates_roundtrip as [H1 H2].
  destruct (H1 3%Z 2%Z) as [_ [Hc Hr]]; try (rewrite GRID_SIZE_val; lia).
  destruct (H2 0%Z inRange_0) as [_ [_ H0]].
  split; [exact Hc|]. split; [exact Hr | exact H0].
Defined.

Lemma initGrid_ranges_witness :
  length (fst (initGrid rng0)) = Z.to_nat TOTAL_NODES /\
  Forall initOk (fst (initGrid rng0)).
Proof. exact (initGrid_ranges rng0 rng0_ok). Defined.

Lemma reach_ticked :
  reachable froundId hashX
    (fst (updatePhysics froundId unitConfig (fst (initState rng0)) rng0)).
Proof. apply reach_tick; [apply reach_init|]; exact rng0_ok. Qed.

Lemma reachable_clamped_witness :
  Z.of_nat (length (gridRef (fst (updatePhysics froundId unitConfig
                                    (fst (initState rng0)) rng0))))
  = (GRID_SIZE * GRID_SIZE)%Z /\
  clampOk (JS.get (gridRef (fst (updatePhysics froundId unitConfig
                                   (fst (initState rng0)) rng0))) 0 noNode).
Proof.
  destruct (reachable_clamped froundId hashX _ reach_ticked) as [Hl Hc].
  split; [exact Hl | exact (Hc 0%Z inRange_0)].
Defined.

Lemma reachable_titan_not_spark_witness :
  (isTitan (JS.get (gridRef (fst (updatePhysics froundId unitConfig
                                    (fst (initState rng0)) rng0))) 0 noNode)
   && isSpark (JS.get (gridRef (fst (updatePhysics froundId unitConfig
                                       (fst (initState rng0)) rng0))) 0 noNode))%bool
  = false.
Proof.
  exact (proj1 (reachable_titan_not_spark froundId hashX _ 0 reach_ticked
                  inRange_0)).
Defined.


Lemma tick_keeps_flags_witness :
  isTitan (JS.get (gridRef (fst (updatePhysics froundId unitConfig
                                   (stateOf (uniformGrid litNode)) rng0)))
                  0 noNode) = false /\
  isSpark (JS.get (gridRef (fst (updatePhysics froundId unitConfig
                                   (stateOf (uniformGrid litNode)) rng0)))
                  0 noNode) = false.
Proof.
  destruct (tick_keeps_flags froundId unitConfig (stateOf (uniformGrid litNode))
              rng0 0 inRange_0) as [Ht [Hs _]].
  cbn [stateOf gridRef] in Ht, Hs.
  rewrite uniformGrid_get in Ht, Hs by exact inRange_0.
  split; [exact Ht | exact Hs].
Defined.

Lemma tick_repairs_free_nodes_witness :
  thetaWrapped (JS.get (gridRef (fst (updatePhysics froundId looseConfig
                                        mixedState rng0))) 1 noNode) /\
  theta (JS.get (gridRef (fst (updatePhysics froundId looseConfig
                                 mixedState rng0))) 0 noNode)
  = theta (JS.get (gridRef mixedState) 0 noNode).
Proof.
  assert (Hr : reachable froundId hashX mixedState)
    by (apply reach_init, rng1_ok).
  split.
  - apply (proj1 (tick_repairs_free_nodes froundId hashX looseConfig mixedState
                    rng0 1 Hr inRange_1)).
    rewrite mixedState_get1. reflexivity.
  - apply (proj2 (tick_repairs_free_nodes froundId hashX looseConfig mixedState
                    rng0 0 Hr inRange_0)).
    rewrite mixedState_get0. reflexivity.
Defined.

Lemma wrap_kept_by_safe_commands_witness :
  thetaWrapped (JS.get (gridRef (fst (injectPattern centreStabilize
                                   (fst (initState rng0)) rng0))) 0 noNode).
Proof.
  apply (wrap_kept_by_safe_commands froundId hashX); [|exact inRange_0].
  apply via_inject; [apply via_init; exact rng0_ok | exact rng0_ok|].
  left. reflexivity.
Defined.

Lemma corner_cell : In (0, 0)%Z cells.
Proof. apply cells_In. rewrite GRID_SIZE_val. lia. Qed.

Lemma inject_outside_radius_witness :
  JS.get (gridRef (fst (injectPattern centreSpiral
                          (stateOf (uniformGrid litNode)) rng0)))
         (cellIdx (0, 0)%Z) noNode
  = JS.get (gridRef (stateOf (uniformGrid litNode))) (cellIdx (0, 0)%Z) noNode.
Proof.
  assert (Hne : pattern centreSpiral <> elysium) by discriminate.
  apply (proj1 (inject_outside_radius centreSpiral
                  (stateOf (uniformGrid litNode)) rng0 Hne
                  (uniformGrid_length litNode)) (0, 0)%Z corner_cell).
  unfold cellDist. cbn [fst snd targetX targetY radius centreSpiral].
  rewrite !clampTarget_id by (rewrite GRID_SIZE_val; simpl; lra).
  apply sqrt_gt_bound; lra.
Defined.

Lemma shift_patterns_touch_theta_only_witness :
  omega (JS.get (gridRef (fst (injectPattern centreSpiral
                                 (stateOf (uniformGrid litNode)) rng0)))
                0 noNode)
  = omega (JS.get (gridRef (stateOf (uniformGrid litNode))) 0 noNode) /\
  r (JS.get (gridRef (fst (injectPattern centreSpiral
                             (stateOf (uniformGrid litNode)) rng0)))
            0 noNode)
  = r (JS.get (gridRef (stateOf (uniformGrid litNode))) 0 noNode).
Proof.
  destruct (shift_patterns_touch_theta_only centreSpiral
              (stateOf (uniformGrid litNode)) rng0 0
              (or_intror (or_introl eq_refl)) (uniformGrid_length litNode)
              inRange_0) as [Ho [Hr _]].
  split; [exact Ho | exact Hr].
Defined.

Lemma unity_effect_witness :
  theta (JS.get (gridRef (fst (injectPattern unityShortcut
                                 (stateOf (uniformGrid litNode)) rng0)))
                (cellIdx (35, 36)%Z) noNode) = 30 * (PI / 180) /\
  r (JS.get (gridRef (fst (injectPattern unityShortcut
                             (stateOf (uniformGrid litNode)) rng0)))
            (cellIdx (35, 36)%Z) noNode) = 1.
Proof.
  assert (Hd : cellDist unityShortcut (35, 36)%Z <= radius unityShortcut).
  { unfold cellDist. cbn [fst snd targetX targetY radius unityShortcut].
    rewrite half_grid.
    rewrite !clampTarget_id by (rewrite GRID_SIZE_val; simpl; lra).
    rewrite GRID_SIZE_val. apply sqrt_le_bound; lra. }
  destruct (unity_effect unityShortcut (stateOf (uniformGrid litNode)) rng0
              (35, 36)%Z eq_refl (uniformGrid_length litNode)
              centre_cell_above Hd) as [Ht [Hr _]].
  split; [exact Ht | exact Hr].
Defined.

Lemma reset_patterns_idempotent_witness :
  gridRef (fst (injectPattern centreStabilize
                  (fst (injectPattern centreStabilize
                          (stateOf (uniformGrid litNode)) rng0)) rngHalf))
  = gridRef (fst (injectPattern centreStabilize
                    (stateOf (uniformGrid litNode)) rng0)).
Proof.
  exact (reset_patterns_idempotent centreStabilize
           (stateOf (uniformGrid litNode)) rng0 rngHalf (or_introl eq_refl)
           (uniformGrid_length litNode)).
Defined.

Lemma zero_intensity_is_neutral_witness :
  gridRef (fst (injectPattern stillPulse (stateOf (uniformGrid uniformNode))
                  rng0))
  = gridRef (stateOf (uniformGrid uniformNode)).
Proof.
  apply (zero_intensity_is_neutral stillPulse
           (stateOf (uniformGrid uniformNode)) rng0).
  - left. reflexivity.
  - reflexivity.
  - apply uniformGrid_length.
  - cbn [stateOf gridRef]. unfold uniformGrid. apply Forall_forall.
    intros n Hn. apply repeat_spec in Hn. subst n.
    unfold thetaOk, uniformNode. cbn [theta]. pose proof PI_RGT_0. lra.
Defined.

Lemma inject_keeps_history_witness :
  metricsRef (fst (injectPattern centreSpiral (stateOf (uniformGrid litNode))
                     rng0)) = [] /\
  stepRef (fst (injectPattern centreSpiral (stateOf (uniformGrid litNode))
                  rng0)) = 0%Z /\
  length (gridRef (fst (injectPattern centreSpiral
                          (stateOf (uniformGrid litNode)) rng0)))
  = Z.to_nat TOTAL_NODES.
Proof.
  exact (inject_keeps_history centreSpiral (stateOf (uniformGrid litNode)) rng0
           (uniformGrid_length litNode)).
Defined.

Lemma elysium_any_target_witness :
  (length (placedIndices 0 0) <= 50)%nat /\
  (forall j, inRange j -> ~ In j (placedIndices 0 0) ->
     JS.get (gridRef (fst (injectPattern cornerElysium
                             (stateOf (uniformGrid litNode)) rng0))) j noNode
     = litNode).
Proof.
  destruct (elysium_any_target cornerElysium (stateOf (uniformGrid litNode))
              rng0 eq_refl (uniformGrid_length litNode)) as [Hl [_ Hout]].
  cbn [targetX targetY cornerElysium] in Hl, Hout.
  rewrite !clampTarget_id in Hl, Hout by (rewrite GRID_SIZE_val; simpl; lra).
  split; [exact Hl|].
  intros j Hj Hn. rewrite (Hout j Hj Hn). cbn [stateOf gridRef].
  now apply uniformGrid_get.
Defined.

Lemma entropy_zero_iff_one_bin_witness :
  exists m,
    metricsRef (fst (updatePhysics froundId unitConfig
                       (stateOf (uniformGrid anchor0)) rng0))
    = JS.slice_last 100 [] ++ [m] /\
    (entropy m = 0 <->
     exists b, forall n,
       In n (gridRef (fst (updatePhysics froundId unitConfig
                             (stateOf (uniformGrid anchor0)) rng0))) ->
       binIndex (theta n) = b).
Proof.
  apply (entropy_zero_iff_one_bin froundId unitConfig
           (stateOf (uniformGrid anchor0)) rng0 (uniformGrid_length anchor0)).
  intros n Hn.
  rewrite (anchors_tick_fixed froundId unitConfig
             (stateOf (uniformGrid anchor0)) rng0 (uniformGrid_length anchor0))
    in Hn.
  - cbn [stateOf gridRef] in Hn. unfold uniformGrid in Hn.
    apply repeat_spec in Hn. subst n. unfold anchor0. cbn [theta]. lra.
  - intros n0 Hn0. cbn [stateOf gridRef] in Hn0. unfold uniformGrid in Hn0.
    apply repeat_spec in Hn0. subst n0. unfold anchor0. cbn. split; [reflexivity | lra].
Defined.

Lemma unity_shortcut_aligns_witness :
  theta (JS.get (gridRef (fst (injectPattern unityShortcut
                                 (stateOf (uniformGrid litNode)) rng0)))
                0 noNode) = 30 * (PI / 180) /\
  r (JS.get (gridRef (fst (injectPattern unityShortcut
                             (stateOf (uniformGrid litNode)) rng0)))
            0 noNode) = 1 /\
  alpha (JS.get (gridRef (fst (injectPattern unityShortcut
                                 (stateOf (uniformGrid litNode)) rng0)))
                0 noNode) = 1.
Proof.
  exact (unity_shortcut_aligns (stateOf (uniformGrid litNode)) rng0 0
           (uniformGrid_length litNode) inRange_0).
Defined.

Lemma lightness_bounds_witness :
  lightnessValue anchor0 = 80 /\
  lightnessValue uniformNode <= lightnessValue litNode.
Proof.
  split.
  - apply (proj1 (proj2 (lightness_bounds anchor0))). reflexivity.
  - apply (proj2 (proj2 (proj2 (lightness_bounds uniformNode))) litNode);
      try reflexivity.
    unfold uniformNode, litNode. cbn [r]. lra.
Defined.

Lemma reachable_lightness_witness :
  5 < lightnessValue (JS.get (gridRef mixedState) 1 noNode).
Proof.
  apply (reachable_lightness froundId hashX mixedState 1).
  - apply reach_init, rng1_ok.
  - exact inRange_1.
  - rewrite mixedState_get1. reflexivity.
Defined.

Lemma cells_tile_canvas_witness :
  (0 <= 0 <= 600 - 0.5 /\ 0 <= 0 <= 600 - 0.5) /\ ~ inCell 600 1 0 0.
Proof.
  apply (cells_tile_canvas 600 0 1).
  - rewrite GRID_SIZE_val. lra.
  - exact inRange_0.
  - exact inRange_1.
  - discriminate.
  - unfold inCell, cellX, cellY, cellSize, colOf, rowOf.
    rewrite GRID_SIZE_val. cbn [Z.rem Z.quotrem Z.div Z.div_eucl fst snd].
    lra.
Defined.

Lemma pcm_encoding_witness :
  pcmSample 2 = 32767%Z /\ pcmSample (-3) = (-32768)%Z /\
  (pcmSample 0.25 <= pcmSample 0.5)%Z.
Proof.
  split; [|split].
  - destruct (pcm_encoding 2) as [_ [_ [H _]]]. apply H. lra.
  - destruct (pcm_encoding (-3)) as [_ [_ [_ [H _]]]]. apply H. lra.
  - destruct (pcm_encoding 0.25) as [_ [_ [_ [_ [_ [_ H]]]]]]. apply H. lra.
Defined.

Lemma decodeAudio_samples_witness :
  (exists samples,
     decodeAudio [0; 128; 255; 127]%Z = Some samples /\
     (2 * length samples = 4)%nat /\
     Forall (fun x => -1 <= x < 1) samples) /\
  decodeAudio [0; 128; 255]%Z = None /\ decodeAudio [] = None.
Proof.
  split; [|split].
  - apply (decodeAudio_samples [0; 128; 255; 127]%Z).
    repeat constructor; lia.
  - apply (decodeAudio_samples [0; 128; 255]%Z).
    repeat constructor; lia.
  - apply (decodeAudio_samples []). constructor.
Defined.

Lemma playAll_no_overlap_witness :
  ForallOrdPairs (fun a b => snd a <= fst b)
    (playAll 0 [(0, 1); (0.5, 2); (7, 1)]).
Proof.
  apply (proj1 (proj2 (playAll_no_overlap 0 [(0, 1); (0.5, 2); (7, 1)]
                         ltac:(repeat constructor; cbn [snd]; lra)))).
Defined.

Lemma retry_delays_witness :
  0.79 * nominalDelay 2 500 1
  <= nth 1 (delays (fst (retryWithBackoff (fun _ : unit => true)
                           (fun _ => @Rejected unit unit tt) 2 500 0 rng0))) 0
  <= 1.21 * nominalDelay 2 500 1.
Proof.
  apply (retry_delays (fun _ : unit => true) (fun _ => @Rejected unit unit tt)
           2 500 rng0 1 rng0_ok).
  - lra.
  - cbn. lia.
Defined.

(* ------------------------------------------------------------------ *)
(** ** The coherence of an aligned grid in binary64 *)

Lemma fold_add_const (f : PrimFloat.float -> PrimFloat.float)
    (x v : PrimFloat.float) (n : nat) :
  f x = v -> forall acc,
  fold_left (fun sum th => PrimFloat.add sum (f th)) (repeat x n) acc
  = fold_left (fun sum _ => PrimFloat.add sum v) (repeat x n) acc.
Proof.
  intros Hv. induction n as [|n IH]; intros acc; cbn [repeat fold_left];
    [reflexivity|].
  rewrite Hv. apply IH.
Qed.

Lemma accumulate_const (f : PrimFloat.float -> PrimFloat.float)
    (x v : PrimFloat.float) (n : nat) :
  f x = v ->
  F64.accumulate f (repeat x n) = F64.accumulate (fun _ => v) (repeat x n).
Proof. intros Hv. unfold F64.accumulate. now apply fold_add_const. Qed.

(** C5 fails on the code.  On a grid whose [TOTAL_NODES] nodes all have
    phase 1, with [Math.sin(1)] and [Math.cos(1)] the binary64 numbers
    nearest to sin 1 and cos 1, the coherence a tick records is
    1.0000000000000135, above 1: each of the two sums of 5184 equal
    terms is rounded at every addition, and nothing clamps the
    result. *)
Theorem coherence_exceeds_one
    (Math_sin Math_cos : PrimFloat.float -> PrimFloat.float) :
  Math_sin F64.one = F64.sin1 -> Math_cos F64.one = F64.cos1 ->
  F64.coherence64 Math_sin Math_cos (repeat F64.one (Z.to_nat TOTAL_NODES))
  = F64.aboveOne /\
  PrimFloat.ltb F64.one F64.aboveOne = true.
Proof.
  intros Hs Hc. split; [|vm_compute; reflexivity].
  unfold F64.coherence64.
  rewrite (accumulate_const Math_sin F64.one F64.sin1 _ Hs).
  rewrite (accumulate_const Math_cos F64.one F64.cos1 _ Hc).
  vm_compute. reflexivity.
Qed.

Lemma coherence_exceeds_one_witness :
  F64.coherence64 (fun _ => F64.sin1) (fun _ => F64.cos1)
    (repeat F64.one (Z.to_nat TOTAL_NODES)) = F64.aboveOne /\
  PrimFloat.ltb F64.one F64.aboveOne = true.
Proof.
  apply (coherence_exceeds_one (fun _ => F64.sin1) (fun _ => F64.cos1));
    reflexivity.
Defined.
